(** * reach-tools: schema derivation, batching and record extraction

    A shallow embedding of the notebook code that publishes river reaches to a
    hosted feature layer:

    - the string-length table [len_dict] (a pandas pipeline over the reach
      attributes, followed by [math.ceil(val * 1.1)] in double precision);
    - the field list of the layer definition ([add_fld_meta], the
      comprehension that drops the inferred ObjectID field, [oid_fld]);
    - the upload batching [upload_chunks];
    - the extraction cells of the procurement notebook ([json_info],
      [reach_id], [river], [name], [description], [geojson], [geometry]).

    Python values are an inductive type, dictionaries with string keys are
    finite maps, exceptions are an error type, and the notebook's global
    variables are an explicit environment threaded through the cells. *)

From Stdlib Require Import ZArith List String Permutation Lia.
From Stdlib Require Import Floats.SpecFloat.
From stdpp Require Import gmap strings list fin_maps.

#[local] Set Warnings "-register-all".
Local Open Scope string_scope.

(** ** Python values and exceptions *)

Module Py.

(** The values the notebooks handle: what [json.load] returns and what the
    attribute and field dictionaries hold.  A [str] is a sequence of
    characters (one [ascii] per character); a dictionary literal inside a value
    is the list of its items, keys unique. *)
Inductive PyVal : Type :=
| PNone
| PBool (b : bool)
| PInt (z : Z)
| PFloat (f : spec_float)
| PStr (s : string)
| PList (l : list PyVal)
| PDict (d : list (string * PyVal)).

(** The exceptions of interest.  [AttributeError], [NameError], [KeyError],
    [TypeError], [ValueError] and [OverflowError] are Python's own;
    [LibraryError] is whatever the arcgis package raises from inside a call.
    [MalformedSourceDocument] and [UnsupportedSpatialReference] are the two
    document errors of the error taxonomy; no statement of the notebooks
    raises them. *)
Inductive exn : Type :=
| AttributeError
| NameError
| KeyError
| TypeError
| ValueError
| OverflowError
| LibraryError
| MalformedSourceDocument
| UnsupportedSpatialReference.

(** A computation that returns or raises. *)
Definition result (A : Type) : Type := exn + A.

Definition ret {A} (a : A) : result A := inr a.
Definition raise {A} (e : exn) : result A := inl e.
Definition bind {A B} (m : result A) (k : A -> result B) : result B :=
  match m with
  | inl e => inl e
  | inr a => k a
  end.

(** A function that may raise, over the elements of a list in order; the
    first exception leaves the loop. *)
Fixpoint mapM {A B} (f : A -> result B) (l : list A) : result (list B) :=
  match l with
  | [] => ret []
  | a :: l' =>
      match f a with
      | inl e => raise e
      | inr b =>
          match mapM f l' with
          | inl e => raise e
          | inr bs => ret (b :: bs)
          end
      end
  end.

(** [len(v)] for a string. *)
Definition str_len (s : string) : Z := Z.of_nat (String.length s).

End Py.

Export Py.

Notation "'do' x <- m ; k" := (Py.bind m (fun x => k))
  (at level 10, x name, m at level 100, k at level 200, only parsing).

(** ** Double precision arithmetic *)

Module F64.

(** Python's [float] and numpy's [float64] are IEEE 754 binary64: 53 bits of
    precision, infinities at exponent 1024.  The operations are the Standard
    Library's specification of them over [Z] mantissas. *)
Definition prec : Z := 53.
Definition emax : Z := 1024.

(** [float(n)]: the integer rounded to the nearest double. *)
Definition of_int (n : Z) : spec_float := binary_normalize prec emax n 0 false.

(** [x * y] *)
Definition mul (x y : spec_float) : spec_float := SFmul prec emax x y.

(** The literal [1.1]: the double nearest to 11/10,
    [0x1.199999999999ap+0]. *)
Definition lit_1_1 : spec_float := S754_finite false 4953959590107546 (-52).

(** The integer ceiling of [m * 2^e]. *)
Definition ceil_scaled (m e : Z) : Z :=
  match e with
  | Zneg p => - ((- m) / 2 ^ Zpos p)
  | _ => m * 2 ^ e
  end.

(** [math.ceil(x)]: the smallest integer not below [x]; [OverflowError] on an
    infinity and [ValueError] on a NaN. *)
Definition math_ceil (x : spec_float) : result Z :=
  match x with
  | S754_zero _ => ret 0%Z
  | S754_finite s m e => ret (ceil_scaled (cond_Zopp s (Zpos m)) e)
  | S754_infinity _ => raise OverflowError
  | S754_nan => raise ValueError
  end.

End F64.

(** ** Schema derivation *)

Module Schema.

(** *** The string-length table

<<
dict_lst = [{k: len(v) if isinstance(v, str) else None
             for k, v in Reach.from_aw_json(reach_json).attributes.items()}
            for reach_json in raw_json_lst]
len_dict = pd.DataFrame.from_records(dict_lst).max().dropna().astype(int)
             .apply(lambda val: math.ceil(val * 1.1)).astype(int).to_dict()
>>

    [Reach.from_aw_json] is not part of the notebooks; the attribute mappings
    of the reaches are the input. *)

(** [len(v) if isinstance(v, str) else None]: one cell of the length frame,
    a length, or [None] for a value that is not a string (pandas stores it as
    NaN). *)
Definition len_or_none (v : PyVal) : option Z :=
  match v with
  | PStr s => Some (str_len s)
  | _ => None
  end.

Definition dict_lst (attrs : list (gmap string PyVal))
  : list (gmap string (option Z)) :=
  (fun a : gmap string PyVal => len_or_none <$> a) <$> attrs.

(** A data frame: its column labels and its rows, every row holding a cell
    for every column. *)
Record DataFrame : Type := {
  df_columns : gset string;
  df_rows : list (gmap string (option Z))
}.

(** [pd.DataFrame.from_records]: the columns are the keys of all the
    records; a record without a key gets NaN in that column. *)
Definition from_records (recs : list (gmap string (option Z))) : DataFrame :=
  let cols := ⋃ (dom <$> recs) in
  {| df_columns := cols;
     df_rows :=
       (fun r : gmap string (option Z) => r ∪ gset_to_gmap None cols) <$> recs |}.

(** The larger of two cells, NaN skipped. *)
Definition nanmax (a b : option Z) : option Z :=
  match a, b with
  | Some x, Some y => Some (Z.max x y)
  | Some x, None => Some x
  | None, _ => b
  end.

(** [DataFrame.max()]: per column, the maximum of the cells that are not
    NaN, and NaN for a column with none. *)
Definition df_max (df : DataFrame) : gmap string (option Z) :=
  foldr (fun r acc => union_with (fun a b => Some (nanmax a b)) r acc)
        (gset_to_gmap None (df_columns df)) (df_rows df).

(** [Series.dropna()] *)
Definition dropna (s : gmap string (option Z)) : gmap string Z :=
  omap id s.

(** [lambda val: math.ceil(val * 1.1)] *)
Definition headroom (val : Z) : result Z :=
  F64.math_ceil (F64.mul (F64.of_int val) F64.lit_1_1).

(** [Series.apply(f)]: [f] on every entry; an exception raised by [f] leaves
    the call. *)
Definition series_apply (f : Z -> result Z) (s : gmap string Z)
  : result (gmap string Z) :=
  do kvs <- mapM (fun kv => do y <- f kv.2; ret (kv.1, y)) (map_to_list s);
  ret (list_to_map kvs).

(** The table.  The maxima of a column that holds a NaN are float64 numbers,
    whole and exact for lengths below 2^53; [astype(int)] makes them integers
    again, before and after the [apply], and [to_dict] gives the dictionary. *)
Definition len_dict (attrs : list (gmap string PyVal)) : result (gmap string Z) :=
  series_apply headroom (dropna (df_max (from_records (dict_lst attrs)))).

(** *** Notions the statements about the table use *)

(** The lengths of the string values a field takes over the collection, in
    record order. *)
Definition observed (fld : string) (attrs : list (gmap string PyVal)) : list Z :=
  omap (fun a : gmap string PyVal => a !! fld ≫= len_or_none) attrs.

(** [m] is the maximum of [l]. *)
Definition is_max (m : Z) (l : list Z) : Prop :=
  m ∈ l /\ forall x, x ∈ l -> (x <= m)%Z.

(** The maximum of the cells of column [k] that are not NaN. *)
Definition col_max (k : string) (recs : list (gmap string (option Z))) : option Z :=
  foldr (fun r acc => nanmax (r !! k ≫= id) acc) None recs.

(** Every string value of the record is shorter than [bound]. *)
Definition lengths_below (bound : Z) (a : gmap string PyVal) : Prop :=
  map_Forall (fun _ v => match len_or_none v with
                         | Some n => (n < bound)%Z
                         | None => True
                         end) a.

(** The value of [headroom] where it returns. *)
Definition headroom_val (v : Z) : Z :=
  match headroom v with
  | inr y => y
  | inl _ => 0%Z
  end.

(** *** The field list of the layer definition

<<
def add_fld_meta(fld: dict, nullable: bool = True, editable: bool = True) -> dict:
    fld_len = len_dict.get(fld['name'])
    if fld_len is not None:
        fld['length'] = fld_len
    return fld

fields = [add_fld_meta(fld) for fld in fs_prop.fields
          if fld['type'] != 'esriFieldTypeOID']
oid_fld = {...}
fields.append(oid_fld)
>>

    A field description is a dictionary with string keys.  [fs_prop.fields]
    is what [FeatureSet.from_dict] of the arcgis package inferred from the
    features; it is the input here. *)

(** [d[k]] *)
Definition getitem (d : gmap string PyVal) (k : string) : result PyVal :=
  match d !! k with
  | Some v => ret v
  | None => raise KeyError
  end.

(** [len_dict.get(key)]: the keys of [len_dict] are strings, so another
    hashable key is not found; a list or a dictionary is not hashable. *)
Definition len_dict_get (len_dict : gmap string Z) (key : PyVal) : result (option Z) :=
  match key with
  | PStr s => ret (len_dict !! s)
  | PList _ | PDict _ => raise TypeError
  | _ => ret None
  end.

(** [add_fld_meta]: the dictionary it is given is updated in place and
    returned; [nullable] and [editable] are accepted and not used. *)
Definition add_fld_meta (len_dict : gmap string Z) (fld : gmap string PyVal)
    (nullable editable : bool) : result (gmap string PyVal) :=
  do name <- getitem fld "name";
  do fld_len <- len_dict_get len_dict name;
  match fld_len with
  | Some n => ret (<["length" := PInt n]> fld)
  | None => ret fld
  end.

(** [v == 'esriFieldTypeOID'] *)
Definition is_oid_type (v : PyVal) : bool :=
  match v with
  | PStr s => String.eqb s "esriFieldTypeOID"
  | _ => false
  end.

(** The list comprehension: the fields in order, the test before the call,
    the first exception leaving the loop. *)
Fixpoint fields_comprehension (len_dict : gmap string Z)
    (fs : list (gmap string PyVal)) : result (list (gmap string PyVal)) :=
  match fs with
  | [] => ret []
  | fld :: rest =>
      do ty <- getitem fld "type";
      if is_oid_type ty then fields_comprehension len_dict rest
      else
        do fld' <- add_fld_meta len_dict fld true true;
        do rest' <- fields_comprehension len_dict rest;
        ret (fld' :: rest')
  end.

Definition oid_fld : gmap string PyVal :=
  {[ "name" := PStr "OBJECTID";
     "type" := PStr "esriFieldTypeOID";
     "actualType" := PStr "int";
     "alias" := PStr "OBJECTID";
     "sqlType" := PStr "sqlTypeInteger";
     "nullable" := PBool false;
     "editable" := PBool false ]}.

(** [fields] after [fields.append(oid_fld)]. *)
Definition fields (len_dict : gmap string Z) (fs : list (gmap string PyVal))
  : result (list (gmap string PyVal)) :=
  do kept <- fields_comprehension len_dict fs;
  ret (kept ++ [oid_fld])%list.

(** The field is typed as the row identifier. *)
Definition has_oid_type (fld : gmap string PyVal) : bool :=
  match fld !! "type" with
  | Some v => is_oid_type v
  | None => false
  end.



(** *** The layer definition

<<
lyr_def = {"type": "Feature Layer", "name": service_name,
           "geometryType": "esriGeometryPolyline", "indexes": [...],
           "objectIdField": "OBJECTID", "uniqueField": {...},
           "spatialReference": {"wkid": 4326}}
lyr_def['fields'] = fields
>> *)
Record LayerDefinition : Type := {
  lyr_type : string;
  lyr_name : string;
  geometryType : string;
  indexes : list (gmap string PyVal);
  objectIdField : string;
  uniqueField : gmap string PyVal;
  spatialReference : gmap string PyVal;
  lyr_fields : list (gmap string PyVal)
}.

Definition lyr_def (service_name : string) (flds : list (gmap string PyVal))
  : LayerDefinition :=
  {| lyr_type := "Feature Layer";
     lyr_name := service_name;
     geometryType := "esriGeometryPolyline";
     indexes :=
       [ {[ "name" := PStr "PK_IDX";
            "fields" := PStr "OBJECTID";
            "isAscending" := PBool true;
            "isUnique" := PBool true;
            "description" := PStr "clustered, unique, primary key" ]} ];
     objectIdField := "OBJECTID";
     uniqueField := {[ "name" := PStr "OBJECTID"; "isSystemMaintained" := PBool true ]};
     spatialReference := {[ "wkid" := PInt 4326 ]};
     lyr_fields := flds |}.

End Schema.

(** ** Upload batches *)

Module Upload.

(** [range(0, stop, step)] for [stop >= 0]: [ValueError] for a zero step,
    nothing for a negative one, and otherwise the multiples of [step] below
    [stop], [(stop + step - 1) // step] of them. *)
Definition py_range (stop step : Z) : result (list Z) :=
  if decide (step = 0)%Z then raise ValueError
  else if decide (0 < step)%Z then
    ret ((fun i : nat => (Z.of_nat i * step)%Z) <$>
           seq 0 (Z.to_nat ((stop + step - 1) / step)))
  else ret [].

(** A slice bound brought into [0 .. n]: a negative one counts from the
    end. *)
Definition clamp_index (n i : Z) : Z :=
  if (i <? 0)%Z then Z.max (i + n) 0 else Z.min i n.

(** [l[lo:hi]] *)
Definition py_slice {A} (l : list A) (lo hi : Z) : list A :=
  let n := Z.of_nat (length l) in
  let a := clamp_index n lo in
  let b := clamp_index n hi in
  take (Z.to_nat (b - a)) (drop (Z.to_nat a) l).

(**
<<
chunk_size = 200
upload_chunks = [feature_lst[idx: idx + chunk_size]
                 for idx in range(0, len(feature_lst), chunk_size)]
>> *)
Definition upload_chunks {A} (feature_lst : list A) (chunk_size : Z)
  : result (list (list A)) :=
  do idxs <- py_range (Z.of_nat (length feature_lst)) chunk_size;
  ret ((fun idx : Z => py_slice feature_lst idx (idx + chunk_size)) <$> idxs).

End Upload.

(** ** The extraction cells of the procurement notebook *)

Module Procure.

(** The notebook's global variables. *)
Abbreviation Env := (gmap string PyVal).

(** A statement runs in an environment and leaves one; it completes ([None])
    or raises, and what was assigned before an exception stays assigned. *)
Definition stmt : Type := Env -> Env * option exn.

(** [x = e] *)
Definition assign (x : string) (e : Env -> result PyVal) : stmt :=
  fun env =>
    match e env with
    | inl err => (env, Some err)
    | inr v => (<[x := v]> env, None)
    end.

(** One statement after another. *)
Definition and_then (s1 s2 : stmt) : stmt :=
  fun env =>
    match s1 env with
    | (env', Some err) => (env', Some err)
    | (env', None) => s2 env'
    end.

Declare Scope stmt_scope.
Delimit Scope stmt_scope with stmt.
Bind Scope stmt_scope with stmt.
Notation "s1 ;; s2" := (and_then s1 s2)
  (at level 100, s2 at level 200, right associativity) : stmt_scope.
Local Open Scope stmt_scope.

(** Reading a variable: [NameError] when it is not bound. *)
Definition var (x : string) (env : Env) : result PyVal :=
  match env !! x with
  | Some v => ret v
  | None => raise NameError
  end.

(** [d.get(k)] on the items of a dictionary: [None] for a key that is not
    there. *)
Fixpoint dict_get (d : list (string * PyVal)) (k : string) : PyVal :=
  match d with
  | [] => PNone
  | (k', v) :: d' => if String.eqb k k' then v else dict_get d' k
  end.

(** [o.get(k)]: only a dictionary has the method; on [None], a list, a
    string or a number the attribute lookup raises [AttributeError]. *)
Definition py_get (o : PyVal) (k : string) : result PyVal :=
  match o with
  | PDict d => ret (dict_get d k)
  | _ => raise AttributeError
  end.

(** [aw_json.get('CContainerViewJSON_view').get('CRiverMainGadgetJSON_main').get('info')] *)
Definition info_of (aw_json : PyVal) : result PyVal :=
  do view <- py_get aw_json "CContainerViewJSON_view";
  do main <- py_get view "CRiverMainGadgetJSON_main";
  py_get main "info".

(**
<<
with open(pth, 'r') as json_fl:
    aw_json = json.load(json_fl)
>>
    The file holds the document [doc]; the parse is [json.load]'s. *)
Definition cell_load (doc : PyVal) : stmt :=
  assign "aw_json" (fun _ => ret doc).

(**
<<
json_info = aw_json.get('CContainerViewJSON_view').get('CRiverMainGadgetJSON_main').get('info')

reach_id = json_info.get('id')
river = json_info.get('river')
name = json_info.get('section')
description = json_info.get('description_md')
>> *)
Definition cell_info : stmt :=
  assign "json_info" (fun env => do a <- var "aw_json" env; info_of a) ;;
  assign "reach_id" (fun env => do j <- var "json_info" env; py_get j "id") ;;
  assign "river" (fun env => do j <- var "json_info" env; py_get j "river") ;;
  assign "name" (fun env => do j <- var "json_info" env; py_get j "section") ;;
  assign "description" (fun env => do j <- var "json_info" env; py_get j "description_md").

(** [geojson = json_info.get('geom')] *)
Definition cell_geojson : stmt :=
  assign "geojson" (fun env => do j <- var "json_info" env; py_get j "geom").

(** The cell that reads a document and binds its descriptive fields. *)
Definition extract (doc : PyVal) : stmt := cell_load doc ;; cell_info.

(** The variables that hold the descriptive fields of the reach. *)
Definition attribute_names : list string :=
  ["reach_id"; "river"; "name"; "description"].

(** The attribute mapping the notebook holds: the descriptive variables that
    are bound, with their values. *)
Definition attributes (env : Env) : gmap string PyVal :=
  filter (fun kv : string * PyVal => kv.1 ∈ attribute_names) env.


Section WithGeometry.

(** [arcgis.geometry.Geometry]: the constructor of the arcgis package, a
    function of its argument that returns a geometry or raises an exception
    of its own ([None]). *)
Variable Geometry : PyVal -> option PyVal.

(** [geometry = Geometry(geojson)] *)
Definition cell_geometry : stmt :=
  assign "geometry"
    (fun env =>
       do g <- var "geojson" env;
       match Geometry g with
       | Some v => ret v
       | None => raise LibraryError
       end).

(** A document through the cells, in notebook order. *)
Definition normalize (doc : PyVal) : stmt :=
  extract doc ;; cell_geojson ;; cell_geometry.

End WithGeometry.

(** A vertex [[x, y]] read as longitude and latitude in degrees: longitude
    in [-180, 180] and latitude in [-90, 90]. *)
Definition coord_between (lo hi : Z) (v : PyVal) : bool :=
  match v with
  | PInt z => (lo <=? z)%Z && (z <=? hi)%Z
  | PFloat f =>
      SFleb (F64.of_int lo) f && SFleb f (F64.of_int hi)
  | _ => false
  end.

Definition vertex_in_wgs84_range (v : PyVal) : bool :=
  match v with
  | PList (x :: y :: _) => coord_between (-180) 180 x && coord_between (-90) 90 y
  | _ => false
  end.

(** The vertices of a GeoJSON line string are all in that range. *)
Definition geom_in_wgs84_range (geom : PyVal) : bool :=
  match geom with
  | PDict d =>
      match dict_get d "coordinates" with
      | PList vs => forallb vertex_in_wgs84_range vs
      | _ => false
      end
  | _ => false
  end.

End Procure.

(** * Properties *)

(** ** Rounding never overflows on lengths *)

Module F64Facts.
Import F64.
Local Open Scope Z_scope.

Lemma digits2_pos_gt (p : positive) : Zpos p < 2 ^ Zpos (digits2_pos p).
Proof.
  induction p as [p IH|p IH|]; cbn [digits2_pos].
  - rewrite Pos2Z.inj_succ, Z.pow_succ_r by lia. lia.
  - rewrite Pos2Z.inj_succ, Z.pow_succ_r by lia. lia.
  - reflexivity.
Qed.

Lemma digits2_pos_le (p : positive) : 2 ^ (Zpos (digits2_pos p) - 1) <= Zpos p.
Proof.
  induction p as [p IH|p IH|]; cbn [digits2_pos].
  - rewrite Pos2Z.inj_succ.
    replace (Z.succ (Zpos (digits2_pos p)) - 1) with (Z.succ (Zpos (digits2_pos p) - 1)) by lia.
    rewrite Z.pow_succ_r by lia. lia.
  - rewrite Pos2Z.inj_succ.
    replace (Z.succ (Zpos (digits2_pos p)) - 1) with (Z.succ (Zpos (digits2_pos p) - 1)) by lia.
    rewrite Z.pow_succ_r by lia. lia.
  - reflexivity.
Qed.

Lemma Zdigits2_bound (m k : Z) : 0 <= k -> 0 <= m < 2 ^ k -> 0 <= Zdigits2 m <= k.
Proof.
  intros Hk [Hm Hlt]. destruct m as [|p|p]; cbn [Zdigits2]; try lia.
  split; [lia|].
  destruct (Z_le_gt_dec (Zpos (digits2_pos p)) k) as [|Hgt]; [assumption|].
  pose proof (digits2_pos_le p) as Hle.
  assert (2 ^ k <= 2 ^ (Zpos (digits2_pos p) - 1)) by (apply Z.pow_le_mono_r; lia).
  lia.
Qed.

Lemma iter_pos_inv {A} (P : A -> Prop) (f : A -> A) :
  (forall x, P x -> P (f x)) -> forall p x, P x -> P (SpecFloat.iter_pos f p x).
Proof.
  intros Hf p. induction p as [p IH|p IH|]; intros x Hx; cbn [SpecFloat.iter_pos]; auto.
Qed.

Lemma shr_1_bound (b : Z) (mrs : shr_record) :
  0 <= shr_m mrs <= b -> 0 <= shr_m (shr_1 mrs) <= b.
Proof.
  destruct mrs as [m r s']. cbn [shr_m]. intros Hm.
  destruct m as [|[q|q|]|[q|q|]]; cbn; lia.
Qed.

Lemma shr_bound (mrs : shr_record) (e n : Z) :
  0 <= shr_m mrs ->
  0 <= shr_m (fst (shr mrs e n)) <= shr_m mrs /\ snd (shr mrs e n) = e + Z.max n 0.
Proof.
  intros Hm. destruct n as [|p|p]; cbn [shr fst snd]; try (split; lia).
  split; [|lia].
  apply (iter_pos_inv (fun x => 0 <= shr_m x <= shr_m mrs)); [|lia].
  intros x Hx. now apply shr_1_bound.
Qed.

Lemma shr_record_of_loc_m (m : Z) (l : location) : shr_m (shr_record_of_loc m l) = m.
Proof. destruct l as [|[ | | ]]; reflexivity. Qed.

Lemma round_nearest_even_bound (m : Z) (l : location) :
  0 <= m -> 0 <= round_nearest_even m l <= m + 1.
Proof.
  intros Hm. destruct l as [|[ | | ]]; cbn [round_nearest_even]; try lia.
  destruct (Z.even m); lia.
Qed.

Lemma fexp_bound (x : Z) : fexp prec emax x <= Z.max x 0 - 53.
Proof. unfold fexp, SpecFloat.emin, prec, emax. lia. Qed.

(** Rounding a non-negative mantissa of at most [k] bits: the result is a
    zero or a finite number, its mantissa at most one above the given one. *)
Lemma binary_round_aux_finite (s : bool) (m e k : Z) :
  0 <= k -> 0 <= m < 2 ^ k -> Z.max e 0 + 2 * k <= 971 ->
  binary_round_aux prec emax s m e loc_Exact = S754_zero s \/
  exists m' e', binary_round_aux prec emax s m e loc_Exact = S754_finite s m' e' /\
                Zpos m' <= m + 1 /\ e' <= Z.max e 0 + 2 * k.
Proof.
  intros Hk Hm Hbig. unfold binary_round_aux, shr_fexp.
  pose proof (Zdigits2_bound m k Hk Hm) as Hd.
  pose proof (fexp_bound (Zdigits2 m + e)) as Hf.
  destruct (shr (shr_record_of_loc m loc_Exact) e
              (fexp prec emax (Zdigits2 m + e) - e)) as [mrs' e'] eqn:E1.
  pose proof (shr_bound (shr_record_of_loc m loc_Exact) e
                (fexp prec emax (Zdigits2 m + e) - e)) as H1.
  rewrite E1, shr_record_of_loc_m in H1. cbn [fst snd] in H1.
  destruct (H1 ltac:(lia)) as [Hm' He']. clear H1.
  set (m1 := round_nearest_even (shr_m mrs') (loc_of_shr_record mrs')).
  pose proof (round_nearest_even_bound (shr_m mrs') (loc_of_shr_record mrs') ltac:(lia)) as Hr.
  fold m1 in Hr.
  assert (Hm1 : 0 <= m1 < 2 ^ (k + 1)).
  { rewrite Z.pow_add_r by lia. change (2 ^ 1) with 2. lia. }
  pose proof (Zdigits2_bound m1 (k + 1) ltac:(lia) Hm1) as Hd1.
  pose proof (fexp_bound (Zdigits2 m1 + e')) as Hf1.
  destruct (shr (shr_record_of_loc m1 loc_Exact) e'
              (fexp prec emax (Zdigits2 m1 + e') - e')) as [mrs'' e''] eqn:E2.
  pose proof (shr_bound (shr_record_of_loc m1 loc_Exact) e'
                (fexp prec emax (Zdigits2 m1 + e') - e')) as H2.
  rewrite E2, shr_record_of_loc_m in H2. cbn [fst snd] in H2.
  destruct (H2 ltac:(lia)) as [Hm'' He'']. clear H2.
  assert (He2 : e'' <= Z.max e 0 + 2 * k) by lia.
  destruct (shr_m mrs'') as [|q|q] eqn:Eq; [now left| |lia].
  right. exists q, e''.
  replace (e'' <=? emax - prec) with true by (symmetry; apply Z.leb_le; unfold emax, prec; lia).
  repeat split; lia.
Qed.

(** The literal is the correctly rounded quotient of 11 by 10. *)
Example lit_1_1_nearest : SFdiv prec emax (of_int 11) (of_int 10) = lit_1_1.
Proof. vm_compute. reflexivity. Qed.

Lemma iter_xO_mul (p d : positive) : Zpos (Pos.iter xO p d) = Zpos p * 2 ^ Zpos d.
Proof.
  induction d as [|d IH] using Pos.peano_ind.
  - cbn. lia.
  - rewrite Pos.iter_succ, Pos2Z.inj_succ, Z.pow_succ_r by lia.
    rewrite Pos2Z.inj_xO, IH. lia.
Qed.

(** [float(n)] of an [int64] length is a zero or a finite double. *)
Lemma of_int_finite (n : Z) :
  0 <= n < 2 ^ 63 ->
  of_int n = S754_zero false \/
  exists m e, of_int n = S754_finite false m e /\ Zpos m <= 2 ^ 63 /\ e <= 126.
Proof.
  intros Hn. unfold of_int, binary_normalize.
  destruct n as [|p|p]; [now left| |lia].
  unfold binary_round, shl_align.
  pose proof (fexp_bound (Zpos (digits2_pos p) + 0)) as Hf.
  pose proof (Zdigits2_bound (Zpos p) 63 ltac:(lia) Hn) as Hd. cbn [Zdigits2] in Hd.
  assert (Hlo : Zpos (digits2_pos p) + 0 - 53 <= fexp prec emax (Zpos (digits2_pos p) + 0))
    by (unfold fexp, prec; lia).
  destruct (fexp prec emax (Zpos (digits2_pos p) + 0) - 0) as [|d|d] eqn:Ed.
  - destruct (binary_round_aux_finite false (Zpos p) 0 63) as [H|(m' & e' & H & Hm' & He')];
      try lia; [now left|].
    right. exists m', e'. repeat split; [assumption|lia|lia].
  - destruct (binary_round_aux_finite false (Zpos p) 0 63) as [H|(m' & e' & H & Hm' & He')];
      try lia; [now left|].
    right. exists m', e'. repeat split; [assumption|lia|lia].
  - assert (Hmz : Zpos (Pos.iter xO p d) < 2 ^ 53).
    { rewrite iter_xO_mul.
      pose proof (digits2_pos_gt p) as Hgt.
      assert (Hpow : 2 ^ Zpos (digits2_pos p) * 2 ^ Zpos d <= 2 ^ 53).
      { rewrite <- Z.pow_add_r by lia. apply Z.pow_le_mono_r; lia. }
      assert (0 < 2 ^ Zpos d) by (apply Z.pow_pos_nonneg; lia).
      nia. }
    destruct (binary_round_aux_finite false (Zpos (Pos.iter xO p d))
                (fexp prec emax (Zpos (digits2_pos p) + 0)) 63)
      as [H|(m' & e' & H & Hm' & He')]; try lia; [now left|].
    right. exists m', e'. repeat split; [assumption|lia|lia].
Qed.

(** The product of an [int64] length with [1.1] never overflows:
    [math.ceil] returns. *)
Lemma ceil_mul_total (n : Z) :
  0 <= n < 2 ^ 63 -> exists y, math_ceil (mul (of_int n) lit_1_1) = inr y.
Proof.
  intros Hn.
  destruct (of_int_finite n Hn) as [H|(m & e & H & Hm & He)]; rewrite H.
  - cbn. eauto.
  - unfold mul, lit_1_1. cbn [SFmul xorb].
    destruct (binary_round_aux_finite false (Zpos (m * 4953959590107546)) (e + -52) 117)
      as [H'|(m' & e' & H' & _ & _)]; try lia; rewrite H'; cbn; eauto.
Qed.

(** *** The headroom is never below the length *)

Lemma Zdigits2_eq (m k : Z) : 0 < k -> 2 ^ (k - 1) <= m < 2 ^ k -> Zdigits2 m = k.
Proof.
  intros Hk [Hlo Hhi].
  assert (0 < 2 ^ (k - 1)) by (apply Z.pow_pos_nonneg; lia).
  destruct m as [|p|p]; try lia. cbn [Zdigits2].
  pose proof (digits2_pos_gt p) as Hgt. pose proof (digits2_pos_le p) as Hle.
  destruct (Z.lt_trichotomy (Zpos (digits2_pos p)) k) as [Hlt|[Heq|Hgt']]; [|assumption|].
  - assert (2 ^ Zpos (digits2_pos p) <= 2 ^ (k - 1)) by (apply Z.pow_le_mono_r; lia). lia.
  - assert (2 ^ k <= 2 ^ (Zpos (digits2_pos p) - 1)) by (apply Z.pow_le_mono_r; lia). lia.
Qed.

Lemma shr_1_div2 (mrs : shr_record) :
  0 <= shr_m mrs -> shr_m (shr_1 mrs) = shr_m mrs / 2.
Proof.
  destruct mrs as [m r s']. cbn [shr_m]. intros Hm.
  destruct m as [|[q|q|]|q]; cbn [shr_1 shr_m]; try reflexivity; try lia.
  - apply Z.div_unique with (r := 1); lia.
  - apply Z.div_unique with (r := 0); lia.
Qed.

Lemma shr_1_nonneg (mrs : shr_record) : 0 <= shr_m mrs -> 0 <= shr_m (shr_1 mrs).
Proof. intros H. apply (shr_1_bound (shr_m mrs)). lia. Qed.

Lemma iter_shr_1_nonneg (p : positive) (mrs : shr_record) :
  0 <= shr_m mrs -> 0 <= shr_m (SpecFloat.iter_pos shr_1 p mrs).
Proof. apply (iter_pos_inv (fun x => 0 <= shr_m x)). exact shr_1_nonneg. Qed.

Lemma pow2_double (p : positive) : 2 ^ Zpos p~0 = 2 ^ Zpos p * 2 ^ Zpos p.
Proof. rewrite Pos2Z.inj_xO, <- Z.pow_add_r by lia. f_equal. lia. Qed.

Lemma iter_shr_1_div (p : positive) (mrs : shr_record) :
  0 <= shr_m mrs -> shr_m (SpecFloat.iter_pos shr_1 p mrs) = shr_m mrs / 2 ^ Zpos p.
Proof.
  revert mrs. induction p as [p IH|p IH|]; intros mrs Hm; cbn [SpecFloat.iter_pos].
  - pose proof (shr_1_nonneg mrs Hm) as H1.
    pose proof (iter_shr_1_nonneg p (shr_1 mrs) H1) as H2.
    assert (0 < 2 ^ Zpos p) by (apply Z.pow_pos_nonneg; lia).
    rewrite IH, IH, shr_1_div2 by assumption.
    rewrite !Z.div_div by lia.
    f_equal. rewrite Pos2Z.inj_xI, Z.pow_add_r by lia.
    change (2 * Zpos p) with (Zpos p~0). rewrite pow2_double.
    change (2 ^ 1) with 2. ring.
  - pose proof (iter_shr_1_nonneg p mrs Hm) as H2.
    assert (0 < 2 ^ Zpos p) by (apply Z.pow_pos_nonneg; lia).
    rewrite IH, IH by assumption.
    rewrite !Z.div_div by lia.
    f_equal. apply eq_sym, pow2_double.
  - rewrite shr_1_div2 by lia. reflexivity.
Qed.

Lemma round_nearest_even_ge (m : Z) (l : location) : m <= round_nearest_even m l.
Proof.
  destruct l as [|[ | | ]]; cbn [round_nearest_even]; try lia.
  destruct (Z.even m); lia.
Qed.

(** The second half of [binary_round_aux]: the rounded mantissa is brought
    back to 53 bits and the exponent is checked. *)
Definition finish (sx : bool) (m e : Z) : spec_float :=
  let '(mrs'', e'') := shr_fexp prec emax m e loc_Exact in
  match shr_m mrs'' with
  | Z0 => S754_zero sx
  | Zpos m => if e'' <=? emax - prec then S754_finite sx m e'' else S754_infinity sx
  | _ => S754_nan
  end.

Lemma binary_round_aux_finish (sx : bool) (mx ex : Z) (lx : location) :
  binary_round_aux prec emax sx mx ex lx =
  let '(mrs', e') := shr_fexp prec emax mx ex lx in
  finish sx (round_nearest_even (shr_m mrs') (loc_of_shr_record mrs')) e'.
Proof. reflexivity. Qed.

Lemma finish_53 (sx : bool) (m : positive) (e : Z) :
  2 ^ 52 <= Zpos m < 2 ^ 53 -> -1074 <= e <= 971 ->
  finish sx (Zpos m) e = S754_finite sx m e.
Proof.
  intros Hm He. unfold finish, shr_fexp.
  rewrite (Zdigits2_eq (Zpos m) 53) by (change (53 - 1) with 52; lia).
  replace (fexp prec emax (53 + e) - e) with 0
    by (unfold fexp, SpecFloat.emin, prec, emax; lia).
  cbn [shr shr_record_of_loc shr_m].
  replace (e <=? emax - prec) with true
    by (symmetry; apply Z.leb_le; unfold emax, prec; lia).
  reflexivity.
Qed.

Lemma finish_54 (sx : bool) (e : Z) :
  -1075 <= e <= 970 ->
  finish sx (2 ^ 53) e = S754_finite sx (2 ^ 52)%positive (e + 1).
Proof.
  intros He. unfold finish, shr_fexp.
  change (Zdigits2 (2 ^ 53)) with 54.
  replace (fexp prec emax (54 + e) - e) with 1
    by (unfold fexp, SpecFloat.emin, prec, emax; lia).
  cbn [shr]. change (shr_m (SpecFloat.iter_pos shr_1 1 (shr_record_of_loc (2 ^ 53) loc_Exact)))
    with (Zpos (2 ^ 52)).
  cbn iota.
  replace (e + 1 <=? emax - prec) with true
    by (symmetry; apply Z.leb_le; unfold emax, prec; lia).
  reflexivity.
Qed.

(** [float(n)] is exact for a positive [n] below 2^53. *)
Lemma of_int_exact (n : Z) :
  0 < n < 2 ^ 53 ->
  exists mz ez,
    of_int n = S754_finite false mz ez /\
    Zpos mz = n * 2 ^ (- ez) /\ -52 <= ez <= 0 /\ 2 ^ 52 <= Zpos mz < 2 ^ 53.
Proof.
  intros Hn. destruct n as [|p|p]; try lia.
  unfold of_int, binary_normalize, binary_round, shl_align.
  pose proof (digits2_pos_gt p) as Hgt. pose proof (digits2_pos_le p) as Hle.
  assert (HD : Zpos (digits2_pos p) <= 53)
    by (apply (Zdigits2_bound (Zpos p) 53); lia).
  replace (fexp prec emax (Zpos (digits2_pos p) + 0)) with (Zpos (digits2_pos p) - 53)
    by (unfold fexp, SpecFloat.emin, prec, emax; lia).
  destruct (Zpos (digits2_pos p) - 53 - 0) as [|d|d] eqn:Ed; try lia.
  - assert (HD' : Zpos (digits2_pos p) = 53) by lia. rewrite HD' in *.
    change (53 - 1) with 52 in Hle.
    exists p, 0. rewrite binary_round_aux_finish. unfold shr_fexp.
    rewrite (Zdigits2_eq (Zpos p) 53) by (change (53 - 1) with 52; lia).
    replace (fexp prec emax (53 + 0) - 0) with 0 by reflexivity.
    cbn [shr shr_record_of_loc shr_m loc_of_shr_record round_nearest_even].
    rewrite finish_53 by lia.
    repeat split; try lia; change (2 ^ (- 0)) with 1; lia.
  - assert (Hd : Zpos d = 53 - Zpos (digits2_pos p)) by lia.
    assert (Hmz : 2 ^ 52 <= Zpos (Pos.iter xO p d) < 2 ^ 53).
    { rewrite iter_xO_mul.
      assert (0 < 2 ^ Zpos d) by (apply Z.pow_pos_nonneg; lia).
      assert (H52 : 2 ^ (Zpos (digits2_pos p) - 1) * 2 ^ Zpos d = 2 ^ 52).
      { rewrite <- Z.pow_add_r by lia. f_equal. lia. }
      assert (H53 : 2 ^ Zpos (digits2_pos p) * 2 ^ Zpos d = 2 ^ 53).
      { rewrite <- Z.pow_add_r by lia. f_equal. lia. }
      nia. }
    exists (Pos.iter xO p d), (Zpos (digits2_pos p) - 53).
    rewrite binary_round_aux_finish. unfold shr_fexp.
    rewrite (Zdigits2_eq (Zpos (Pos.iter xO p d)) 53) by (change (53 - 1) with 52; lia).
    replace (fexp prec emax (53 + (Zpos (digits2_pos p) - 53)) - (Zpos (digits2_pos p) - 53))
      with 0 by (unfold fexp, SpecFloat.emin, prec, emax; lia).
    cbn [shr shr_record_of_loc shr_m loc_of_shr_record round_nearest_even].
    rewrite finish_53 by lia.
    repeat split; try lia; rewrite iter_xO_mul; f_equal; f_equal; lia.
Qed.

(** Rounding a product of two 53-bit mantissas loses less than 2^53 units
    of the product's last place. *)
Lemma round_product_lower (m e : Z) :
  2 ^ 104 <= m < 2 ^ 106 -> -104 <= e <= 0 ->
  exists m'' e'',
    binary_round_aux prec emax false m e loc_Exact = S754_finite false m'' e'' /\
    e <= e'' /\ m - 2 ^ 53 < Zpos m'' * 2 ^ (e'' - e).
Proof.
  intros Hm He.
  destruct m as [|q|q]; try lia.
  pose proof (digits2_pos_gt q) as Hgt. pose proof (digits2_pos_le q) as Hle.
  set (D := Zpos (digits2_pos q)) in *.
  assert (HD : 105 <= D <= 106).
  { split.
    - destruct (Z_le_gt_dec 105 D) as [|Hlt]; [assumption|].
      assert (2 ^ D <= 2 ^ 104) by (apply Z.pow_le_mono_r; lia). lia.
    - apply (Zdigits2_bound (Zpos q) 106); lia. }
  rewrite binary_round_aux_finish. unfold shr_fexp. cbn [Zdigits2]. fold D.
  replace (fexp prec emax (D + e) - e) with (D - 53)
    by (unfold fexp, SpecFloat.emin, prec, emax; lia).
  destruct (D - 53) as [|sp|sp] eqn:Es; try lia.
  cbn [shr shr_record_of_loc].
  set (mrs' := SpecFloat.iter_pos shr_1 sp
                 {| shr_m := Zpos q; shr_r := false; shr_s := false |}).
  assert (Hm1 : shr_m mrs' = Zpos q / 2 ^ Zpos sp).
  { unfold mrs'. rewrite iter_shr_1_div; cbn [shr_m]; [reflexivity|lia]. }
  assert (Hpos : 0 < 2 ^ Zpos sp) by (apply Z.pow_pos_nonneg; lia).
  assert (H52 : 2 ^ Zpos sp * 2 ^ 52 = 2 ^ (D - 1)).
  { rewrite <- Z.pow_add_r by lia. f_equal. lia. }
  assert (H53 : 2 ^ Zpos sp * 2 ^ 53 = 2 ^ D).
  { rewrite <- Z.pow_add_r by lia. f_equal. lia. }
  assert (Hsp : 2 ^ Zpos sp <= 2 ^ 53) by (apply Z.pow_le_mono_r; lia).
  assert (Hlo : 2 ^ 52 <= shr_m mrs').
  { rewrite Hm1. apply Z.div_le_lower_bound; lia. }
  assert (Hhi : shr_m mrs' < 2 ^ 53).
  { rewrite Hm1. apply Z.div_lt_upper_bound; lia. }
  assert (Hfloor : Zpos q < 2 ^ Zpos sp * (shr_m mrs' + 1)).
  { rewrite Hm1. pose proof (Z.mul_succ_div_gt (Zpos q) (2 ^ Zpos sp) Hpos). lia. }
  pose proof (round_nearest_even_ge (shr_m mrs') (loc_of_shr_record mrs')) as Hge.
  pose proof (round_nearest_even_bound (shr_m mrs') (loc_of_shr_record mrs') ltac:(lia))
    as [_ Hle1].
  set (m1 := round_nearest_even (shr_m mrs') (loc_of_shr_record mrs')) in *.
  destruct (Z_lt_ge_dec m1 (2 ^ 53)) as [Hlt|Hge53].
  - destruct m1 as [|q1|q1] eqn:Em1; try lia.
    rewrite finish_53 by lia.
    exists q1, (e + Zpos sp). split; [reflexivity|]. split; [lia|].
    replace (e + Zpos sp - e) with (Zpos sp) by lia. nia.
  - assert (Heq : m1 = 2 ^ 53) by lia. rewrite Heq.
    rewrite finish_54 by lia.
    exists (2 ^ 52)%positive, (e + Zpos sp + 1). split; [reflexivity|]. split; [lia|].
    replace (e + Zpos sp + 1 - e) with (Zpos sp + 1) by lia.
    rewrite Z.pow_add_r by lia. change (2 ^ 1) with 2.
    change (Zpos (2 ^ 52)) with (2 ^ 52). nia.
Qed.

(** The ceiling of [m * 2^e] is at least [n] when [m * 2^e] is. *)
Lemma ceil_scaled_ge (n m e k : Z) :
  0 < m -> 0 <= k -> 0 <= k + e -> n * 2 ^ k <= m * 2 ^ (k + e) -> n <= ceil_scaled m e.
Proof.
  intros Hm Hk Hke H. unfold ceil_scaled.
  assert (Hk2 : 0 < 2 ^ k) by (apply Z.pow_pos_nonneg; lia).
  destruct e as [|pe|pe].
  - rewrite Z.add_0_r in H. change (2 ^ 0) with 1. nia.
  - rewrite Z.pow_add_r in H by lia.
    assert (0 < 2 ^ Zpos pe) by (apply Z.pow_pos_nonneg; lia). nia.
  - assert (Hpe : 0 < 2 ^ Zpos pe) by (apply Z.pow_pos_nonneg; lia).
    assert (Hsplit : 2 ^ k = 2 ^ Zpos pe * 2 ^ (k + Zneg pe)).
    { rewrite <- Z.pow_add_r by lia. f_equal. lia. }
    assert (Hk3 : 0 < 2 ^ (k + Zneg pe)) by (apply Z.pow_pos_nonneg; lia).
    assert (Hnm : n * 2 ^ Zpos pe <= m) by nia.
    assert ((- m) / 2 ^ Zpos pe <= - n); [|lia].
    apply Z.div_le_upper_bound; [assumption|]. lia.
Qed.

(** [math.ceil(n * 1.1)] in double precision is at least [n]. *)
Lemma ceil_mul_ge (n y : Z) :
  0 <= n < 2 ^ 53 -> math_ceil (mul (of_int n) lit_1_1) = inr y -> n <= y.
Proof.
  intros Hn. destruct (Z.eq_dec n 0) as [->|Hn0].
  { cbn. intros [= <-]. lia. }
  destruct (of_int_exact n ltac:(lia)) as (mz & ez & -> & Hmz & Hez & Hrange).
  unfold mul, lit_1_1. cbn [SFmul xorb].
  destruct (round_product_lower (Zpos (mz * 4953959590107546)) (ez + -52))
    as (m'' & e'' & -> & He'' & Hlow); [rewrite Pos2Z.inj_mul; lia|lia|].
  cbn [math_ceil cond_Zopp ret]. intros [= <-].
  apply (ceil_scaled_ge n (Zpos m'') e'' (52 - ez)); try lia.
  replace (52 - ez + e'') with (e'' - (ez + -52)) by lia.
  rewrite Pos2Z.inj_mul in Hlow.
  replace (52 - ez) with (- ez + 52) by lia. rewrite Z.pow_add_r by lia.
  rewrite Z.mul_assoc, <- Hmz. lia.
Qed.

End F64Facts.

(** ** Facts about the length table *)

Module SchemaFacts.
Import Schema.

Lemma nanmax_comm (a b : option Z) : nanmax a b = nanmax b a.
Proof. destruct a, b; cbn; f_equal; lia. Qed.

Lemma nanmax_assoc (a b c : option Z) : nanmax a (nanmax b c) = nanmax (nanmax a b) c.
Proof. destruct a, b, c; cbn; f_equal; lia. Qed.

Lemma lookup_foldr_union_with (F : option Z -> option Z -> option (option Z))
    (rows : list (gmap string (option Z))) (base : gmap string (option Z)) (k : string) :
  foldr (fun r acc => union_with F r acc) base rows !! k =
  foldr (fun r acc => union_with F (r !! k) acc) (base !! k) rows.
Proof.
  induction rows as [|r rows IH]; [reflexivity|].
  cbn [foldr]. now rewrite lookup_union_with, IH.
Qed.

Lemma lookup_df_max (recs : list (gmap string (option Z))) (k : string) :
  dropna (df_max (from_records recs)) !! k = col_max k recs.
Proof.
  unfold dropna, df_max, from_records; cbn [df_columns df_rows].
  rewrite lookup_omap, lookup_foldr_union_with.
  set (cols := ⋃ (dom <$> recs)).
  destruct (decide (k ∈ cols)) as [Hin|Hout].
  - assert (HG : gset_to_gmap (None : option Z) cols !! k = Some None).
    { apply lookup_gset_to_gmap_Some. auto. }
    rewrite HG. clearbody cols.
    enough (foldr (fun r acc => union_with (fun a b => Some (nanmax a b)) (r !! k) acc)
              (Some None)
              ((fun r : gmap string (option Z) => r ∪ gset_to_gmap None cols) <$> recs)
            = Some (col_max k recs)) as -> by reflexivity.
    induction recs as [|r recs IH]; [reflexivity|].
    rewrite fmap_cons. cbn [foldr col_max]. fold (col_max k recs).
    rewrite IH, lookup_union, HG.
    destruct (r !! k) as [c|]; reflexivity.
  - assert (HG : gset_to_gmap (None : option Z) cols !! k = None).
    { apply lookup_gset_to_gmap_None. auto. }
    rewrite HG.
    assert (Hnone : forall r, r ∈ recs -> r !! k = None).
    { intros r Hr. apply not_elem_of_dom. intros Hk. apply Hout.
      apply elem_of_union_list. exists (dom r). split; [|assumption].
      apply list_elem_of_fmap. eauto. }
    clearbody cols. clear Hout.
    enough (foldr (fun r acc => union_with (fun a b => Some (nanmax a b)) (r !! k) acc)
              None
              ((fun r : gmap string (option Z) => r ∪ gset_to_gmap None cols) <$> recs)
            = None /\ col_max k recs = None) as [-> ->] by reflexivity.
    induction recs as [|r recs IH]; [split; reflexivity|].
    rewrite fmap_cons. cbn [foldr col_max]. fold (col_max k recs).
    destruct IH as [IH1 IH2].
    { intros r' Hr'. apply Hnone. now right. }
    rewrite IH1, IH2, lookup_union, HG, (Hnone r) by now left.
    split; reflexivity.
Qed.

Lemma col_max_dict_lst (k : string) (attrs : list (gmap string PyVal)) :
  col_max k (dict_lst attrs) =
  foldr (fun a acc => nanmax (a !! k ≫= len_or_none) acc) None attrs.
Proof.
  unfold dict_lst. induction attrs as [|a attrs IH]; [reflexivity|].
  rewrite fmap_cons. unfold col_max in *. cbn [foldr].
  rewrite IH, lookup_fmap.
  destruct (a !! k); reflexivity.
Qed.

Lemma col_max_observed (k : string) (attrs : list (gmap string PyVal)) :
  col_max k (dict_lst attrs) =
  foldr (fun x acc => nanmax (Some x) acc) None (observed k attrs).
Proof.
  rewrite col_max_dict_lst. unfold observed.
  induction attrs as [|a attrs IH]; [reflexivity|].
  cbn [foldr omap list_omap]. rewrite IH.
  destruct (a !! k ≫= len_or_none); reflexivity.
Qed.

Lemma list_max_nil (l : list Z) :
  foldr (fun x acc => nanmax (Some x) acc) None l = None <-> l = [].
Proof.
  destruct l as [|x l]; [tauto|]. cbn [foldr].
  destruct (foldr _ None l); cbn; split; discriminate.
Qed.

Lemma list_max_is_max (l : list Z) (m : Z) :
  foldr (fun x acc => nanmax (Some x) acc) None l = Some m <-> is_max m l.
Proof.
  revert m. induction l as [|x l IH]; intros m; cbn [foldr].
  - split; [discriminate|]. intros [H _]. now apply elem_of_nil in H.
  - destruct (foldr (fun x acc => nanmax (Some x) acc) None l) as [m'|] eqn:E; cbn [nanmax].
    + pose proof (proj1 (IH m') eq_refl) as [Hin Hle].
      split.
      * intros [= <-]. split.
        -- destruct (Z.max_spec x m') as [[_ ->]|[_ ->]]; [now right|now left].
        -- intros y [->|Hy]%elem_of_cons; [lia|]. specialize (Hle y Hy). lia.
      * intros [Hm Hall]. f_equal.
        assert (x <= m)%Z by (apply Hall; now left).
        assert (m' <= m)%Z by (apply Hall; now right).
        apply elem_of_cons in Hm as [->|Hm]; [lia|].
        specialize (Hle m Hm). lia.
    + apply list_max_nil in E. subst l. split.
      * intros [= <-]. split; [now left|].
        intros y [->|Hy]%elem_of_cons; [lia|]. now apply elem_of_nil in Hy.
      * intros [Hm _]. apply elem_of_cons in Hm as [->|Hm]; [reflexivity|].
        now apply elem_of_nil in Hm.
Qed.

Lemma mapM_total {A B} (f : A -> result B) (g : A -> B) (l : list A) :
  (forall a, a ∈ l -> f a = inr (g a)) -> mapM f l = inr (g <$> l).
Proof.
  induction l as [|a l IH]; intros H; [reflexivity|].
  cbn [mapM]. rewrite (H a) by now left.
  rewrite IH by (intros a' Ha'; apply H; now right). reflexivity.
Qed.

Lemma series_apply_total (f : Z -> result Z) (g : Z -> Z) (s : gmap string Z) :
  (forall k v, s !! k = Some v -> f v = inr (g v)) ->
  series_apply f s = inr (g <$> s).
Proof.
  intros H. unfold series_apply.
  rewrite (mapM_total _ (prod_map id g)).
  - cbn [bind ret]. now rewrite list_to_map_fmap, list_to_map_to_list.
  - intros [k v] Hkv. apply elem_of_map_to_list in Hkv.
    cbn [fst snd]. now rewrite (H k v Hkv).
Qed.

Lemma headroom_total (v : Z) : (0 <= v < 2 ^ 63)%Z -> headroom v = inr (headroom_val v).
Proof.
  intros Hv. unfold headroom_val.
  destruct (F64Facts.ceil_mul_total v Hv) as [y Hy].
  unfold headroom. now rewrite Hy.
Qed.

Lemma observed_range (bound : Z) (fld : string) (attrs : list (gmap string PyVal)) :
  Forall (lengths_below bound) attrs ->
  forall x, x ∈ observed fld attrs -> (0 <= x < bound)%Z.
Proof.
  intros H x Hx. unfold observed in Hx.
  apply list_elem_of_omap in Hx as (a & Ha & Hx).
  rewrite Forall_forall in H. specialize (H a Ha).
  destruct (a !! fld) as [v|] eqn:E; [|discriminate].
  specialize (H fld v E). change (len_or_none v = Some x) in Hx.
  cbn beta in H. rewrite Hx in H.
  split; [|assumption].
  destruct v; try discriminate. cbn in Hx. injection Hx as <-. unfold str_len. lia.
Qed.

Lemma col_max_permutation (k : string) (attrs attrs' : list (gmap string PyVal)) :
  Permutation attrs attrs' -> col_max k (dict_lst attrs) = col_max k (dict_lst attrs').
Proof.
  rewrite !col_max_dict_lst.
  induction 1 as [|a l l' _ IH|a b l|l l' l'' _ IH1 _ IH2]; cbn [foldr].
  - reflexivity.
  - now rewrite IH.
  - rewrite !nanmax_assoc. f_equal. apply nanmax_comm.
  - now rewrite IH1.
Qed.

Lemma lookup_table (attrs : list (gmap string PyVal)) (fld : string) :
  dropna (df_max (from_records (dict_lst attrs))) !! fld =
  foldr (fun x acc => nanmax (Some x) acc) None (observed fld attrs).
Proof. now rewrite lookup_df_max, col_max_observed. Qed.

(** What [headroom] gives on two lengths where the product is a whole number
    in exact arithmetic: the double product of 20 and 1.1 is 22, the one of 50
    and 1.1 is just above 55. *)
Example headroom_20 : headroom 20 = inr 22%Z.
Proof. vm_compute. reflexivity. Qed.

Example headroom_50 : headroom 50 = inr 56%Z /\ ((50 * 11 + 9) / 10 = 55)%Z.
Proof. split; vm_compute; reflexivity. Qed.

Example headroom_0 : headroom 0 = inr 0%Z.
Proof. vm_compute. reflexivity. Qed.

(** The table as a map over the column maxima. *)
Lemma len_dict_returns (attrs : list (gmap string PyVal)) :
  Forall (lengths_below (2 ^ 53)) attrs ->
  len_dict attrs
  = inr (headroom_val <$> dropna (df_max (from_records (dict_lst attrs)))) /\
  forall fld m, is_max m (observed fld attrs) ->
    (0 <= m < 2 ^ 53)%Z /\ headroom m = inr (headroom_val m).
Proof.
  intros Hlen.
  assert (Hobs : forall fld m, is_max m (observed fld attrs) ->
            (0 <= m < 2 ^ 53)%Z /\ headroom m = inr (headroom_val m)).
  { intros fld m [Hin _].
    pose proof (observed_range _ fld attrs Hlen m Hin) as Hr.
    split; [exact Hr|]. apply headroom_total. lia. }
  split; [|exact Hobs].
  unfold len_dict. apply series_apply_total.
  intros k v Hkv. rewrite lookup_table in Hkv.
  apply list_max_is_max in Hkv. now apply (Hobs k).
Qed.

(** C1 (as amended): for a collection whose strings are shorter than 2^53
    characters, [len_dict] returns a table that has no entry for a field with
    no string value, and for any other field holds [math.ceil(m * 1.1)],
    the product taken in double precision, where [m] is the maximum length of
    the field's string values over the whole collection; that is 22 for a
    maximum of 20, and 0 (no minimum of 1) for a field whose strings are all
    empty. *)
Theorem len_dict_headroom_of_max (attrs : list (gmap string PyVal)) :
  Forall (lengths_below (2 ^ 53)) attrs ->
  exists d, len_dict attrs = inr d /\
    forall fld,
      (observed fld attrs = [] -> d !! fld = None) /\
      (forall m, is_max m (observed fld attrs) ->
         exists y, headroom m = inr y /\ d !! fld = Some y) /\
      (is_max 20 (observed fld attrs) -> d !! fld = Some 22%Z) /\
      (is_max 0 (observed fld attrs) -> d !! fld = Some 0%Z).
Proof.
  intros Hlen. destruct (len_dict_returns attrs Hlen) as [Hd Hobs].
  eexists. split; [exact Hd|].
  intros fld.
  assert (Hmax : forall m, is_max m (observed fld attrs) ->
            headroom m = inr (headroom_val m) /\
            (headroom_val <$> dropna (df_max (from_records (dict_lst attrs)))) !! fld
            = Some (headroom_val m)).
  { intros m Hm. split; [now apply (Hobs fld)|].
    apply list_max_is_max in Hm. rewrite <- lookup_table in Hm.
    now rewrite lookup_fmap, Hm. }
  repeat split.
  - intros Hnil. rewrite lookup_fmap, lookup_table, Hnil. reflexivity.
  - intros m Hm. exists (headroom_val m). now apply Hmax.
  - intros Hm. destruct (Hmax _ Hm) as [Hh ->]. rewrite headroom_20 in Hh. congruence.
  - intros Hm. destruct (Hmax _ Hm) as [Hh ->]. rewrite headroom_0 in Hh. congruence.
Qed.

(** The derived length covers the field: for a collection whose strings are
    shorter than 2^53 characters, the length the table holds for a field is
    not below the length of any string value of that field. *)
Theorem len_dict_covers_longest (attrs : list (gmap string PyVal)) :
  Forall (lengths_below (2 ^ 53)) attrs ->
  exists d, len_dict attrs = inr d /\
    forall fld y x, d !! fld = Some y -> x ∈ observed fld attrs -> (x <= y)%Z.
Proof.
  intros Hlen. destruct (len_dict_returns attrs Hlen) as [Hd Hobs].
  eexists. split; [exact Hd|].
  intros fld y x Hy Hx. rewrite lookup_fmap, lookup_table in Hy.
  destruct (foldr _ None (observed fld attrs)) as [m|] eqn:Em; [|discriminate].
  apply list_max_is_max in Em. injection Hy as <-.
  destruct (Hobs fld m Em) as [Hr Hh].
  destruct Em as [_ Hall]. specialize (Hall x Hx).
  pose proof (F64Facts.ceil_mul_ge m (headroom_val m) Hr Hh). lia.
Qed.

(** C8: the length table does not depend on the order of the reaches. *)
Theorem len_dict_permutation (attrs attrs' : list (gmap string PyVal)) :
  Permutation attrs attrs' -> len_dict attrs = len_dict attrs'.
Proof.
  intros Hp. unfold len_dict. f_equal.
  apply map_eq. intros k. rewrite !lookup_df_max. now apply col_max_permutation.
Qed.

(** Two reaches whose [section] values are 8 and 20 characters long. *)
Definition reach_a : gmap string PyVal := {[ "section" := PStr "Big Bend" ]}.
Definition reach_b : gmap string PyVal := {[ "section" := PStr "Upper Gorge to Ferry" ]}.

Lemma lengths_below_singleton (bound : Z) (k s : string) :
  (str_len s < bound)%Z -> lengths_below bound {[ k := PStr s ]}.
Proof. intros H. apply map_Forall_singleton. exact H. Qed.

Lemma len_dict_headroom_of_max_witness :
  Forall (lengths_below (2 ^ 53)) [reach_a; reach_b] /\
  exists d, len_dict [reach_a; reach_b] = inr d /\ d !! "section" = Some 22%Z.
Proof.
  assert (H : Forall (lengths_below (2 ^ 53)) [reach_a; reach_b]).
  { repeat constructor; apply lengths_below_singleton; vm_compute; reflexivity. }
  split; [exact H|].
  destruct (len_dict_headroom_of_max [reach_a; reach_b] H) as (d & Hd & Hall).
  exists d. split; [exact Hd|].
  apply (Hall "section").
  change (observed "section" [reach_a; reach_b]) with [8; 20]%Z. split.
  - right. left.
  - intros x Hx.
    apply elem_of_cons in Hx as [->|Hx]; [lia|].
    apply elem_of_cons in Hx as [->|Hx]; [lia|].
    now apply elem_of_nil in Hx.
Defined.

(** C1, the claim as written fails: a field whose only string value is empty
    gets the length 0, which is less than 1; and a field whose longest value
    has 50 characters gets 56, the ceiling of the double product, where the
    ceiling of 50 * 11 / 10 is 55. *)
Lemma len_dict_no_minimum :
  (exists d, len_dict [ {[ "section" := PStr "" ]} ] = inr d /\
             d !! "section" = Some 0%Z /\ ~ (1 <= 0)%Z) /\
  (exists d,
     len_dict [ {[ "section" := PStr "Lower canyon from the old mill dam to Ferry Bridge" ]} ]
     = inr d /\
     d !! "section" = Some 56%Z /\ (- ((- (50 * 11)) / 10) = 55)%Z).
Proof.
  split.
  - eexists. split; [vm_compute; reflexivity|].
    split; [vm_compute; reflexivity|lia].
  - eexists. split; [vm_compute; reflexivity|].
    split; vm_compute; reflexivity.
Qed.

Lemma len_dict_covers_longest_witness :
  Forall (lengths_below (2 ^ 53)) [reach_a; reach_b] /\
  exists d, len_dict [reach_a; reach_b] = inr d /\
    forall y, d !! "section" = Some y -> (20 <= y)%Z.
Proof.
  assert (H : Forall (lengths_below (2 ^ 53)) [reach_a; reach_b]).
  { repeat constructor; apply lengths_below_singleton; vm_compute; reflexivity. }
  split; [exact H|].
  destruct (len_dict_covers_longest [reach_a; reach_b] H) as (d & Hd & Hall).
  exists d. split; [exact Hd|].
  intros y Hy. apply (Hall "section" y 20%Z Hy).
  change (observed "section" [reach_a; reach_b]) with [8; 20]%Z. right. left.
Defined.

Lemma len_dict_permutation_witness :
  Permutation [reach_a; reach_b] [reach_b; reach_a] /\
  len_dict [reach_a; reach_b] = len_dict [reach_b; reach_a].
Proof.
  assert (H : Permutation [reach_a; reach_b] [reach_b; reach_a]) by apply perm_swap.
  split; [exact H|]. exact (len_dict_permutation _ _ H).
Defined.

(** *** The field list *)

Lemma add_fld_meta_inv (ld : gmap string Z) (fld fld' : gmap string PyVal)
    (nullable editable : bool) :
  add_fld_meta ld fld nullable editable = inr fld' ->
  fld' = fld \/ exists n, fld' = <["length" := PInt n]> fld.
Proof.
  unfold add_fld_meta, getitem.
  destruct (fld !! "name") as [v|]; cbn; [|discriminate].
  destruct (len_dict_get ld v) as [e|[n|]]; cbn; try discriminate.
  - intros [= <-]. right. eauto.
  - intros [= <-]. now left.
Qed.

Lemma add_fld_meta_other_keys (ld : gmap string Z) (fld fld' : gmap string PyVal)
    (nullable editable : bool) (k : string) :
  add_fld_meta ld fld nullable editable = inr fld' ->
  k <> "length" -> fld' !! k = fld !! k.
Proof.
  intros H Hk. apply add_fld_meta_inv in H as [->|[n ->]]; [reflexivity|].
  now rewrite lookup_insert_ne.
Qed.

Lemma add_fld_meta_named (ld : gmap string Z) (fld : gmap string PyVal)
    (nullable editable : bool) (name : string) :
  fld !! "name" = Some (PStr name) ->
  add_fld_meta ld fld nullable editable =
  inr (match ld !! name with
       | Some n => <["length" := PInt n]> fld
       | None => fld
       end).
Proof.
  intros Hname. unfold add_fld_meta, getitem. rewrite Hname. cbn.
  now destruct (ld !! name).
Qed.

(** C9: on a field description with a string name, [add_fld_meta] returns;
    what it returns agrees with the description on every key other than
    ["length"]; it is the description itself when the table has no length for
    the name, and the description with ["length"] set to the table's length
    otherwise. *)
Theorem add_fld_meta_frame (ld : gmap string Z) (fld : gmap string PyVal)
    (nullable editable : bool) (name : string) :
  fld !! "name" = Some (PStr name) ->
  exists fld', add_fld_meta ld fld nullable editable = inr fld' /\
    (forall k, k <> "length" -> fld' !! k = fld !! k) /\
    (ld !! name = None -> fld' = fld) /\
    (forall n, ld !! name = Some n -> fld' = <["length" := PInt n]> fld).
Proof.
  intros Hname. rewrite (add_fld_meta_named _ _ _ _ _ Hname).
  destruct (ld !! name) as [n|] eqn:E.
  - exists (<["length" := PInt n]> fld). repeat split.
    + intros k Hk. now rewrite lookup_insert_ne.
    + discriminate.
    + now intros ? [= <-].
  - exists fld. repeat split; [discriminate..].
Qed.

Lemma add_fld_meta_frame_witness :
  ({[ "name" := PStr "section"; "type" := PStr "esriFieldTypeString" ]} : gmap string PyVal)
    !! "name" = Some (PStr "section") /\
  exists fld',
    add_fld_meta {[ "section" := 22%Z ]}
      {[ "name" := PStr "section"; "type" := PStr "esriFieldTypeString" ]} true true
    = inr fld' /\
    fld' !! "type" = Some (PStr "esriFieldTypeString") /\
    fld' !! "length" = Some (PInt 22).
Proof.
  assert (H : ({[ "name" := PStr "section"; "type" := PStr "esriFieldTypeString" ]}
                 : gmap string PyVal) !! "name" = Some (PStr "section")) by reflexivity.
  split; [exact H|].
  destruct (add_fld_meta_frame {[ "section" := 22%Z ]} _ true true _ H)
    as (fld' & Hr & Hframe & _ & Hset).
  exists fld'. split; [exact Hr|]. split.
  - rewrite Hframe by discriminate. reflexivity.
  - rewrite (Hset 22%Z) by reflexivity. reflexivity.
Defined.

Lemma has_oid_type_add_fld_meta (ld : gmap string Z) (fld fld' : gmap string PyVal)
    (nullable editable : bool) :
  add_fld_meta ld fld nullable editable = inr fld' ->
  has_oid_type fld' = has_oid_type fld.
Proof.
  intros H. unfold has_oid_type.
  now rewrite (add_fld_meta_other_keys _ _ _ _ _ "type" H) by discriminate.
Qed.


(** The source fields the comprehension keeps: those not typed as the row
    identifier. *)
Definition survives (fld : gmap string PyVal) : bool := negb (has_oid_type fld).


Lemma fields_comprehension_kept (ld : gmap string Z) (P : gmap string PyVal -> bool)
    (fs kept : list (gmap string PyVal)) :
  (forall fld fld', add_fld_meta ld fld true true = inr fld' -> P fld' = P fld) ->
  fields_comprehension ld fs = inr kept ->
  Forall (fun f => has_oid_type f = false) kept /\
  length (List.filter P kept) = length (List.filter (fun f => P f && survives f) fs).
Proof.
  intros HP. revert kept. induction fs as [|fld fs IH]; intros kept.
  - intros [= <-]. split; [constructor|reflexivity].
  - cbn [fields_comprehension]. unfold getitem at 1, survives, has_oid_type at 2.
    cbn [List.filter].
    destruct (fld !! "type") as [ty|] eqn:Ety; cbn [bind ret]; [|discriminate].
    destruct (is_oid_type ty) eqn:Eoid.
    + intros H. rewrite andb_false_r. now apply IH.
    + destruct (add_fld_meta ld fld true true) as [e|fld'] eqn:Eadd; cbn [bind]; [discriminate|].
      destruct (fields_comprehension ld fs) as [e|rest] eqn:Erest; cbn [bind ret]; [discriminate|].
      intros [= <-]. destruct (IH rest eq_refl) as [IH1 IH2]. split.
      * constructor; [|exact IH1].
        rewrite (has_oid_type_add_fld_meta _ _ _ _ _ Eadd).
        unfold has_oid_type. now rewrite Ety.
      * cbn [List.filter negb]. rewrite andb_true_r, (HP _ _ Eadd).
        destruct (P fld); cbn [length]; now rewrite IH2.
Qed.

Lemma filter_app_length {A} (P : A -> bool) (l1 l2 : list A) :
  length (List.filter P (l1 ++ l2)) = length (List.filter P l1) + length (List.filter P l2).
Proof. now rewrite List.filter_app, length_app. Qed.

Lemma filter_all_false {A} (P : A -> bool) (l : list A) :
  Forall (fun a => P a = false) l -> List.filter P l = [].
Proof.
  induction 1 as [|a l Ha _ IH]; [reflexivity|]. cbn [List.filter]. now rewrite Ha.
Qed.


(** Source fields: a string attribute, and the row identifier the package
    inferred. *)
Definition src_section : gmap string PyVal :=
  {[ "name" := PStr "section"; "type" := PStr "esriFieldTypeString" ]}.
Definition src_oid : gmap string PyVal :=
  {[ "name" := PStr "OBJECTID"; "type" := PStr "esriFieldTypeOID" ]}.




End SchemaFacts.

(** ** Upload batches *)

Module UploadFacts.
Import Upload.

Section Chunks.
Context {A : Type}.
Implicit Types (l : list A) (c k i : nat).

(** The batches as slices of the list: [k] of them, [c] records apart. *)
Definition chunks_of l c k : list (list A) :=
  (fun i : nat => take c (drop (i * c) l)) <$> seq 0 k.

(** The number of batches, [ceil(n / c)] as [range] counts it. *)
Definition n_chunks (n : nat) (chunk_size : Z) : nat :=
  Z.to_nat ((Z.of_nat n + chunk_size - 1) / chunk_size).

Lemma n_chunks_ceil (n : nat) (chunk_size : Z) :
  (0 < chunk_size)%Z ->
  ((Z.of_nat (n_chunks n chunk_size) - 1) * chunk_size < Z.of_nat n
     <= Z.of_nat (n_chunks n chunk_size) * chunk_size)%Z.
Proof.
  intros Hc. unfold n_chunks.
  pose proof (Z.mul_div_le (Z.of_nat n + chunk_size - 1) chunk_size Hc) as H1.
  pose proof (Z.mul_succ_div_gt (Z.of_nat n + chunk_size - 1) chunk_size Hc) as H2.
  assert (0 <= (Z.of_nat n + chunk_size - 1) / chunk_size)%Z
    by (apply Z.div_pos; lia).
  rewrite Z2Nat.id by assumption. nia.
Qed.

Lemma py_slice_chunk l c i :
  0 < c -> i * c <= length l ->
  py_slice l (Z.of_nat i * Z.of_nat c) (Z.of_nat i * Z.of_nat c + Z.of_nat c)
  = take c (drop (i * c) l).
Proof.
  intros Hc Hi. unfold py_slice, clamp_index.
  destruct (Z.ltb_spec (Z.of_nat i * Z.of_nat c) 0) as [|_]; [lia|].
  destruct (Z.ltb_spec (Z.of_nat i * Z.of_nat c + Z.of_nat c) 0) as [|_]; [lia|].
  replace (Z.to_nat (Z.min (Z.of_nat i * Z.of_nat c) (Z.of_nat (length l))))
    with (i * c) by lia.
  destruct (Nat.le_gt_cases (i * c + c) (length l)) as [Hle|Hgt].
  - f_equal. lia.
  - rewrite (take_ge (drop (i * c) l) c) by (rewrite length_drop; lia).
    apply take_ge. rewrite length_drop. lia.
Qed.

Lemma upload_chunks_eq l (chunk_size : Z) :
  (0 < chunk_size)%Z ->
  upload_chunks l chunk_size =
  inr (chunks_of l (Z.to_nat chunk_size) (n_chunks (length l) chunk_size)).
Proof.
  intros Hc. unfold upload_chunks, py_range.
  destruct (decide (chunk_size = 0)%Z) as [|_]; [lia|].
  destruct (decide (0 < chunk_size)%Z) as [_|]; [|lia].
  cbn [bind ret]. f_equal. rewrite <- list_fmap_compose.
  apply list_fmap_ext. intros i j Hj. cbn [compose].
  apply lookup_seq in Hj as [Hj Hlt]. cbn [Nat.add] in Hj. subst j.
  pose proof (n_chunks_ceil (length l) chunk_size Hc) as [Hceil _].
  fold (n_chunks (length l) chunk_size) in Hlt.
  replace chunk_size with (Z.of_nat (Z.to_nat chunk_size)) at 1 2 3 by lia.
  apply py_slice_chunk; [lia|].
  assert (Z.of_nat i * chunk_size < Z.of_nat (length l))%Z by nia.
  nia.
Qed.

Lemma concat_chunks_of l c k : concat (chunks_of l c k) = take (k * c) l.
Proof.
  unfold chunks_of. induction k as [|k IH]; [reflexivity|].
  rewrite seq_S, fmap_app, concat_app, IH. cbn [fmap list_fmap concat Nat.add].
  rewrite app_nil_r, take_take_drop. f_equal. lia.
Qed.

Lemma lookup_chunks_of l c k i b :
  chunks_of l c k !! i = Some b <-> i < k /\ b = take c (drop (i * c) l).
Proof.
  unfold chunks_of. rewrite list_lookup_fmap. split.
  - destruct (seq 0 k !! i) as [j|] eqn:E; [|discriminate].
    apply lookup_seq in E as [-> Hlt]. intros [= <-]. auto.
  - intros [Hlt ->]. now rewrite lookup_seq_lt.
Qed.

Lemma length_chunk l c i :
  length (take c (drop (i * c) l)) = min c (length l - i * c).
Proof. now rewrite length_take, length_drop. Qed.

(** C4: for a positive [chunk_size], [upload_chunks] returns batches whose
    concatenation is the record list; batch [i] is the slice of [chunk_size]
    records that starts at record [i * chunk_size], so the batches are
    contiguous and in the original order; every batch before the last has
    exactly [chunk_size] records and the last has between 1 and [chunk_size];
    450 records in batches of 200 give batches of 200, 200 and 50. *)
Theorem upload_chunks_partition (records : list A) (chunk_size : Z) :
  (0 < chunk_size)%Z ->
  exists batches,
    upload_chunks records chunk_size = inr batches /\
    concat batches = records /\
    (forall i b, batches !! i = Some b ->
       b = take (Z.to_nat chunk_size) (drop (i * Z.to_nat chunk_size) records) /\
       0 < length b <= Z.to_nat chunk_size /\
       (S i < length batches -> length b = Z.to_nat chunk_size)) /\
    (length records = 450 -> chunk_size = 200%Z ->
       length <$> batches = [200; 200; 50]).
Proof.
  intros Hc.
  set (c := Z.to_nat chunk_size). set (k := n_chunks (length records) chunk_size).
  pose proof (n_chunks_ceil (length records) chunk_size Hc) as [Hlo Hhi]. fold k in Hlo, Hhi.
  exists (chunks_of records c k). split; [now apply upload_chunks_eq|].
  split; [|split].
  - rewrite concat_chunks_of. apply take_ge. unfold c. nia.
  - intros i b Hb. apply lookup_chunks_of in Hb as [Hi ->].
    split; [reflexivity|]. rewrite length_chunk.
    assert (i * c < length records) by (unfold c; nia).
    split; [lia|].
    unfold chunks_of. rewrite length_fmap, length_seq. intros Hlast.
    assert (S i * c < length records) by (unfold c; nia). lia.
  - intros Hlen ->. unfold k, n_chunks. rewrite Hlen.
    change (Z.to_nat ((Z.of_nat 450 + 200 - 1) / 200)) with 3.
    unfold chunks_of, c. cbn [seq fmap list_fmap].
    rewrite !length_chunk, Hlen. reflexivity.
Qed.

(** C10: for a positive [chunk_size], [upload_chunks] returns
    [ceil(n / chunk_size)] batches for [n] records, that is the number
    [(n + chunk_size - 1) // chunk_size], the least [k] with
    [n <= k * chunk_size]; no batch is empty, no records give no batches, and
    the batches concatenated in order are the record list. *)
Theorem upload_chunks_count (records : list A) (chunk_size : Z) :
  (0 < chunk_size)%Z ->
  exists batches,
    upload_chunks records chunk_size = inr batches /\
    Z.of_nat (length batches)
      = ((Z.of_nat (length records) + chunk_size - 1) / chunk_size)%Z /\
    ((Z.of_nat (length batches) - 1) * chunk_size < Z.of_nat (length records)
       <= Z.of_nat (length batches) * chunk_size)%Z /\
    Forall (fun b => b <> []) batches /\
    (records = [] -> batches = []) /\
    concat batches = records.
Proof.
  intros Hc.
  set (c := Z.to_nat chunk_size). set (k := n_chunks (length records) chunk_size).
  pose proof (n_chunks_ceil (length records) chunk_size Hc) as Hceil. fold k in Hceil.
  assert (Hk : length (chunks_of records c k) = k)
    by (unfold chunks_of; now rewrite length_fmap, length_seq).
  exists (chunks_of records c k). split; [now apply upload_chunks_eq|].
  rewrite Hk. split; [|split; [exact Hceil|split; [|split]]].
  - unfold k, n_chunks. rewrite Z2Nat.id; [reflexivity|]. apply Z.div_pos; lia.
  - apply Forall_lookup. intros i b Hb. apply lookup_chunks_of in Hb as [Hi ->].
    intros Hnil. apply (f_equal length) in Hnil. rewrite length_chunk in Hnil.
    cbn [length] in Hnil. assert (i * c < length records) by (unfold c; nia). lia.
  - intros ->. cbn [length] in *. apply nil_length_inv. rewrite Hk. nia.
  - rewrite concat_chunks_of. apply take_ge. unfold c. nia.
Qed.

End Chunks.

Lemma upload_chunks_partition_witness :
  (0 < 3)%Z /\
  exists batches,
    upload_chunks [10; 11; 12; 13; 14; 15; 16] 3 = inr batches /\
    concat batches = [10; 11; 12; 13; 14; 15; 16] /\
    batches !! 2 = Some [16].
Proof.
  assert (H : (0 < 3)%Z) by lia.
  split; [exact H|].
  destruct (upload_chunks_partition [10; 11; 12; 13; 14; 15; 16] 3 H)
    as (batches & Hb & Hcat & _).
  exists batches. split; [exact Hb|]. split; [exact Hcat|].
  vm_compute in Hb. injection Hb as <-. reflexivity.
Defined.

Lemma upload_chunks_count_witness :
  (0 < 200)%Z /\
  exists batches,
    upload_chunks (seq 0 450) 200 = inr batches /\ length batches = 3.
Proof.
  assert (H : (0 < 200)%Z) by lia.
  split; [exact H|].
  destruct (upload_chunks_count (seq 0 450) 200 H) as (batches & Hb & Hn & _).
  exists batches. split; [exact Hb|].
  rewrite length_seq in Hn. change ((Z.of_nat 450 + 200 - 1) / 200)%Z with 3%Z in Hn. lia.
Defined.

End UploadFacts.

(** ** The extraction cells *)

Module ProcureFacts.
Import Procure.
Local Open Scope stmt_scope.

(** The environment after the cell that binds the descriptive fields, for a
    document whose info block is the dictionary [d]. *)
Definition env_after_extract (doc : PyVal) (d : list (string * PyVal)) (env : Env) : Env :=
  <["description" := dict_get d "description_md"]>
    (<["name" := dict_get d "section"]>
       (<["river" := dict_get d "river"]>
          (<["reach_id" := dict_get d "id"]>
             (<["json_info" := PDict d]> (<["aw_json" := doc]> env))))).

Lemma py_get_error (o : PyVal) (k : string) (e : exn) :
  py_get o k = inl e -> e = AttributeError.
Proof. destruct o; cbn; unfold ret, raise; congruence. Qed.

Lemma info_of_error (doc : PyVal) (e : exn) : info_of doc = inl e -> e = AttributeError.
Proof.
  unfold info_of.
  destruct (py_get doc _) as [e1|view] eqn:E1; cbn [bind].
  { intros [= <-]. eapply py_get_error, E1. }
  destruct (py_get view _) as [e2|main] eqn:E2; cbn [bind].
  { intros [= <-]. eapply py_get_error, E2. }
  apply py_get_error.
Qed.

Lemma assign_var_get (x y k : string) (env : Env) (d : list (string * PyVal)) :
  env !! y = Some (PDict d) ->
  assign x (fun env => do j <- var y env; py_get j k) env
  = (<[x := dict_get d k]> env, None).
Proof. intros H. unfold assign, var. now rewrite H. Qed.

Lemma assign_var_get_error (x y k : string) (env : Env) (v : PyVal) :
  env !! y = Some v -> (forall d, v <> PDict d) ->
  assign x (fun env => do j <- var y env; py_get j k) env = (env, Some AttributeError).
Proof.
  intros H Hv. unfold assign, var. rewrite H. cbn.
  destruct v; try reflexivity. now destruct (Hv d).
Qed.

(** What the cell does, by the shape of the info block. *)
Lemma extract_spec (doc : PyVal) (env : Env) :
  extract doc env =
  match info_of doc with
  | inl e => (<["aw_json" := doc]> env, Some e)
  | inr (PDict d) => (env_after_extract doc d env, None)
  | inr info => (<["json_info" := info]> (<["aw_json" := doc]> env), Some AttributeError)
  end.
Proof.
  unfold extract, cell_load, cell_info, and_then.
  unfold assign at 1. cbn [ret].
  unfold assign at 1, var at 1. rewrite lookup_insert_eq. cbn [ret bind].
  destruct (info_of doc) as [e|info]; [reflexivity|].
  assert (Hj : forall env', (<["json_info" := info]> env' : Env) !! "json_info" = Some info)
    by (intros; apply lookup_insert_eq).
  destruct info as [| | | | | |d];
    try (rewrite (assign_var_get_error _ _ _ _ _ (Hj _)) by discriminate; reflexivity).
  rewrite (assign_var_get _ _ _ _ d (Hj _)).
  rewrite (assign_var_get _ "json_info" _ _ d)
    by (rewrite lookup_insert_ne by discriminate; apply Hj).
  rewrite (assign_var_get _ "json_info" _ _ d)
    by (rewrite !lookup_insert_ne by discriminate; apply Hj).
  rewrite (assign_var_get _ "json_info" _ _ d)
    by (rewrite !lookup_insert_ne by discriminate; apply Hj).
  reflexivity.
Qed.

Section Runs.
Variable Geometry : PyVal -> option PyVal.

(** The whole run, by the shape of the info block and the answer of the
    arcgis constructor. *)
Lemma normalize_spec (doc : PyVal) (env : Env) :
  normalize Geometry doc env =
  match info_of doc with
  | inl e => (<["aw_json" := doc]> env, Some e)
  | inr (PDict d) =>
      let env2 := <["geojson" := dict_get d "geom"]> (env_after_extract doc d env) in
      match Geometry (dict_get d "geom") with
      | Some g => (<["geometry" := g]> env2, None)
      | None => (env2, Some LibraryError)
      end
  | inr info => (<["json_info" := info]> (<["aw_json" := doc]> env), Some AttributeError)
  end.
Proof.
  unfold normalize. unfold and_then at 1. rewrite extract_spec.
  destruct (info_of doc) as [e|info]; [reflexivity|].
  destruct info as [| | | | | |d]; try reflexivity.
  unfold and_then, cell_geojson.
  rewrite (assign_var_get _ "json_info" _ _ d)
    by (unfold env_after_extract; rewrite !lookup_insert_ne by discriminate;
        apply lookup_insert_eq).
  unfold cell_geometry, assign, var. rewrite lookup_insert_eq. cbn [bind ret].
  destruct (Geometry (dict_get d "geom")); reflexivity.
Qed.

(** The only exceptions a run ends with. *)
Lemma normalize_errors (doc : PyVal) (env : Env) (e : exn) :
  snd (normalize Geometry doc env) = Some e -> e = AttributeError \/ e = LibraryError.
Proof.
  rewrite normalize_spec.
  destruct (info_of doc) as [e'|info] eqn:E.
  { cbn. intros [= <-]. left. eapply info_of_error, E. }
  destruct info as [| | | | | |d]; cbn; try (intros [= <-]; now left).
  destruct (Geometry (dict_get d "geom")); cbn; [discriminate|].
  intros [= <-]. now right.
Qed.

End Runs.

(** *** The attribute mapping *)

(** The descriptive fields read off the info block [d]. *)
Definition attributes_of (d : list (string * PyVal)) : gmap string PyVal :=
  <["description" := dict_get d "description_md"]>
    (<["name" := dict_get d "section"]>
       (<["river" := dict_get d "river"]>
          (<["reach_id" := dict_get d "id"]> ∅))).

Ltac name_in_list :=
  repeat first [ apply list_elem_of_here | apply list_elem_of_further ].

Ltac name_not_in_list H :=
  repeat (apply elem_of_cons in H as [H|H]; [discriminate H|]);
  now apply elem_of_nil in H.

Lemma attributes_insert_other (k : string) (v : PyVal) (env : Env) :
  k ∉ attribute_names -> attributes (<[k := v]> env) = attributes env.
Proof. intros Hk. unfold attributes. apply map_filter_insert_not. intros y. exact Hk. Qed.

Lemma attributes_insert_attr (k : string) (v : PyVal) (env : Env) :
  k ∈ attribute_names -> attributes (<[k := v]> env) = <[k := v]> (attributes env).
Proof. intros Hk. unfold attributes. apply map_filter_insert_True. exact Hk. Qed.

Lemma lookup_attributes_other (k : string) (env : Env) :
  k ∉ attribute_names -> attributes env !! k = None.
Proof.
  intros Hk. unfold attributes. apply map_lookup_filter_None. right.
  intros x _. exact Hk.
Qed.

Lemma attributes_after_extract (doc : PyVal) (d : list (string * PyVal)) (env : Env) :
  attributes (env_after_extract doc d env) = attributes_of d.
Proof.
  unfold env_after_extract, attributes_of.
  rewrite !attributes_insert_attr by name_in_list.
  rewrite !attributes_insert_other by (intros H; name_not_in_list H).
  apply map_eq. intros k.
  destruct (decide (k = "description")) as [->|H1]; [now rewrite !lookup_insert_eq|].
  rewrite !(lookup_insert_ne _ "description") by congruence.
  destruct (decide (k = "name")) as [->|H2]; [now rewrite !lookup_insert_eq|].
  rewrite !(lookup_insert_ne _ "name") by congruence.
  destruct (decide (k = "river")) as [->|H3]; [now rewrite !lookup_insert_eq|].
  rewrite !(lookup_insert_ne _ "river") by congruence.
  destruct (decide (k = "reach_id")) as [->|H4]; [now rewrite !lookup_insert_eq|].
  rewrite !(lookup_insert_ne _ "reach_id") by congruence.
  rewrite lookup_empty. apply lookup_attributes_other.
  intros H. repeat (apply elem_of_cons in H as [H|H]; [congruence|]).
  now apply elem_of_nil in H.
Qed.

Lemma dom_attributes_of (d : list (string * PyVal)) :
  dom (attributes_of d) = list_to_set attribute_names.
Proof.
  unfold attributes_of, attribute_names. rewrite !dom_insert_L, dom_empty_L.
  cbn [list_to_set]. set_solver.
Qed.

Lemma dict_get_absent (d : list (string * PyVal)) (k : string) :
  k ∉ d.*1 -> dict_get d k = PNone.
Proof.
  induction d as [|[k' v] d IH]; [reflexivity|].
  cbn [fmap list_fmap fst dict_get]. intros Hk.
  apply not_elem_of_cons in Hk as [Hne Hk].
  destruct (String.eqb_spec k k') as [|_]; [contradiction|]. now apply IH.
Qed.

Ltac lookup_inserted :=
  unfold env_after_extract;
  repeat first [ rewrite lookup_insert_eq | rewrite lookup_insert_ne by discriminate ];
  try reflexivity.

(** *** Sample documents *)

Definition geom_two_vertices : PyVal :=
  PDict [("type", PStr "LineString");
         ("coordinates", PList [PList [PInt (-105); PInt 39];
                                PList [PInt (-106); PInt 40]])].

(** Coordinates in metres of a projected grid. *)
Definition geom_projected : PyVal :=
  PDict [("type", PStr "LineString");
         ("coordinates", PList [PList [PInt 500000; PInt 4100000];
                                PList [PInt 500100; PInt 4100200]])].

(** A document around an info block. *)
Definition document (info : PyVal) : PyVal :=
  PDict [("CContainerViewJSON_view",
          PDict [("CRiverMainGadgetJSON_main", PDict [("info", info)])])].

Definition info_no_description : list (string * PyVal) :=
  [("id", PInt 42); ("river", PStr "Test River"); ("section", PStr "Lower Gorge");
   ("geom", geom_two_vertices)].

Definition info_no_id : list (string * PyVal) :=
  [("river", PStr "Test River"); ("section", PStr "Lower Gorge");
   ("geom", geom_two_vertices)].

Definition info_no_geom : list (string * PyVal) :=
  [("id", PInt 42); ("river", PStr "Test River"); ("section", PStr "Lower Gorge")].

Definition info_projected : list (string * PyVal) :=
  [("id", PInt 42); ("river", PStr "Test River"); ("section", PStr "Lower Gorge");
   ("geom", geom_projected)].

(** The document with identifier 42, river "Test River", section "Lower
    Gorge" and a line of two vertices: the run completes and binds the three
    values and the line, its vertices in the order of the document. *)
Example normalize_round_trip :
  let r := normalize (fun g => Some g) (document (PDict info_no_description)) ∅ in
  snd r = None /\
  fst r !! "reach_id" = Some (PInt 42) /\
  fst r !! "river" = Some (PStr "Test River") /\
  fst r !! "name" = Some (PStr "Lower Gorge") /\
  fst r !! "geojson" = Some geom_two_vertices /\
  dict_get [("type", PStr "LineString");
            ("coordinates", PList [PList [PInt (-105); PInt 39];
                                   PList [PInt (-106); PInt 40]])] "coordinates"
  = PList [PList [PInt (-105); PInt 39]; PList [PInt (-106); PInt 40]].
Proof. repeat split; vm_compute; reflexivity. Qed.

(** *** The claims *)


(** C5: when the info block is a dictionary the cell completes and binds all
    four descriptive fields, each to the value the block holds under its key;
    a key the block does not have gives [None], so the field is bound to
    [None] and not left out; the key set of the attribute mapping is the same
    four names for every document. *)
Theorem extract_binds_every_field (doc : PyVal) (d : list (string * PyVal)) (env : Env) :
  info_of doc = inr (PDict d) ->
  exists env',
    extract doc env = (env', None) /\
    attributes env' !! "reach_id" = Some (dict_get d "id") /\
    attributes env' !! "river" = Some (dict_get d "river") /\
    attributes env' !! "name" = Some (dict_get d "section") /\
    attributes env' !! "description" = Some (dict_get d "description_md") /\
    (forall k, k ∉ d.*1 -> dict_get d k = PNone) /\
    dom (attributes env') = list_to_set attribute_names /\
    (forall doc2 d2 env2,
       info_of doc2 = inr (PDict d2) ->
       dom (attributes (fst (extract doc2 env2))) = dom (attributes env')).
Proof.
  intros Hinfo. exists (env_after_extract doc d env).
  split; [rewrite extract_spec, Hinfo; reflexivity|].
  rewrite attributes_after_extract.
  do 4 (split; [unfold attributes_of; lookup_inserted|]).
  split; [apply dict_get_absent|].
  split; [apply dom_attributes_of|].
  intros doc2 d2 env2 H2. rewrite extract_spec, H2. cbn [fst].
  now rewrite attributes_after_extract, !dom_attributes_of.
Qed.

Lemma extract_binds_every_field_witness :
  info_of (document (PDict info_no_description)) = inr (PDict info_no_description) /\
  exists env',
    extract (document (PDict info_no_description)) ∅ = (env', None) /\
    attributes env' !! "river" = Some (PStr "Test River") /\
    attributes env' !! "description" = Some PNone.
Proof.
  assert (H : info_of (document (PDict info_no_description))
              = inr (PDict info_no_description)) by reflexivity.
  split; [exact H|].
  destruct (extract_binds_every_field _ _ ∅ H) as (env' & Hrun & _ & Hriver & _ & Hdesc & _).
  exists env'. split; [exact Hrun|]. split; [exact Hriver|exact Hdesc].
Defined.

(** C6 (as amended): no run ends with [MalformedSourceDocument].  When the
    info block cannot be reached or is not a dictionary, the cell raises
    [AttributeError], the run ends there, and the descriptive variables keep
    what they held before; when the info block is a dictionary the cell
    completes whatever keys the block has, with [reach_id] and [geojson] bound
    to the values under ["id"] and ["geom"], [None] for a key that is not
    there. *)
Theorem extract_failure (Geometry : PyVal -> option PyVal) (doc : PyVal) (env : Env) :
  snd (normalize Geometry doc env) <> Some MalformedSourceDocument /\
  match info_of doc with
  | inr (PDict d) =>
      snd (extract doc env) = None /\
      fst (extract doc env) !! "reach_id" = Some (dict_get d "id") /\
      fst (normalize Geometry doc env) !! "geojson" = Some (dict_get d "geom") /\
      (forall k, k ∉ d.*1 -> dict_get d k = PNone)
  | _ =>
      snd (extract doc env) = Some AttributeError /\
      snd (normalize Geometry doc env) = Some AttributeError /\
      attributes (fst (normalize Geometry doc env)) = attributes env
  end.
Proof.
  split.
  { intros H. apply normalize_errors in H as [H|H]; discriminate H. }
  rewrite normalize_spec, extract_spec.
  destruct (info_of doc) as [e|info] eqn:E.
  { apply info_of_error in E as ->. cbn [fst snd]. repeat split.
    apply attributes_insert_other. intros H. name_not_in_list H. }
  destruct info as [| | | | | |d];
    try (cbn [fst snd]; repeat split;
         rewrite !attributes_insert_other by (intros H; name_not_in_list H);
         reflexivity).
  cbn zeta. cbn [fst snd]. split; [reflexivity|]. split; [lookup_inserted|].
  split; [|apply dict_get_absent].
  destruct (Geometry (dict_get d "geom")); cbn [fst]; lookup_inserted.
Qed.

(** C6, the claim as written fails: a document without the identifier goes
    through the cell with no exception and leaves [reach_id] bound to
    [None]; a document without the geometry block goes through it as well,
    and no document, whatever it lacks, ends in [MalformedSourceDocument]; a
    document without the info block ends in [AttributeError]. *)
Lemma extract_accepts_missing_keys :
  (snd (extract (document (PDict info_no_id)) ∅) = None /\
   fst (extract (document (PDict info_no_id)) ∅) !! "reach_id" = Some PNone) /\
  (snd (extract (document (PDict info_no_geom)) ∅) = None /\
   forall Geometry env,
     snd (normalize Geometry (document (PDict info_no_geom)) env)
     <> Some MalformedSourceDocument) /\
  snd (extract (PDict []) ∅) = Some AttributeError.
Proof.
  split; [split; vm_compute; reflexivity|].
  split; [|vm_compute; reflexivity].
  split; [vm_compute; reflexivity|].
  intros G env H. apply normalize_errors in H as [H|H]; discriminate H.
Qed.

(** C7 (as amended): no run ends with [UnsupportedSpatialReference], and the
    coordinates are never looked at: when the info block is a dictionary the
    geometry block goes to the arcgis constructor as it is, the run completes
    when the constructor returns, with [geojson] bound to the block unchanged
    and [geometry] to what the constructor returned, and ends in the
    constructor's own exception otherwise; the layer definition is tagged
    wkid 4326 whatever the layer's name and fields. *)
Theorem normalize_no_reference_check (Geometry : PyVal -> option PyVal)
    (doc : PyVal) (env : Env) :
  snd (normalize Geometry doc env) <> Some UnsupportedSpatialReference /\
  match info_of doc with
  | inr (PDict d) =>
      match Geometry (dict_get d "geom") with
      | Some g =>
          snd (normalize Geometry doc env) = None /\
          fst (normalize Geometry doc env) !! "geojson" = Some (dict_get d "geom") /\
          fst (normalize Geometry doc env) !! "geometry" = Some g
      | None => snd (normalize Geometry doc env) = Some LibraryError
      end
  | _ => True
  end /\
  forall service_name flds,
    Schema.spatialReference (Schema.lyr_def service_name flds) = {[ "wkid" := PInt 4326 ]}.
Proof.
  split.
  { intros H. apply normalize_errors in H as [H|H]; discriminate H. }
  split; [|reflexivity].
  rewrite normalize_spec.
  destruct (info_of doc) as [e|info]; [exact I|].
  destruct info as [| | | | | |d]; try exact I.
  cbn zeta. destruct (Geometry (dict_get d "geom")); cbn [fst snd]; [|reflexivity].
  split; [reflexivity|]. split; lookup_inserted.
Qed.

(** C7, the claim as written fails: a line whose coordinates are metres on a
    projected grid, far outside the range of degrees, raises nothing; with a
    constructor that returns, the run completes, the block is bound as it
    came, and the layer is tagged wkid 4326. *)
Lemma normalize_accepts_projected_coordinates :
  geom_in_wgs84_range geom_projected = false /\
  (forall Geometry env,
     snd (normalize Geometry (document (PDict info_projected)) env)
     <> Some UnsupportedSpatialReference) /\
  snd (normalize (fun g => Some g) (document (PDict info_projected)) ∅) = None /\
  fst (normalize (fun g => Some g) (document (PDict info_projected)) ∅) !! "geojson"
  = Some geom_projected /\
  Schema.spatialReference (Schema.lyr_def "river_reaches" []) !! "wkid" = Some (PInt 4326).
Proof.
  split; [reflexivity|]. split.
  { intros G env H. apply normalize_errors in H as [H|H]; discriminate H. }
  repeat split; vm_compute; reflexivity.
Qed.

End ProcureFacts.

(** * The rest of the notebooks

    The cell of the procurement notebook that downloads the reaches (the file
    names, the list of reaches already downloaded, the loop and its counter
    of failures), the sorted listing the publishing notebooks start from, and
    further properties of the field list, of the layer definition, of the
    batches and of the length table. *)

From Stdlib Require Import Ascii DecimalString DecimalN DecimalPos DecimalFacts.
From stdpp Require Import sorting.
Import Py.

(** ** Procurement: file names and the download loop *)

Module Download.

(** *** File names

<<
file_pth = dir_raw_aw / f'aw_{reach_id:08d}.json'
existing_reach_id_lst = [int(re.search(r"aw_(\d+)\.json", pth.name).group(1))
                         for pth in dir_raw_aw.glob('aw_*.json')]
>>

    A name is a string of characters with code points below 256; among these
    the decimal digits of [\d] and of [int] are ["0"] to ["9"]. *)

(** [k] zeros. *)
Fixpoint zeros (k : nat) : string :=
  match k with
  | O => ""
  | S k' => String "0"%char (zeros k')
  end.

(** [f'{n:08d}']: the decimal digits of [n], zeros in front up to a width of
    eight. *)
Definition format_08d (n : N) : string :=
  let digits := NilZero.string_of_uint (N.to_uint n) in
  zeros (8 - String.length digits) +:+ digits.

Definition file_name (reach_id : N) : string :=
  "aw_" +:+ format_08d reach_id +:+ ".json".

(** [\d] on a character of the name. *)
Definition is_digit (c : ascii) : bool :=
  match c with
  | "0" | "1" | "2" | "3" | "4" | "5" | "6" | "7" | "8" | "9" => true
  | _ => false
  end%char.

(** The longest run of digits a string starts with, and what follows it. *)
Fixpoint span_digits (s : string) : string * string :=
  match s with
  | String c s' =>
      if is_digit c then
        let '(ds, rest) := span_digits s' in (String c ds, rest)
      else ("", s)
  | EmptyString => ("", "")
  end.

(** [s] without its first [n] characters. *)
Fixpoint drop_str (n : nat) (s : string) : string :=
  match n, s with
  | S n', String _ s' => drop_str n' s'
  | _, _ => s
  end.

(** A match of [aw_(\d+)\.json] that starts at the first character, as its
    group 1.  [\d+] takes the longest run of digits; giving digits back cannot
    help, for the character after a shorter run is a digit and not the
    dot. *)
Definition match_here (s : string) : option string :=
  if String.prefix "aw_" s then
    let '(ds, rest) := span_digits (drop_str 3 s) in
    match ds with
    | EmptyString => None
    | _ => if String.prefix ".json" rest then Some ds else None
    end
  else None.

(** [re.search(r"aw_(\d+)\.json", s)]: the leftmost match, as its group 1;
    [None] when there is none. *)
Fixpoint re_search (s : string) : option string :=
  match match_here s with
  | Some ds => Some ds
  | None =>
      match s with
      | String _ s' => re_search s'
      | EmptyString => None
      end
  end.

(** [sys.get_int_max_str_digits()] as the interpreter starts; the kernel of
    the notebook is Python 3.12. *)
Definition max_str_digits : nat := 4300.

(** [int(ds)] on a string of decimal digits: the number they write, zeros in
    front allowed; [ValueError] for more digits than the limit. *)
Definition py_int (ds : string) : result N :=
  if (max_str_digits <? String.length ds)%nat then raise ValueError
  else
    match NilZero.uint_of_string ds with
    | Some d => ret (N.of_uint d)
    | None => raise ValueError
    end.

(** [int(re.search(r"aw_(\d+)\.json", name).group(1))]: [None] has no
    [group]. *)
Definition existing_id (name : string) : result N :=
  match re_search name with
  | Some ds => py_int ds
  | None => raise AttributeError
  end.

(** [suf] is a suffix of [s]. *)
Fixpoint ends_with (suf s : string) : bool :=
  if String.eqb suf s then true
  else match s with
       | String _ s' => ends_with suf s'
       | EmptyString => false
       end.

(** A name the pattern [aw_*.json] of [glob] matches: ["aw_"], anything,
    [".json"]. *)
Definition glob_aw (name : string) : bool :=
  String.prefix "aw_" name && ends_with ".json" (drop_str 3 name).

(** The directory: file names and what the files hold. *)
Abbreviation Dir := (gmap string PyVal).

Definition existing_reach_id_lst (dir : Dir) : result (list N) :=
  mapM existing_id (List.filter glob_aw (map_to_list dir).*1).

(** The order of paths of one directory: the order of their names, character
    by character. *)
Definition path_le (s t : string) : Prop := String.leb s t = true.

#[global] Instance path_le_dec (s t : string) : Decision (path_le s t) :=
  decide (String.leb s t = true).

(** [raw_json_lst = sorted(list(raw_dir_pth.glob("aw_*.json")))], the files
    the publishing notebooks read, as their names. *)
Definition raw_json_lst (dir : Dir) : list string :=
  merge_sort path_le (List.filter glob_aw (map_to_list dir).*1).

(** *** The loop

<<
fail_count = 0
max_fail = 1000
max_range = 10000000
for reach_id in range(1, max_range):
    file_pth = dir_raw_aw / f'aw_{reach_id:08d}.json'
    if reach_id in existing_reach_id_lst:
        logging.debug(...)
    else:
        try:
            aw_json = download_raw_json_from_aw(reach_id)
            if file_pth.exists():
                file_pth.unlink()
            with open(file_pth, 'x') as fp:
                json.dump(aw_json, fp, indent=2)
            fail_count = 0
        except:
            fail_count += 1
            if fail_count > max_fail:
                break
>> *)

Definition max_fail : Z := 1000.
Definition max_range : Z := 10000000.

(** What the loop changes: the counter and the directory; [requests] records
    the identifiers [download_raw_json_from_aw] was called with and [unlinked]
    the reaches whose file [unlink] removed, in order. *)
Record state : Type := {
  fail_count : Z;
  files : Dir;
  requests : list N;
  unlinked : list N
}.

Inductive flow : Type := Continue | Break.

Section WithSource.

(** [download_raw_json_from_aw], of [reach_tools.utils.procure]: the document
    of a reach, or an exception ([None]).  The document is a JSON value, which
    [json.dump] writes; the file system is taken not to fail, so that the only
    exception the [try] catches is the one of the download. *)
Variable download : N -> option PyVal.

(** One turn of the loop. *)
Definition body (existing : list N) (reach_id : N) (st : state) : state * flow :=
  if decide (reach_id ∈ existing) then (st, Continue)
  else
    match download reach_id with
    | Some aw_json =>
        let exists_ := bool_decide (is_Some (files st !! file_name reach_id)) in
        ({| fail_count := 0;
            files :=
              <[file_name reach_id := aw_json]>
                (if exists_ then delete (file_name reach_id) (files st)
                 else files st);
            requests := (requests st ++ [reach_id])%list;
            unlinked :=
              if exists_ then (unlinked st ++ [reach_id])%list
              else unlinked st |}, Continue)
    | None =>
        let fc := (fail_count st + 1)%Z in
        ({| fail_count := fc;
            files := files st;
            requests := (requests st ++ [reach_id])%list;
            unlinked := unlinked st |},
         if decide (max_fail < fc)%Z then Break else Continue)
    end.

(** [for reach_id in ids: ...] *)
Fixpoint for_loop (existing : list N) (ids : list N) (st : state) : state * flow :=
  match ids with
  | [] => (st, Continue)
  | reach_id :: rest =>
      match body existing reach_id st with
      | (st', Break) => (st', Break)
      | (st', Continue) => for_loop existing rest st'
      end
  end.

(** [range(1, max_range)] *)
Definition reach_ids : list N :=
  (fun i : nat => N.of_nat (1 + i)) <$> seq 0 (Z.to_nat (max_range - 1)).

(** The cell: the identifiers already in the directory, then the loop. *)
Definition download_cell (dir : Dir) : result (state * flow) :=
  do existing <- existing_reach_id_lst dir;
  ret (for_loop existing reach_ids
         {| fail_count := 0; files := dir; requests := []; unlinked := [] |}).

End WithSource.

End Download.

Module DownloadFacts.
Import Download.

(** Every character is a decimal digit. *)
Fixpoint all_digits (s : string) : bool :=
  match s with
  | String c s' => is_digit c && all_digits s'
  | EmptyString => true
  end.

(** The first character, if any, is not a digit. *)
Definition no_digit_ahead (s : string) : bool :=
  match s with
  | String c _ => negb (is_digit c)
  | EmptyString => true
  end.

Lemma append_nil (t : string) : "" +:+ t = t.
Proof. reflexivity. Qed.

Lemma append_cons (c : ascii) (s t : string) : String c s +:+ t = String c (s +:+ t).
Proof. reflexivity. Qed.

Lemma all_digits_app (s t : string) :
  all_digits (s +:+ t) = all_digits s && all_digits t.
Proof.
  induction s as [|c s IH]; [reflexivity|]. rewrite append_cons.
  cbn [all_digits]. rewrite IH. now rewrite andb_assoc.
Qed.

Lemma all_digits_string_of_uint (d : Decimal.uint) :
  all_digits (NilEmpty.string_of_uint d) = true.
Proof. induction d; simpl; auto. Qed.

Lemma all_digits_zeros (k : nat) : all_digits (zeros k) = true.
Proof. induction k; simpl; auto. Qed.

Lemma to_uint_nonnil (n : N) : N.to_uint n <> Decimal.Nil.
Proof.
  destruct n as [|p]; [discriminate|]. apply DecimalPos.Unsigned.to_uint_nonnil.
Qed.

Lemma string_of_uint_nonnil (d : Decimal.uint) :
  d <> Decimal.Nil ->
  NilZero.string_of_uint d = NilEmpty.string_of_uint d /\
  NilEmpty.string_of_uint d <> "".
Proof. destruct d; intros H; try contradiction; split; cbn; congruence. Qed.

Lemma zeros_string_of_uint (k : nat) (d : Decimal.uint) :
  zeros k +:+ NilEmpty.string_of_uint d
  = NilEmpty.string_of_uint (Nat.iter k Decimal.D0 d).
Proof.
  induction k as [|k IH]; [reflexivity|].
  change (zeros (S k) +:+ NilEmpty.string_of_uint d)
    with (String "0"%char (zeros k +:+ NilEmpty.string_of_uint d)).
  rewrite IH. reflexivity.
Qed.

Lemma of_uint_iter_D0 (k : nat) (d : Decimal.uint) :
  N.of_uint (Nat.iter k Decimal.D0 d) = N.of_uint d.
Proof. induction k as [|k IH]; [reflexivity|]. cbn. exact IH. Qed.

Lemma format_08d_digits (n : N) :
  all_digits (format_08d n) = true /\ format_08d n <> "".
Proof.
  unfold format_08d.
  destruct (string_of_uint_nonnil _ (to_uint_nonnil n)) as [-> Hne].
  split.
  - now rewrite all_digits_app, all_digits_zeros, all_digits_string_of_uint.
  - destruct (zeros _); [exact Hne|discriminate].
Qed.

(** *** Decimal digits and their value *)

Lemma usize_nb_digits (d : Decimal.uint) :
  DecimalPos.Unsigned.usize d = N.of_nat (Decimal.nb_digits d).
Proof.
  induction d; cbn [DecimalPos.Unsigned.usize Decimal.nb_digits]; lia.
Qed.

Lemma nb_digits_tl (d : Decimal.uint) :
  d <> Decimal.Nil ->
  Decimal.nb_digits d = S (Decimal.nb_digits (DecimalPos.Unsigned.tl d)).
Proof. destruct d; [contradiction|..]; reflexivity. Qed.

Lemma hd_le_9 (d : Decimal.uint) : (DecimalPos.Unsigned.hd d <= 9)%N.
Proof. destruct d; cbn; lia. Qed.

(** The value of a numeral: its first digit, times the power of ten of its
    place, plus the value of the rest. *)
Lemma of_uint_hd_tl (d : Decimal.uint) :
  d <> Decimal.Nil ->
  N.of_uint d =
  (DecimalPos.Unsigned.hd d * 10 ^ N.of_nat (Decimal.nb_digits (DecimalPos.Unsigned.tl d))
   + N.of_uint (DecimalPos.Unsigned.tl d))%N.
Proof.
  intros Hd. unfold N.of_uint.
  destruct d; [contradiction|..];
    cbn [Pos.of_uint DecimalPos.Unsigned.hd DecimalPos.Unsigned.tl];
    rewrite ?DecimalPos.Unsigned.of_uint_acc_rev, <- ?DecimalPos.Unsigned.of_uint_alt,
      ?usize_nb_digits; lia.
Qed.

Lemma of_uint_bound (d : Decimal.uint) :
  (N.of_uint d < 10 ^ N.of_nat (Decimal.nb_digits d))%N.
Proof.
  induction d; [cbn; lia|..];
    (rewrite of_uint_hd_tl by discriminate;
     cbn [DecimalPos.Unsigned.hd DecimalPos.Unsigned.tl Decimal.nb_digits];
     rewrite Nat2N.inj_succ, N.pow_succ_r'; lia).
Qed.

Lemma hd_to_uint (p : positive) : (1 <= DecimalPos.Unsigned.hd (Pos.to_uint p))%N.
Proof.
  pose proof (DecimalPos.Unsigned.to_of (Pos.to_uint p)) as Hu.
  rewrite DecimalPos.Unsigned.of_to in Hu. cbn [N.to_uint] in Hu.
  pose proof (DecimalPos.Unsigned.to_uint_nonnil p) as Hnil.
  pose proof (DecimalPos.Unsigned.to_uint_nonzero p) as Hnz.
  destruct (Pos.to_uint p) as [|l|l|l|l|l|l|l|l|l|l]; try (cbn; lia).
  - contradiction.
  - exfalso. rewrite unorm_D0 in Hu. unfold Decimal.unorm in Hu.
    destruct (Decimal.nzhead l) eqn:En; try discriminate Hu.
    + injection Hu as ->. now apply Hnz.
    + now apply nzhead_nonzero in En.
Qed.

Lemma nb_digits_to_uint (n : N) (k : nat) :
  (n < 10 ^ N.of_nat k)%N -> 1 <= k -> Decimal.nb_digits (N.to_uint n) <= k.
Proof.
  intros Hn Hk. destruct n as [|p]; [cbn; lia|]. cbn [N.to_uint].
  pose proof (hd_to_uint p) as Hhd.
  pose proof (DecimalPos.Unsigned.to_uint_nonnil p) as Hnil.
  pose proof (of_uint_hd_tl _ Hnil) as Hv.
  unfold N.of_uint in Hv at 1. rewrite DecimalPos.Unsigned.of_to in Hv.
  rewrite (nb_digits_tl _ Hnil).
  assert (H : (10 ^ N.of_nat (Decimal.nb_digits (DecimalPos.Unsigned.tl (Pos.to_uint p)))
               < 10 ^ N.of_nat k)%N) by nia.
  apply N.pow_lt_mono_r_iff in H; lia.
Qed.

Lemma length_string_of_uint (d : Decimal.uint) :
  String.length (NilEmpty.string_of_uint d) = Decimal.nb_digits d.
Proof. induction d; cbn; congruence. Qed.

Lemma format_08d_iter (n : N) :
  format_08d n =
  NilEmpty.string_of_uint
    (Nat.iter (8 - Decimal.nb_digits (N.to_uint n)) Decimal.D0 (N.to_uint n)).
Proof.
  unfold format_08d.
  destruct (string_of_uint_nonnil _ (to_uint_nonnil n)) as [-> _].
  now rewrite zeros_string_of_uint, length_string_of_uint.
Qed.

Lemma length_format_08d (n : N) :
  String.length (format_08d n) = Nat.max 8 (Decimal.nb_digits (N.to_uint n)).
Proof.
  rewrite format_08d_iter, length_string_of_uint, nb_digits_iter_D0. lia.
Qed.

(** *** Reading a number back *)

(** The number a string of digits writes. *)
Definition parse (ds : string) : option N :=
  N.of_uint <$> NilZero.uint_of_string ds.

Lemma py_int_parse (ds : string) :
  py_int ds =
  if (max_str_digits <? String.length ds)%nat then inl ValueError
  else match parse ds with
       | Some n => inr n
       | None => inl ValueError
       end.
Proof.
  unfold py_int, parse. destruct (_ <? _)%nat; [reflexivity|].
  now destruct (NilZero.uint_of_string ds).
Qed.

(** The digits the format wrote are those of the number, zeros in front or
    not. *)
Lemma parse_format_08d (n : N) : parse (format_08d n) = Some n.
Proof.
  unfold parse. rewrite format_08d_iter.
  set (d := Nat.iter _ Decimal.D0 (N.to_uint n)).
  assert (Hnil : d <> Decimal.Nil).
  { unfold d. destruct (8 - _); [apply to_uint_nonnil|discriminate]. }
  destruct (string_of_uint_nonnil _ Hnil) as [_ Hne].
  unfold NilZero.uint_of_string.
  destruct (NilEmpty.string_of_uint d) eqn:E; [contradiction|].
  rewrite <- E, NilEmpty.usu. cbn. f_equal. unfold d.
  rewrite of_uint_iter_D0. apply DecimalN.Unsigned.of_to.
Qed.

Lemma max_str_digits_ge : 8 <= max_str_digits.
Proof. apply Nat.leb_le. reflexivity. Qed.

Lemma format_08d_fits (n : N) :
  (n < 10 ^ N.of_nat max_str_digits)%N ->
  (max_str_digits <? String.length (format_08d n))%nat = false.
Proof.
  intros Hn. apply Nat.ltb_ge. rewrite length_format_08d.
  pose proof max_str_digits_ge.
  pose proof (nb_digits_to_uint n max_str_digits Hn). lia.
Qed.

Lemma format_08d_long (n : N) :
  (10 ^ N.of_nat max_str_digits <= n)%N ->
  (max_str_digits <? String.length (format_08d n))%nat = true.
Proof.
  intros Hn. apply Nat.ltb_lt. rewrite length_format_08d.
  pose proof (of_uint_bound (N.to_uint n)) as Hb.
  rewrite DecimalN.Unsigned.of_to in Hb.
  assert (H : (10 ^ N.of_nat max_str_digits
               < 10 ^ N.of_nat (Decimal.nb_digits (N.to_uint n)))%N) by lia.
  apply N.pow_lt_mono_r_iff in H; lia.
Qed.

Lemma py_int_format_08d (n : N) :
  py_int (format_08d n) =
  if (n <? 10 ^ N.of_nat max_str_digits)%N then inr n else inl ValueError.
Proof.
  rewrite py_int_parse, parse_format_08d.
  destruct (N.ltb_spec n (10 ^ N.of_nat max_str_digits)) as [Hn|Hn].
  - now rewrite format_08d_fits.
  - now rewrite format_08d_long.
Qed.

Lemma span_digits_app (ds rest : string) :
  all_digits ds = true -> no_digit_ahead rest = true ->
  span_digits (ds +:+ rest) = (ds, rest).
Proof.
  intros Hds Hrest. induction ds as [|c ds IH].
  - rewrite append_nil. destruct rest as [|c rest]; [reflexivity|].
    cbn [no_digit_ahead] in Hrest. cbn [span_digits].
    now destruct (is_digit c).
  - cbn [all_digits] in Hds. apply andb_true_iff in Hds as [Hc Hds].
    rewrite append_cons. cbn [span_digits]. now rewrite Hc, IH.
Qed.

Lemma span_digits_spec (s ds rest : string) :
  span_digits s = (ds, rest) ->
  s = ds +:+ rest /\ all_digits ds = true /\ no_digit_ahead rest = true.
Proof.
  revert ds rest. induction s as [|c s IH]; intros ds rest; cbn [span_digits].
  - intros [= <- <-]. auto.
  - destruct (is_digit c) eqn:Ec.
    + destruct (span_digits s) as [ds' rest']. intros [= <- <-].
      destruct (IH _ _ eq_refl) as (-> & Hd & Hr).
      rewrite append_cons. cbn [all_digits]. now rewrite Ec, Hd.
    + intros [= <- <-]. rewrite append_nil. cbn [all_digits no_digit_ahead].
      now rewrite Ec.
Qed.

Lemma prefix_app (p t : string) : String.prefix p (p +:+ t) = true.
Proof.
  induction p as [|c p IH]; [now destruct t|].
  rewrite append_cons. cbn [String.prefix].
  destruct (ascii_dec c c); [exact IH|contradiction].
Qed.

Lemma prefix_split (p s : string) :
  String.prefix p s = true -> exists t, s = p +:+ t.
Proof.
  revert s. induction p as [|c p IH]; intros s; [now exists s|].
  destruct s as [|c' s]; cbn [String.prefix]; [discriminate|].
  destruct (ascii_dec c c') as [<-|]; [|discriminate].
  intros H. destruct (IH _ H) as [t ->]. exists t. now rewrite append_cons.
Qed.

Lemma match_here_intro (ds post : string) :
  ds <> "" -> all_digits ds = true ->
  match_here ("aw_" +:+ ds +:+ ".json" +:+ post) = Some ds.
Proof.
  intros Hne Hds. unfold match_here. rewrite prefix_app.
  change (drop_str 3 ("aw_" +:+ ds +:+ ".json" +:+ post))
    with (ds +:+ ".json" +:+ post).
  rewrite span_digits_app by (assumption || reflexivity).
  rewrite prefix_app. now destruct ds.
Qed.

Lemma match_here_elim (s ds : string) :
  match_here s = Some ds ->
  ds <> "" /\ all_digits ds = true /\ exists post, s = "aw_" +:+ ds +:+ ".json" +:+ post.
Proof.
  unfold match_here. destruct (String.prefix "aw_" s) eqn:Ep; [|discriminate].
  apply prefix_split in Ep as [t ->]. rewrite !append_cons, append_nil.
  cbn [drop_str].
  destruct (span_digits t) as [ds' rest] eqn:Es.
  apply span_digits_spec in Es as (-> & Hd & _).
  destruct ds' as [|c ds']; [discriminate|].
  destruct (String.prefix ".json" rest) eqn:Er; [|discriminate].
  apply prefix_split in Er as [post ->]. intros [= <-].
  split; [discriminate|]. split; [exact Hd|]. now exists post.
Qed.

Lemma re_search_eq (s : string) :
  re_search s =
  match match_here s with
  | Some ds => Some ds
  | None => match s with
            | String _ s' => re_search s'
            | EmptyString => None
            end
  end.
Proof. destruct s; reflexivity. Qed.

Lemma re_search_some (s ds : string) :
  re_search s = Some ds ->
  ds <> "" /\ all_digits ds = true /\
  exists pre post, s = pre +:+ "aw_" +:+ ds +:+ ".json" +:+ post.
Proof.
  induction s as [|c s IH]; rewrite re_search_eq.
  - destruct (match_here "") eqn:E; [|discriminate]. intros [= ->].
    apply match_here_elim in E as (H1 & H2 & post & H3). repeat split; auto.
    now exists "", post.
  - destruct (match_here (String c s)) eqn:E.
    + intros [= ->]. apply match_here_elim in E as (H1 & H2 & post & H3).
      repeat split; auto. now exists "", post.
    + intros H. destruct (IH H) as (H1 & H2 & pre & post & ->).
      repeat split; auto. exists (String c pre), post. now rewrite append_cons.
Qed.

Lemma re_search_none (s : string) :
  re_search s = None ->
  forall pre ds post, ds <> "" -> all_digits ds = true ->
    s <> pre +:+ "aw_" +:+ ds +:+ ".json" +:+ post.
Proof.
  intros Hs pre. revert s Hs. induction pre as [|c pre IH]; intros s Hs ds post Hne Hds ->.
  - rewrite append_nil, re_search_eq, match_here_intro in Hs by assumption. discriminate.
  - rewrite append_cons, re_search_eq in Hs.
    destruct (match_here _); [discriminate|]. now apply (IH _ Hs ds post).
Qed.

Lemma uint_of_string_digits (ds : string) :
  all_digits ds = true -> exists d, NilEmpty.uint_of_string ds = Some d.
Proof.
  induction ds as [|c ds IH]; [now exists Decimal.Nil|].
  cbn [all_digits]. intros [Hc Hds]%andb_true_iff.
  destruct (IH Hds) as [d Hd]. cbn [NilEmpty.uint_of_string]. rewrite Hd.
  destruct c as [[|] [|] [|] [|] [|] [|] [|] [|]]; try discriminate Hc; cbn; eauto.
Qed.


Lemma parse_digits (ds : string) :
  ds <> "" -> all_digits ds = true -> exists n, parse ds = Some n.
Proof.
  intros Hne Hds. destruct (uint_of_string_digits ds Hds) as [d Hd].
  unfold parse, NilZero.uint_of_string. destruct ds; [contradiction|].
  rewrite Hd. cbn. eauto.
Qed.

Lemma ends_with_app (suf x : string) : ends_with suf (x +:+ suf) = true.
Proof.
  induction x as [|c x IH].
  - rewrite append_nil. destruct suf; cbn [ends_with]; now rewrite String.eqb_refl.
  - rewrite append_cons. cbn [ends_with]. rewrite IH. now destruct (String.eqb _ _).
Qed.

Lemma length_append (s t : string) :
  String.length (s +:+ t) = String.length s + String.length t.
Proof.
  induction s as [|c s IH]; [now rewrite append_nil|].
  rewrite append_cons. cbn [String.length]. now rewrite IH.
Qed.

Lemma length_zeros (k : nat) : String.length (zeros k) = k.
Proof. induction k; cbn; congruence. Qed.


Lemma re_search_file_name (n : N) :
  re_search (file_name n) = Some (format_08d n).
Proof.
  destruct (format_08d_digits n) as [Hd Hne]. unfold file_name.
  change (".json") with (".json" +:+ "").
  now rewrite re_search_eq, match_here_intro.
Qed.

Lemma existing_id_file_name (n : N) :
  existing_id (file_name n) =
  if (n <? 10 ^ N.of_nat max_str_digits)%N then inr n else inl ValueError.
Proof.
  unfold existing_id. rewrite re_search_file_name. apply py_int_format_08d.
Qed.

Lemma existing_id_file_name_inv (n m : N) :
  existing_id (file_name n) = inr m -> m = n.
Proof.
  rewrite existing_id_file_name. destruct (_ <? _)%N; [|discriminate].
  now intros [= <-].
Qed.

(** The identifiers the loop runs over are far below the limit of [int]. *)
Lemma lt_10_8_fits (n : N) :
  (n < 10 ^ 8)%N -> (n <? 10 ^ N.of_nat max_str_digits)%N = true.
Proof.
  intros Hn. apply N.ltb_lt. eapply N.lt_le_trans; [exact Hn|].
  apply N.pow_le_mono_r; [discriminate|].
  pose proof max_str_digits_ge. lia.
Qed.

Lemma existing_id_file_name_small (n : N) :
  (n < 10 ^ 8)%N -> existing_id (file_name n) = inr n.
Proof. intros Hn. now rewrite existing_id_file_name, lt_10_8_fits. Qed.

Lemma glob_aw_file_name (n : N) : glob_aw (file_name n) = true.
Proof.
  unfold glob_aw, file_name. rewrite prefix_app.
  change (drop_str 3 ("aw_" +:+ format_08d n +:+ ".json"))
    with (format_08d n +:+ ".json").
  now rewrite ends_with_app.
Qed.


Lemma file_name_inj (n m : N) : file_name n = file_name m -> n = m.
Proof.
  intros H. pose proof (re_search_file_name n) as Hn.
  rewrite H, re_search_file_name in Hn. injection Hn as Hn.
  pose proof (parse_format_08d n) as Hp. rewrite <- Hn, parse_format_08d in Hp.
  congruence.
Qed.

(** The name the loop writes a reach under is one [glob] lists, with eight
    digits or more, and no other reach has it; the identifier read back from
    it is the reach's, zeros in front or not, as long as the reach is below
    10^4300, and [int] refuses the digits with [ValueError] from there on. *)
Theorem file_name_round_trip (reach_id : N) :
  glob_aw (file_name reach_id) = true /\
  existing_id (file_name reach_id) =
    (if (reach_id <? 10 ^ 4300)%N then inr reach_id else inl ValueError) /\
  (8 <= String.length (format_08d reach_id)) /\
  forall other, file_name other = file_name reach_id -> other = reach_id.
Proof.
  split; [apply glob_aw_file_name|]. split; [apply existing_id_file_name|].
  split; [|intros other; apply file_name_inj].
  rewrite length_format_08d. lia.
Qed.


(** *** The order of names and the order of numbers *)

Definition digit_char (h : N) : ascii := ascii_of_N (48 + h).

Lemma string_of_uint_hd (d : Decimal.uint) :
  d <> Decimal.Nil ->
  NilEmpty.string_of_uint d =
  String (digit_char (DecimalPos.Unsigned.hd d))
         (NilEmpty.string_of_uint (DecimalPos.Unsigned.tl d)).
Proof. destruct d; [contradiction|..]; reflexivity. Qed.

Lemma compare_digit_char (h h' : N) :
  (h <= 9)%N -> (h' <= 9)%N ->
  Ascii.compare (digit_char h) (digit_char h') = N.compare h h'.
Proof.
  intros Hh Hh'. unfold Ascii.compare, digit_char.
  rewrite !N_ascii_embedding by lia.
  destruct (N.compare_spec h h') as [->|Hlt|Hgt].
  - apply N.compare_refl.
  - apply N.compare_lt_iff. lia.
  - apply N.compare_gt_iff. lia.
Qed.

Lemma compare_string_of_uint (d d' : Decimal.uint) :
  Decimal.nb_digits d = Decimal.nb_digits d' ->
  String.compare (NilEmpty.string_of_uint d) (NilEmpty.string_of_uint d')
  = N.compare (N.of_uint d) (N.of_uint d').
Proof.
  remember (Decimal.nb_digits d) as k eqn:Hk. revert d d' Hk.
  induction k as [|k IH]; intros d d' Hk Hk'.
  - symmetry in Hk, Hk'. apply nb_digits_0 in Hk, Hk'. now subst.
  - assert (Hd : d <> Decimal.Nil) by (apply nb_digits_n0; lia).
    assert (Hd' : d' <> Decimal.Nil) by (apply nb_digits_n0; lia).
    rewrite (nb_digits_tl _ Hd) in Hk. rewrite (nb_digits_tl _ Hd') in Hk'.
    injection Hk as Hk. injection Hk' as Hk'.
    rewrite (string_of_uint_hd _ Hd), (string_of_uint_hd _ Hd').
    rewrite (of_uint_hd_tl _ Hd), (of_uint_hd_tl _ Hd'), <- Hk', <- Hk.
    cbn [String.compare].
    rewrite compare_digit_char by apply hd_le_9.
    rewrite (IH _ _ Hk Hk').
    pose proof (of_uint_bound (DecimalPos.Unsigned.tl d)) as Hb.
    pose proof (of_uint_bound (DecimalPos.Unsigned.tl d')) as Hb'.
    rewrite <- Hk in Hb. rewrite <- Hk' in Hb'.
    set (P := (10 ^ N.of_nat k)%N) in *.
    set (v := N.of_uint (DecimalPos.Unsigned.tl d)) in *.
    set (v' := N.of_uint (DecimalPos.Unsigned.tl d')) in *.
    destruct (N.compare_spec (DecimalPos.Unsigned.hd d) (DecimalPos.Unsigned.hd d'))
      as [->|Hlt|Hgt].
    + destruct (N.compare_spec v v') as [->|Hv|Hv]; symmetry.
      * apply N.compare_refl.
      * apply N.compare_lt_iff. lia.
      * apply N.compare_gt_iff. lia.
    + symmetry. apply N.compare_lt_iff. nia.
    + symmetry. apply N.compare_gt_iff. nia.
Qed.

Lemma ascii_compare_refl (c : ascii) : Ascii.compare c c = Eq.
Proof. apply N.compare_refl. Qed.

Lemma string_compare_refl (s : string) : String.compare s s = Eq.
Proof. induction s as [|c s IH]; [reflexivity|]. cbn. now rewrite ascii_compare_refl. Qed.

Lemma compare_app_l (p x y : string) :
  String.compare (p +:+ x) (p +:+ y) = String.compare x y.
Proof.
  induction p as [|c p IH]; [reflexivity|].
  rewrite !append_cons. cbn [String.compare]. now rewrite ascii_compare_refl.
Qed.

Lemma compare_app_r (x y s : string) :
  String.length x = String.length y ->
  String.compare (x +:+ s) (y +:+ s) = String.compare x y.
Proof.
  revert y. induction x as [|c x IH]; intros [|c' y]; try discriminate.
  - intros _. rewrite !append_nil. apply string_compare_refl.
  - intros [= H]. rewrite !append_cons. cbn [String.compare]. now rewrite IH.
Qed.

Lemma nb_digits_padded (n : N) :
  (n < 10 ^ 8)%N ->
  Decimal.nb_digits
    (Nat.iter (8 - Decimal.nb_digits (N.to_uint n)) Decimal.D0 (N.to_uint n)) = 8.
Proof.
  intros Hn. rewrite nb_digits_iter_D0.
  pose proof (nb_digits_to_uint n 8 Hn). lia.
Qed.

Lemma compare_format_08d (a b : N) :
  (a < 10 ^ 8)%N -> (b < 10 ^ 8)%N ->
  String.compare (format_08d a) (format_08d b) = N.compare a b.
Proof.
  intros Ha Hb. rewrite !format_08d_iter, compare_string_of_uint.
  - now rewrite !of_uint_iter_D0, !DecimalN.Unsigned.of_to.
  - now rewrite !nb_digits_padded.
Qed.

Lemma compare_file_name (a b : N) :
  (a < 10 ^ 8)%N -> (b < 10 ^ 8)%N ->
  String.compare (file_name a) (file_name b) = N.compare a b.
Proof.
  intros Ha Hb. unfold file_name. rewrite compare_app_l, compare_app_r.
  - now apply compare_format_08d.
  - rewrite !length_format_08d.
    pose proof (nb_digits_to_uint a 8 Ha). pose proof (nb_digits_to_uint b 8 Hb). lia.
Qed.

Lemma path_le_file_name (a b : N) :
  (a < 10 ^ 8)%N -> (b < 10 ^ 8)%N ->
  path_le (file_name a) (file_name b) <-> (a <= b)%N.
Proof.
  intros Ha Hb. unfold path_le, String.leb, N.le.
  rewrite (compare_file_name a b Ha Hb).
  destruct (a ?= b)%N; split; congruence.
Qed.

(** The order of the names is the order of the reaches: for reaches below
    10^8, which eight digits write, the names the loop gives compare, as
    strings, the way the identifiers compare as numbers; so a sorted listing
    is in the order of the identifiers.  That holds for every reach the loop
    asks for, [max_range] being 10^7. *)
Theorem file_name_order (a b : N) :
  (a < 10 ^ 8)%N -> (b < 10 ^ 8)%N ->
  String.compare (file_name a) (file_name b) = N.compare a b /\
  (path_le (file_name a) (file_name b) <-> (a <= b)%N).
Proof.
  intros Ha Hb. split; [now apply compare_file_name|now apply path_le_file_name].
Qed.

Lemma file_name_order_witness :
  String.compare (file_name 999) (file_name 1372) = N.compare 999 1372 /\
  (path_le (file_name 999) (file_name 1372) <-> (999 <= 1372)%N).
Proof. apply file_name_order; reflexivity. Defined.

(** ** The identifiers already in the directory *)

Lemma mapM_inr {A B} (f : A -> result B) (l : list A) (bs : list B) :
  mapM f l = inr bs -> Forall2 (fun a b => f a = inr b) l bs.
Proof.
  revert bs. induction l as [|a l IH]; intros bs; cbn [mapM]; unfold ret, raise.
  - intros [= <-]. constructor.
  - destruct (f a) as [e|b] eqn:E; [discriminate|].
    destruct (mapM f l) as [e|bs'] eqn:E'; [discriminate|].
    intros [= <-]. constructor; auto.
Qed.

Lemma mapM_inl {A B} (f : A -> result B) (l : list A) (e : exn) :
  mapM f l = inl e -> exists a, a ∈ l /\ f a = inl e.
Proof.
  induction l as [|a l IH]; cbn [mapM]; unfold ret, raise; [discriminate|].
  destruct (f a) as [e'|b] eqn:E.
  - intros [= ->]. exists a. split; [left|assumption].
  - destruct (mapM f l) as [e'|bs']; [|discriminate].
    intros [= ->]. destruct IH as (a' & Ha' & Hf); [reflexivity|].
    exists a'. split; [now right|assumption].
Qed.

Lemma mapM_returns {A B} (f : A -> result B) (l : list A) :
  (forall a, a ∈ l -> exists b, f a = inr b) -> exists bs, mapM f l = inr bs.
Proof.
  intros H. destruct (mapM f l) as [e|bs] eqn:E; [|eauto].
  apply mapM_inl in E as (a & Ha & Hf). destruct (H a Ha) as [b Hb]. congruence.
Qed.

Lemma Forall2_elem_r {A B} (R : A -> B -> Prop) (l : list A) (k : list B) (b : B) :
  Forall2 R l k -> b ∈ k -> exists a, a ∈ l /\ R a b.
Proof.
  induction 1 as [|a b' l k HR _ IH]; intros Hb.
  - inversion Hb.
  - apply elem_of_cons in Hb as [->|Hb].
    + exists a. split; [left|assumption].
    + destruct (IH Hb) as (a' & Ha' & HR'). exists a'. split; [now right|assumption].
Qed.

Lemma Forall2_elem_l {A B} (R : A -> B -> Prop) (l : list A) (k : list B) (a : A) :
  Forall2 R l k -> a ∈ l -> exists b, b ∈ k /\ R a b.
Proof.
  induction 1 as [|a' b l k HR _ IH]; intros Ha.
  - inversion Ha.
  - apply elem_of_cons in Ha as [->|Ha].
    + exists b. split; [left|assumption].
    + destruct (IH Ha) as (b' & Hb' & HR'). exists b'. split; [now right|assumption].
Qed.

(** The names [glob] lists. *)
Lemma elem_of_glob (dir : Dir) (name : string) :
  name ∈ List.filter glob_aw (map_to_list dir).*1 <->
  is_Some (dir !! name) /\ glob_aw name = true.
Proof.
  rewrite list_elem_of_In, filter_In, <- list_elem_of_In, list_elem_of_fmap.
  split.
  - intros [([k v] & -> & Hkv%elem_of_map_to_list) Hg]. split; [now exists v|assumption].
  - intros [[v Hv] Hg]. split; [|assumption].
    exists (name, v). split; [reflexivity|now apply elem_of_map_to_list].
Qed.


Lemma existing_id_error (name : string) (e : exn) :
  existing_id name = inl e ->
  (e = AttributeError /\ re_search name = None) \/
  (e = ValueError /\
   exists ds, re_search name = Some ds /\ max_str_digits < String.length ds).
Proof.
  unfold existing_id. destruct (re_search name) as [ds|] eqn:E.
  - destruct (re_search_some _ _ E) as (Hne & Hds & _).
    destruct (parse_digits ds Hne Hds) as [n Hn]. rewrite py_int_parse, Hn.
    destruct (Nat.ltb_spec max_str_digits (String.length ds)) as [Hlong|Hfits];
      [|discriminate].
    intros [= <-]. right. eauto.
  - cbn. intros [= <-]. now left.
Qed.

Lemma existing_lst_elem (dir : Dir) (existing : list N) :
  existing_reach_id_lst dir = inr existing ->
  forall id, id ∈ existing <->
    exists name, is_Some (dir !! name) /\ glob_aw name = true /\
                 existing_id name = inr id.
Proof.
  intros H%mapM_inr id. split.
  - intros Hid. destruct (Forall2_elem_r _ _ _ _ H Hid) as (name & Hn & Hf).
    apply elem_of_glob in Hn as [Hn Hg]. eauto.
  - intros (name & Hn & Hg & Hf).
    destruct (Forall2_elem_l _ _ _ name H) as (id' & Hid' & Hf').
    { now apply elem_of_glob. }
    congruence.
Qed.


Lemma existing_lst_file (dir : Dir) (existing : list N) (id : N) :
  existing_reach_id_lst dir = inr existing ->
  is_Some (dir !! file_name id) -> id ∈ existing.
Proof.
  intros H Hid.
  destruct (Forall2_elem_l _ _ _ (file_name id) (mapM_inr _ _ _ H))
    as (id' & Hin & Hid').
  { apply elem_of_glob. split; [assumption|apply glob_aw_file_name]. }
  now rewrite <- (existing_id_file_name_inv _ _ Hid').
Qed.

Lemma existing_lst_returns (dir : Dir) :
  (forall name, is_Some (dir !! name) -> glob_aw name = true ->
     exists id, existing_id name = inr id) ->
  exists existing, existing_reach_id_lst dir = inr existing.
Proof.
  intros H. apply mapM_returns. intros name [Hn Hg]%elem_of_glob. auto.
Qed.


Lemma existing_lst_error (dir : Dir) (e : exn) :
  existing_reach_id_lst dir = inl e ->
  exists name, is_Some (dir !! name) /\ glob_aw name = true /\
    ((e = AttributeError /\ re_search name = None) \/
     (e = ValueError /\
      exists ds, re_search name = Some ds /\ max_str_digits < String.length ds)).
Proof.
  intros (name & [Hn Hg]%elem_of_glob & He%existing_id_error)%mapM_inl.
  eauto.
Qed.

Lemma length_re_search (name ds : string) :
  re_search name = Some ds -> String.length ds <= String.length name.
Proof.
  intros (_ & _ & pre & post & ->)%re_search_some.
  rewrite !length_append. lia.
Qed.


(** The list the loop consults holds a reach exactly when some file the
    [glob] pattern lists carries its number after ["aw_"] and before
    [".json"]; the file the loop itself would write for a reach is always
    such a file, so a reach whose file is in the directory is in the list. *)
Theorem existing_lst_spec (dir : Dir) (existing : list N) :
  existing_reach_id_lst dir = inr existing ->
  (forall id, is_Some (dir !! file_name id) -> id ∈ existing) /\
  (forall id, id ∈ existing <->
     exists name, is_Some (dir !! name) /\ glob_aw name = true /\
                  existing_id name = inr id) /\
  length existing = length (List.filter glob_aw (map_to_list dir).*1).
Proof.
  intros H. split; [intros id; now apply existing_lst_file|].
  split; [now apply existing_lst_elem|].
  apply mapM_inr, Forall2_length in H. now symmetry.
Qed.

Lemma existing_lst_spec_witness :
  let dir : Dir := {[ "aw_00000012.json" := PNone; "readme.txt" := PNone ]} in
  existing_reach_id_lst dir = inr [12%N] /\
  ((forall id, is_Some (dir !! file_name id) -> id ∈ [12%N]) /\
   (forall id, id ∈ [12%N] <->
      exists name, is_Some (dir !! name) /\ glob_aw name = true /\
                   existing_id name = inr id) /\
   length [12%N] = length (List.filter glob_aw (map_to_list dir).*1)).
Proof.
  intros dir.
  assert (H : existing_reach_id_lst dir = inr [12%N]) by (vm_compute; reflexivity).
  split; [exact H|]. exact (existing_lst_spec dir [12%N] H).
Defined.


(** One file the [glob] pattern lists but the search pattern does not match,
    such as [aw_notes.json], is enough to stop the cell: building the list
    raises an exception, so the loop never starts and nothing is requested,
    whatever the source holds.  The exception is [AttributeError] ([None] has
    no [group]), unless another name holds more digits than [int] takes, which
    no name of 4300 characters or less does. *)
Theorem stray_file_stops_cell (download : N -> option PyVal) (dir : Dir)
    (name : string) :
  is_Some (dir !! name) ->
  glob_aw name = true ->
  (forall pre ds post, ds <> "" -> all_digits ds = true ->
     name <> pre +:+ "aw_" +:+ ds +:+ ".json" +:+ post) ->
  exists e,
    existing_reach_id_lst dir = inl e /\
    download_cell download dir = inl e /\
    (e = AttributeError \/ e = ValueError) /\
    ((forall name', is_Some (dir !! name') ->
        String.length name' <= max_str_digits) ->
     e = AttributeError).
Proof.
  intros Hn Hg Hno.
  destruct (existing_reach_id_lst dir) as [e|existing] eqn:E.
  - exists e. split; [reflexivity|].
    split; [unfold download_cell; now rewrite E|].
    apply existing_lst_error in E
      as (name' & Hn' & _ & [[-> _]|[-> (ds & Hds & Hlong)]]).
    + auto.
    + split; [now right|]. intros Hshort. specialize (Hshort _ Hn').
      apply length_re_search in Hds. lia.
  - exfalso.
    destruct (Forall2_elem_l _ _ _ name (mapM_inr _ _ _ E)) as (id & _ & Hid).
    { now apply elem_of_glob. }
    unfold existing_id in Hid. destruct (re_search name) as [ds|] eqn:Hs.
    + destruct (re_search_some _ _ Hs) as (Hne & Hds & pre & post & Hname).
      now destruct (Hno pre ds post Hne Hds).
    + discriminate Hid.
Qed.

Lemma stray_file_stops_cell_witness :
  let dir : Dir := {[ "aw_00000012.json" := PNone; "aw_notes.json" := PNone ]} in
  exists e,
    existing_reach_id_lst dir = inl e /\
    download_cell (fun _ => Some PNone) dir = inl e /\
    (e = AttributeError \/ e = ValueError) /\
    ((forall name', is_Some (dir !! name') ->
        String.length name' <= max_str_digits) ->
     e = AttributeError).
Proof.
  intros dir. apply (stray_file_stops_cell _ dir "aw_notes.json").
  - vm_compute. eauto.
  - reflexivity.
  - apply re_search_none. reflexivity.
Defined.

(** ** The loop *)

Lemma elem_of_reach_ids (id : N) :
  id ∈ reach_ids <-> (1 <= Z.of_N id < max_range)%Z.
Proof.
  unfold reach_ids. rewrite list_elem_of_fmap. setoid_rewrite elem_of_seq.
  unfold max_range. split.
  - intros (i & -> & Hi). lia.
  - intros Hid. exists (N.to_nat id - 1). lia.
Qed.

Lemma NoDup_reach_ids : NoDup reach_ids.
Proof.
  unfold reach_ids. apply NoDup_fmap_2; [|apply NoDup_seq].
  intros i j Hij. lia.
Qed.

Section Loop.

Variable download : N -> option PyVal.
Variable existing : list N.

(** The identifiers of [ids] the loop does not skip. *)
Definition wanted (ids : list N) : list N :=
  filter (fun id => id ∉ existing) ids.

(** What one request leaves in the directory. *)
Definition save (d : Dir) (id : N) : Dir :=
  match download id with
  | Some aw_json => <[file_name id := aw_json]> d
  | None => d
  end.

Lemma for_loop_run (ids : list N) (st st' : state) (fl : flow) :
  for_loop download existing ids st = (st', fl) ->
  exists reqs,
    requests st' = (requests st ++ reqs)%list /\
    reqs `prefix_of` wanted ids /\
    (fl = Continue -> reqs = wanted ids) /\
    files st' = foldl save (files st) reqs.
Proof.
  assert (Hstep : forall id ids st1 st,
    id ∉ existing ->
    requests st1 = (requests st ++ [id])%list ->
    files st1 = save (files st) id ->
    (exists reqs,
       requests st' = (requests st1 ++ reqs)%list /\
       reqs `prefix_of` wanted ids /\
       (fl = Continue -> reqs = wanted ids) /\
       files st' = foldl save (files st1) reqs) ->
    exists reqs,
      requests st' = (requests st ++ reqs)%list /\
      reqs `prefix_of` wanted (id :: ids) /\
      (fl = Continue -> reqs = wanted (id :: ids)) /\
      files st' = foldl save (files st) reqs).
  { intros id ids' st1 st0 Hnin Hr1 Hf1 (reqs & Hr & Hp & Hc & Hf).
    exists (id :: reqs). unfold wanted. rewrite filter_cons_True by assumption.
    split; [now rewrite Hr, Hr1, <- app_assoc|].
    split; [now apply prefix_cons|].
    split; [intros Hfl; now rewrite (Hc Hfl)|].
    cbn [foldl]. now rewrite <- Hf1. }
  revert st. induction ids as [|id ids IH]; intros st; cbn [for_loop].
  - intros [= <- <-]. exists []. rewrite app_nil_r.
    split; [reflexivity|]. split; [apply prefix_nil|]. split; reflexivity.
  - unfold body. destruct (decide (id ∈ existing)) as [Hin|Hnin].
    + unfold wanted. rewrite filter_cons_False by tauto. apply IH.
    + destruct (download id) as [aw_json|] eqn:D.
      * intros Hrun%IH. eapply Hstep; [exact Hnin| | |exact Hrun]; [reflexivity|].
        cbn [files]. unfold save. rewrite D.
        destruct (bool_decide _); [apply insert_delete_eq|reflexivity].
      * cbv zeta. destruct (decide (max_fail < fail_count st + 1)%Z).
        -- intros [= <- <-]. exists [id]. cbn [requests files].
           unfold wanted. rewrite filter_cons_True by assumption.
           split; [reflexivity|]. split; [apply prefix_cons, prefix_nil|].
           split; [discriminate|]. cbn [foldl]. unfold save. now rewrite D.
        -- intros Hrun%IH. eapply Hstep; [exact Hnin| | |exact Hrun]; [reflexivity|].
           cbn [files]. unfold save. now rewrite D.
Qed.

(** The counter is the number of requests that failed since the last one
    that succeeded. *)
Definition counts_trailing_failures (st : state) : Prop :=
  exists pre fails,
    requests st = (pre ++ fails)%list /\
    Z.of_nat (length fails) = fail_count st /\
    Forall (fun id => download id = None) fails /\
    (pre = [] \/ exists pre' id aw_json,
        pre = (pre' ++ [id])%list /\ download id = Some aw_json).

Lemma for_loop_counter (ids : list N) (st st' : state) (fl : flow) :
  for_loop download existing ids st = (st', fl) ->
  counts_trailing_failures st -> (fail_count st <= max_fail)%Z ->
  counts_trailing_failures st' /\
  match fl with
  | Break => fail_count st' = (max_fail + 1)%Z
  | Continue => (fail_count st' <= max_fail)%Z
  end.
Proof.
  revert st. induction ids as [|id ids IH]; intros st; cbn [for_loop].
  - intros [= <- <-]. auto.
  - unfold body. destruct (decide (id ∈ existing)) as [Hin|Hnin]; [apply IH|].
    destruct (download id) as [aw_json|] eqn:D.
    + intros Hrun Hinv Hle. apply (IH _ Hrun).
      * exists (requests st ++ [id])%list, []. cbn [requests fail_count].
        rewrite app_nil_r. repeat split; auto. right. eauto.
      * cbn. unfold max_fail. lia.
    + cbv zeta. intros Hrun (pre & fails & Hr & Hn & Hall & Hpre) Hle.
      assert (Hinv : counts_trailing_failures
                {| fail_count := fail_count st + 1; files := files st;
                   requests := (requests st ++ [id])%list;
                   unlinked := unlinked st |}).
      { exists pre, (fails ++ [id])%list. cbn [requests fail_count].
        rewrite Hr, <- app_assoc, length_app, Forall_app, Forall_singleton.
        cbn [length]. repeat split; auto. lia. }
      destruct (decide (max_fail < fail_count st + 1)%Z).
      * injection Hrun as <- <-. split; [assumption|]. cbn [fail_count]. lia.
      * apply (IH _ Hrun); [assumption|]. cbn [fail_count]. lia.
Qed.

Lemma save_None (reqs : list N) (d : Dir) (name : string) :
  (forall id, id ∈ reqs -> file_name id <> name) ->
  foldl save d reqs !! name = d !! name.
Proof.
  revert d. induction reqs as [|id reqs IH]; intros d H; [reflexivity|].
  cbn [foldl]. rewrite IH by (intros id' Hid'; apply H; now right).
  unfold save. destruct (download id); [|reflexivity].
  apply lookup_insert_ne, H. left.
Qed.

Lemma save_Some (reqs : list N) (d : Dir) (name : string) (v : PyVal) :
  foldl save d reqs !! name = Some v ->
  d !! name = Some v \/
  exists id, id ∈ reqs /\ name = file_name id /\ download id = Some v.
Proof.
  revert d. induction reqs as [|id reqs IH]; intros d; [auto|].
  cbn [foldl]. intros [H|(id' & Hid' & Hn & Hd)]%IH.
  - unfold save in H. destruct (download id) as [aw_json|] eqn:D; [|auto].
    destruct (decide (file_name id = name)) as [<-|Hne].
    + rewrite lookup_insert_eq in H. injection H as ->.
      right. exists id. split; [left|auto].
    + rewrite lookup_insert_ne in H by assumption. auto.
  - right. exists id'. split; [now right|auto].
Qed.

Lemma save_downloaded (reqs : list N) (d : Dir) (id : N) (aw_json : PyVal) :
  id ∈ reqs -> download id = Some aw_json ->
  foldl save d reqs !! file_name id = Some aw_json.
Proof.
  induction reqs as [|id' reqs IH] using rev_ind; [inversion 1|].
  intros [Hid| ->%list_elem_of_singleton]%elem_of_app D; rewrite foldl_snoc.
  - unfold save at 1. destruct (download id') as [j|] eqn:D'; [|auto].
    destruct (decide (file_name id' = file_name id)) as [Heq|Hne].
    + apply file_name_inj in Heq as ->. rewrite lookup_insert_eq. congruence.
    + rewrite lookup_insert_ne by assumption. auto.
  - unfold save at 1. rewrite D. apply lookup_insert_eq.
Qed.

(** No file is unlinked when the identifiers are distinct and those the loop
    does not skip have no file yet. *)
Lemma for_loop_no_unlink (ids : list N) (st st' : state) (fl : flow) :
  for_loop download existing ids st = (st', fl) ->
  NoDup ids ->
  (forall id, id ∈ ids -> id ∉ existing -> files st !! file_name id = None) ->
  unlinked st' = unlinked st.
Proof.
  revert st. induction ids as [|id ids IH]; intros st; cbn [for_loop].
  - now intros [= <- <-].
  - intros Hrun [Hnin Hnd]%NoDup_cons Hnew. unfold body in Hrun.
    destruct (decide (id ∈ existing)) as [Hin|Hout].
    { apply (IH _ Hrun Hnd). intros id' Hid'. apply Hnew. now right. }
    assert (Hrest : forall v id', id' ∈ ids -> id' ∉ existing ->
              <[file_name id := v]> (files st) !! file_name id' = None).
    { intros v id' Hid' Hout'. rewrite lookup_insert_ne.
      - apply Hnew; [now right|assumption].
      - intros Heq%file_name_inj. congruence. }
    destruct (download id) as [aw_json|].
    + rewrite bool_decide_eq_false_2 in Hrun
        by (rewrite (Hnew id) by (assumption || left); now intros [? ?]).
      rewrite (IH _ Hrun Hnd); [reflexivity|]. cbn [files]. apply Hrest.
    + cbv zeta in Hrun. destruct (decide (max_fail < fail_count st + 1)%Z).
      * now injection Hrun as <- <-.
      * rewrite (IH _ Hrun Hnd); [reflexivity|]. cbn [files].
        intros id' Hid'. apply Hnew. now right.
Qed.

End Loop.

(** [fail_count = 0] and the directory as found. *)
Definition start (dir : Dir) : state :=
  {| fail_count := 0; files := dir; requests := []; unlinked := [] |}.

Lemma download_cell_eq (download : N -> option PyVal) (dir : Dir)
    (existing : list N) :
  existing_reach_id_lst dir = inr existing ->
  download_cell download dir =
  inr (for_loop download existing reach_ids (start dir)).
Proof. intros H. unfold download_cell. now rewrite H. Qed.

(** The run of the cell, with what the loop's invariants give. *)
Lemma download_cell_run (download : N -> option PyVal) (dir : Dir)
    (existing : list N) :
  existing_reach_id_lst dir = inr existing ->
  exists st fl,
    download_cell download dir = inr (st, fl) /\
    requests st `prefix_of` wanted existing reach_ids /\
    (fl = Continue -> requests st = wanted existing reach_ids) /\
    files st = foldl (save download) dir (requests st) /\
    counts_trailing_failures download st /\
    match fl with
    | Break => fail_count st = (max_fail + 1)%Z
    | Continue => (fail_count st <= max_fail)%Z
    end /\
    unlinked st = [].
Proof.
  intros H. rewrite (download_cell_eq _ _ _ H).
  destruct (for_loop download existing reach_ids (start dir)) as [st fl] eqn:E.
  exists st, fl. split; [reflexivity|].
  destruct (for_loop_run _ _ _ _ _ _ E) as (reqs & Hr & Hp & Hc & Hf).
  cbn in Hr, Hf. subst reqs.
  destruct (for_loop_counter _ _ _ _ _ _ E) as [Hinv Hfl].
  { exists [], []. cbn. repeat split; auto. }
  { cbn. unfold max_fail. lia. }
  assert (Hun : unlinked st = []).
  { apply (for_loop_no_unlink _ _ _ _ _ _ E NoDup_reach_ids).
    intros id _ Hout. cbn [start files].
    destruct (dir !! file_name id) eqn:Efile; [|reflexivity].
    destruct Hout. apply (existing_lst_file _ _ _ H). now rewrite Efile. }
  auto 10.
Qed.

Lemma requested_new (dir : Dir) (existing reqs : list N) (id : N) :
  existing_reach_id_lst dir = inr existing ->
  reqs `prefix_of` wanted existing reach_ids ->
  id ∈ reqs ->
  (id ∉ existing) /\ dir !! file_name id = None /\ (1 <= Z.of_N id < max_range)%Z.
Proof.
  intros H [k Hk] Hid.
  assert (Hw : id ∈ wanted existing reach_ids)
    by (rewrite Hk; apply elem_of_app; now left).
  apply list_elem_of_filter in Hw as [Hnin Hrange%elem_of_reach_ids].
  repeat split; try assumption; try lia.
  destruct (dir !! file_name id) eqn:E; [|reflexivity].
  destruct Hnin. apply (existing_lst_file _ _ _ H). now rewrite E.
Qed.

Lemma run_keeps (download : N -> option PyVal) (dir : Dir)
    (existing reqs : list N) (name : string) (v : PyVal) :
  existing_reach_id_lst dir = inr existing ->
  reqs `prefix_of` wanted existing reach_ids ->
  dir !! name = Some v ->
  foldl (save download) dir reqs !! name = Some v.
Proof.
  intros H Hp Hv. rewrite save_None; [assumption|].
  intros id Hid <-. destruct (requested_new _ _ _ _ H Hp Hid) as (_ & Hnone & _).
  congruence.
Qed.

(** A sample directory, with one reach saved and one file of another kind,
    and a source that knows the reaches with an even number. *)
Definition sample_dir : Dir :=
  {[ "aw_00000003.json" := PStr "three"; "readme.txt" := PNone ]}.

Definition sample_source (id : N) : option PyVal :=
  if N.even id then Some (PInt (Z.of_N id)) else None.

Lemma sample_existing : existing_reach_id_lst sample_dir = inr [3%N].
Proof. vm_compute. reflexivity. Qed.

(** Which reaches the loop asks the source for: those of
    [range(1, max_range)] that are not in the list of existing ones, in
    increasing order and each once, up to the point where it gives up, and all
    of them when it does not give up.  None of them has a file in the
    directory under the name the loop writes. *)
Theorem download_cell_requests (download : N -> option PyVal) (dir : Dir)
    (existing : list N) :
  existing_reach_id_lst dir = inr existing ->
  exists st fl,
    download_cell download dir = inr (st, fl) /\
    requests st `prefix_of` filter (fun id => id ∉ existing) reach_ids /\
    (fl = Continue ->
     requests st = filter (fun id => id ∉ existing) reach_ids) /\
    NoDup (requests st) /\
    forall id, id ∈ requests st ->
      (id ∉ existing) /\ dir !! file_name id = None /\
      (1 <= Z.of_N id < max_range)%Z.
Proof.
  intros H.
  destruct (download_cell_run download _ _ H) as (st & fl & Hrun & Hp & Hc & _).
  exists st, fl. split; [assumption|]. split; [assumption|].
  split; [assumption|]. split.
  - apply sublist_NoDup with (wanted existing reach_ids).
    + apply NoDup_filter, NoDup_reach_ids.
    + destruct Hp as [k ->]. apply sublist_inserts_r. reflexivity.
  - intros id Hid. exact (requested_new _ _ _ _ H Hp Hid).
Qed.

Lemma download_cell_requests_witness :
  exists st fl,
    download_cell sample_source sample_dir = inr (st, fl) /\
    requests st `prefix_of` filter (fun id => id ∉ [3%N]) reach_ids /\
    (fl = Continue ->
     requests st = filter (fun id => id ∉ [3%N]) reach_ids) /\
    NoDup (requests st) /\
    forall id, id ∈ requests st ->
      (id ∉ [3%N]) /\ sample_dir !! file_name id = None /\
      (1 <= Z.of_N id < max_range)%Z.
Proof. exact (download_cell_requests sample_source sample_dir [3%N] sample_existing). Defined.

(** The cell never removes a file and never changes one that was there: every
    file of the directory is in it afterwards with the same content, and the
    branch that unlinks [file_pth] before writing is never taken, a reach
    whose file exists being in the list of existing ones and no reach being
    written twice. *)
Theorem download_cell_keeps_files (download : N -> option PyVal) (dir : Dir)
    (existing : list N) :
  existing_reach_id_lst dir = inr existing ->
  exists st fl,
    download_cell download dir = inr (st, fl) /\
    (forall name v, dir !! name = Some v -> files st !! name = Some v) /\
    (forall id, id ∈ requests st -> dir !! file_name id = None) /\
    unlinked st = [].
Proof.
  intros H.
  destruct (download_cell_run download _ _ H)
    as (st & fl & Hrun & Hp & _ & Hf & _ & _ & Hun).
  exists st, fl. split; [assumption|]. split; [|split; [|exact Hun]].
  - intros name v Hv. rewrite Hf. exact (run_keeps _ _ _ _ _ _ H Hp Hv).
  - intros id Hid. now destruct (requested_new _ _ _ _ H Hp Hid) as (_ & Hnone & _).
Qed.

Lemma download_cell_keeps_files_witness :
  exists st fl,
    download_cell sample_source sample_dir = inr (st, fl) /\
    (forall name v, sample_dir !! name = Some v -> files st !! name = Some v) /\
    (forall id, id ∈ requests st -> sample_dir !! file_name id = None) /\
    unlinked st = [].
Proof. exact (download_cell_keeps_files sample_source sample_dir [3%N] sample_existing). Defined.

(** What the cell adds: each reach it asked for and got is saved under its
    own file name with the document received; every file that was not there
    before is such a file; and when the loop ends without giving up, every
    reach of the range the source has is either in the list of existing ones
    or saved. *)
Theorem download_cell_saves (download : N -> option PyVal) (dir : Dir)
    (existing : list N) :
  existing_reach_id_lst dir = inr existing ->
  exists st fl,
    download_cell download dir = inr (st, fl) /\
    (forall id aw_json, id ∈ requests st -> download id = Some aw_json ->
       files st !! file_name id = Some aw_json) /\
    (forall name v, files st !! name = Some v ->
       dir !! name = Some v \/
       exists id, id ∈ requests st /\ name = file_name id /\ download id = Some v) /\
    (fl = Continue ->
     forall id aw_json, (1 <= Z.of_N id < max_range)%Z ->
       download id = Some aw_json ->
       id ∈ existing \/ files st !! file_name id = Some aw_json).
Proof.
  intros H.
  destruct (download_cell_run download _ _ H)
    as (st & fl & Hrun & Hp & Hc & Hf & _).
  exists st, fl. split; [assumption|]. rewrite Hf. split; [|split].
  - intros id aw_json Hid D. now apply save_downloaded.
  - intros name v Hv. now apply save_Some.
  - intros Hfl id aw_json Hrange D.
    destruct (decide (id ∈ existing)) as [Hin|Hnin]; [now left|right].
    apply save_downloaded; [|assumption].
    rewrite (Hc Hfl). apply list_elem_of_filter. split; [assumption|].
    now apply elem_of_reach_ids.
Qed.

Lemma download_cell_saves_witness :
  exists st fl,
    download_cell sample_source sample_dir = inr (st, fl) /\
    (forall id aw_json, id ∈ requests st -> sample_source id = Some aw_json ->
       files st !! file_name id = Some aw_json) /\
    (forall name v, files st !! name = Some v ->
       sample_dir !! name = Some v \/
       exists id, id ∈ requests st /\ name = file_name id /\
                  sample_source id = Some v) /\
    (fl = Continue ->
     forall id aw_json, (1 <= Z.of_N id < max_range)%Z ->
       sample_source id = Some aw_json ->
       id ∈ [3%N] \/ files st !! file_name id = Some aw_json).
Proof. exact (download_cell_saves sample_source sample_dir [3%N] sample_existing). Defined.

(** The counter: when the cell ends, [fail_count] is the number of requests
    that failed since the last one that succeeded (or since the start), the
    loop has stopped early exactly when that number has passed [max_fail],
    and then it is [max_fail + 1]: the loop gives up at the 1001st failure in
    a row and at no other point. *)
Theorem download_cell_fail_count (download : N -> option PyVal) (dir : Dir)
    (existing : list N) :
  existing_reach_id_lst dir = inr existing ->
  exists st fl,
    download_cell download dir = inr (st, fl) /\
    (exists pre fails,
       requests st = (pre ++ fails)%list /\
       Z.of_nat (length fails) = fail_count st /\
       Forall (fun id => download id = None) fails /\
       (pre = [] \/ exists pre' id aw_json,
           pre = (pre' ++ [id])%list /\ download id = Some aw_json)) /\
    (fl = Break <-> (max_fail < fail_count st)%Z) /\
    (0 <= fail_count st <= max_fail + 1)%Z.
Proof.
  intros H.
  destruct (download_cell_run download _ _ H)
    as (st & fl & Hrun & _ & _ & _ & Hinv & Hfl).
  exists st, fl. split; [assumption|]. split; [exact Hinv|].
  destruct Hinv as (pre & fails & _ & Hn & _).
  destruct fl; (split; [split; [try discriminate|]|]); try reflexivity; lia.
Qed.

Lemma download_cell_fail_count_witness :
  exists st fl,
    download_cell sample_source sample_dir = inr (st, fl) /\
    (exists pre fails,
       requests st = (pre ++ fails)%list /\
       Z.of_nat (length fails) = fail_count st /\
       Forall (fun id => sample_source id = None) fails /\
       (pre = [] \/ exists pre' id aw_json,
           pre = (pre' ++ [id])%list /\ sample_source id = Some aw_json)) /\
    (fl = Break <-> (max_fail < fail_count st)%Z) /\
    (0 <= fail_count st <= max_fail + 1)%Z.
Proof. exact (download_cell_fail_count sample_source sample_dir [3%N] sample_existing). Defined.

Lemma existing_after_run (download : N -> option PyVal) (dir : Dir)
    (existing reqs : list N) :
  existing_reach_id_lst dir = inr existing ->
  reqs `prefix_of` wanted existing reach_ids ->
  exists existing',
    existing_reach_id_lst (foldl (save download) dir reqs) = inr existing' /\
    forall id, id ∈ existing' <->
      id ∈ existing \/ (id ∈ reqs /\ is_Some (download id)).
Proof.
  intros H Hp.
  destruct (existing_lst_returns (foldl (save download) dir reqs)) as [ex' Hex'].
  { intros name [v [Hv|(id & Hid & -> & D)]%save_Some] Hg.
    - destruct (Forall2_elem_l _ _ _ name (mapM_inr _ _ _ H)) as (id & _ & Hid);
        [|eauto].
      apply elem_of_glob. split; [now exists v|assumption].
    - exists id. apply existing_id_file_name_small.
      destruct (requested_new _ _ _ _ H Hp Hid) as (_ & _ & Hrange).
      unfold max_range in Hrange. lia. }
  exists ex'. split; [assumption|]. intros id.
  rewrite (existing_lst_elem _ _ Hex'), (existing_lst_elem _ _ H). split.
  - intros (name & [v [Hv|(id' & Hid' & -> & D)]%save_Some] & Hg & Hid).
    + left. exists name. split; [now exists v|auto].
    + right. apply existing_id_file_name_inv in Hid as ->.
      split; [assumption|now exists v].
  - intros [(name & [v Hv] & Hg & Hid)|[Hid [v D]]].
    + exists name. split; [|auto]. exists v. exact (run_keeps _ _ _ _ _ _ H Hp Hv).
    + exists (file_name id). split; [exists v; now apply save_downloaded|].
      split; [apply glob_aw_file_name|apply existing_id_file_name_small].
      destruct (requested_new _ _ _ _ H Hp Hid) as (_ & _ & Hrange).
      unfold max_range in Hrange. lia.
Qed.

(** Running the cell again: on the directory a run leaves, the list of
    existing reaches is built without error and holds exactly the reaches
    that were in it before and those the run got from the source; so a second
    run, against whatever source, asks for none of them again and keeps all
    their files. *)
Theorem download_cell_rerun (download download2 : N -> option PyVal) (dir : Dir)
    (existing : list N) :
  existing_reach_id_lst dir = inr existing ->
  exists st fl existing' st2 fl2,
    download_cell download dir = inr (st, fl) /\
    existing_reach_id_lst (files st) = inr existing' /\
    (forall id, id ∈ existing' <->
       id ∈ existing \/ (id ∈ requests st /\ is_Some (download id))) /\
    download_cell download2 (files st) = inr (st2, fl2) /\
    (forall id, id ∈ requests st2 -> id ∉ existing') /\
    (forall name v, files st !! name = Some v -> files st2 !! name = Some v).
Proof.
  intros H.
  destruct (download_cell_run download _ _ H)
    as (st & fl & Hrun & Hp & _ & Hf & _).
  destruct (existing_after_run download _ _ _ H Hp) as (ex' & Hex' & Hiff).
  rewrite <- Hf in Hex'.
  destruct (download_cell_run download2 _ _ Hex')
    as (st2 & fl2 & Hrun2 & Hp2 & _ & Hf2 & _).
  exists st, fl, ex', st2, fl2.
  split; [assumption|]. split; [assumption|]. split; [assumption|].
  split; [assumption|]. split.
  - intros id Hid. now destruct (requested_new _ _ _ _ Hex' Hp2 Hid).
  - intros name v Hv. rewrite Hf2. exact (run_keeps _ _ _ _ _ _ Hex' Hp2 Hv).
Qed.

Lemma download_cell_rerun_witness :
  exists st fl existing' st2 fl2,
    download_cell sample_source sample_dir = inr (st, fl) /\
    existing_reach_id_lst (files st) = inr existing' /\
    (forall id, id ∈ existing' <->
       id ∈ [3%N] \/ (id ∈ requests st /\ is_Some (sample_source id))) /\
    download_cell (fun _ => None) (files st) = inr (st2, fl2) /\
    (forall id, id ∈ requests st2 -> id ∉ existing') /\
    (forall name v, files st !! name = Some v -> files st2 !! name = Some v).
Proof.
  exact (download_cell_rerun sample_source (fun _ => None) sample_dir [3%N]
           sample_existing).
Defined.

Lemma length_wanted (existing : list N) :
  length reach_ids <= length (wanted existing reach_ids) + length existing.
Proof.
  assert (Hsplit : forall l : list N,
    length l = length (wanted existing l) +
               length (filter (fun id => id ∈ existing) l)).
  { induction l as [|id l IH]; [reflexivity|].
    unfold wanted. rewrite !filter_cons.
    destruct (decide (id ∈ existing)).
    - rewrite decide_False by tauto. cbn [length]. fold (wanted existing l). lia.
    - rewrite decide_True by assumption. cbn [length]. fold (wanted existing l). lia. }
  rewrite (Hsplit reach_ids). apply Nat.add_le_mono_l, submseteq_length.
  apply NoDup_submseteq.
  - apply NoDup_filter, NoDup_reach_ids.
  - now intros id [Hid _]%list_elem_of_filter.
Qed.

Lemma length_reach_ids : Z.of_nat (length reach_ids) = (max_range - 1)%Z.
Proof.
  unfold reach_ids. rewrite length_fmap, length_seq. unfold max_range. lia.
Qed.

Lemma save_nothing (download : N -> option PyVal) (dir : Dir) (reqs : list N) :
  (forall id, download id = None) -> foldl (save download) dir reqs = dir.
Proof.
  intros Hdown. induction reqs as [|id reqs IH] using rev_ind; [reflexivity|].
  rewrite foldl_snoc. unfold save at 1. now rewrite Hdown.
Qed.

(** A source that answers nothing: the cell asks for the first 1001 reaches
    not in the list of existing ones, stops there, and leaves the directory
    as it found it. *)
Theorem download_cell_source_down (download : N -> option PyVal) (dir : Dir)
    (existing : list N) :
  existing_reach_id_lst dir = inr existing ->
  (forall id, download id = None) ->
  (Z.of_nat (length existing) + max_fail < max_range - 1)%Z ->
  download_cell download dir =
  inr ({| fail_count := max_fail + 1;
          files := dir;
          requests := take (Z.to_nat (max_fail + 1))
                        (filter (fun id => id ∉ existing) reach_ids);
          unlinked := [] |}, Break).
Proof.
  intros H Hdown Hlen.
  destruct (download_cell_run download _ _ H)
    as (st & fl & Hrun & Hp & Hc & Hf & Hinv & Hfl & Hun).
  rewrite Hrun. rewrite (save_nothing _ _ _ Hdown) in Hf.
  destruct Hinv as (pre & fails & Hr & Hn & _ & [->|(pre' & id & j & _ & D)]);
    [|rewrite Hdown in D; discriminate].
  cbn [app] in Hr. rewrite <- Hr in Hn.
  pose proof (length_wanted existing) as Hw.
  pose proof length_reach_ids as Hl.
  destruct fl.
  - rewrite (Hc eq_refl) in Hn. lia.
  - assert (Hreq : requests st =
                   take (Z.to_nat (max_fail + 1)) (wanted existing reach_ids)).
    { destruct Hp as [k Hk]. rewrite Hk.
      rewrite take_app_length'; [reflexivity|]. lia. }
    unfold wanted in Hreq. destruct st as [fc fs rs us].
    cbn [fail_count files requests unlinked] in Hfl, Hf, Hreq, Hun.
    rewrite Hfl, Hf, Hreq, Hun. reflexivity.
Qed.

Lemma download_cell_source_down_witness :
  download_cell (fun _ => None) sample_dir =
  inr ({| fail_count := max_fail + 1;
          files := sample_dir;
          requests := take (Z.to_nat (max_fail + 1))
                        (filter (fun id => id ∉ [3%N]) reach_ids);
          unlinked := [] |}, Break).
Proof.
  apply (download_cell_source_down (fun _ => None) sample_dir [3%N]).
  - exact sample_existing.
  - reflexivity.
  - reflexivity.
Defined.

(** ** The sorted listing *)

Lemma path_le_total : Total path_le.
Proof. intros s t. apply String.leb_total. Qed.

Lemma glob_names_NoDup (dir : Dir) :
  NoDup (List.filter glob_aw (map_to_list dir).*1).
Proof.
  apply NoDup_ListNoDup, List.NoDup_filter, NoDup_ListNoDup, NoDup_fst_map_to_list.
Qed.

Lemma raw_json_lst_perm (dir : Dir) :
  raw_json_lst dir ≡ₚ List.filter glob_aw (map_to_list dir).*1.
Proof. apply merge_sort_Permutation. Qed.

Lemma elem_of_raw_json_lst (dir : Dir) (name : string) :
  name ∈ raw_json_lst dir <-> is_Some (dir !! name) /\ glob_aw name = true.
Proof. rewrite raw_json_lst_perm. apply elem_of_glob. Qed.

Lemma names_of_ids (l : list string) :
  Forall (fun name => exists id, (id < 10 ^ 8)%N /\ name = file_name id) l ->
  exists ids, l = file_name <$> ids /\ Forall (fun id => (id < 10 ^ 8)%N) ids.
Proof.
  induction 1 as [|name l (id & Hid & ->) _ (ids & -> & Hids)]; [now exists []|].
  exists (id :: ids). split; [reflexivity|now constructor].
Qed.

Lemma Sorted_file_names (ids : list N) :
  Forall (fun id => (id < 10 ^ 8)%N) ids ->
  Sorted path_le (file_name <$> ids) -> NoDup ids -> StronglySorted N.lt ids.
Proof.
  intros Hids Hs Hnd.
  assert (Hle : StronglySorted N.le ids).
  { apply Sorted_StronglySorted; [intros x y z; apply N.le_trans|].
    clear Hnd. induction Hids as [|a ids Ha Hids IH]; [constructor|].
    rewrite fmap_cons in Hs. apply Sorted_inv in Hs as [Hs Hhd].
    constructor; [now apply IH|].
    destruct Hids as [|b ids Hb _]; constructor.
    rewrite fmap_cons in Hhd. apply HdRel_inv in Hhd.
    now apply path_le_file_name. }
  clear Hs Hids. induction Hle as [|a ids Hs' IH Hall]; constructor.
  - apply IH. now apply NoDup_cons in Hnd as [_ ?].
  - apply NoDup_cons in Hnd as [Hnin _]. rewrite Forall_forall in Hall |- *.
    intros x Hx. specialize (Hall x Hx).
    assert (x <> a) by (intros ->; contradiction). lia.
Qed.

Lemma raw_json_lst_ids (dir : Dir) :
  (forall name, is_Some (dir !! name) -> glob_aw name = true ->
     exists id, (id < 10 ^ 8)%N /\ name = file_name id) ->
  exists ids,
    raw_json_lst dir = file_name <$> ids /\
    StronglySorted N.lt ids /\
    mapM existing_id (raw_json_lst dir) = inr ids /\
    forall id, id ∈ ids <-> is_Some (dir !! file_name id).
Proof.
  intros Hnames.
  destruct (names_of_ids (raw_json_lst dir)) as (ids & Hl & Hids).
  { apply Forall_forall. intros name [Hn Hg]%elem_of_raw_json_lst. auto. }
  exists ids. split; [exact Hl|].
  assert (Hnd : NoDup ids).
  { apply (NoDup_fmap_1 file_name). rewrite <- Hl, raw_json_lst_perm.
    apply glob_names_NoDup. }
  split.
  { apply Sorted_file_names; [exact Hids| |exact Hnd].
    rewrite <- Hl. apply Sorted_merge_sort, path_le_total. }
  split.
  { rewrite Hl. clear -Hids. induction Hids as [|id ids Hid _ IH]; [reflexivity|].
    rewrite fmap_cons. cbn [mapM].
    now rewrite (existing_id_file_name_small _ Hid), IH. }
  intros id. split.
  - intros Hid.
    assert (H : file_name id ∈ raw_json_lst dir)
      by (rewrite Hl; now apply list_elem_of_fmap_2).
    now apply elem_of_raw_json_lst in H as [? _].
  - intros Hid.
    assert (H : file_name id ∈ raw_json_lst dir).
    { apply elem_of_raw_json_lst. split; [assumption|apply glob_aw_file_name]. }
    rewrite Hl in H. apply list_elem_of_fmap in H as (id' & Heq & Hin).
    now apply file_name_inj in Heq as ->.
Qed.

(** The files the publishing notebooks read come in the order of the reaches:
    in a directory whose listed files are files the loop wrote (reaches below
    10^8), [raw_json_lst] is the names of the reaches that have a file, each
    once and in increasing order of the identifier, and the identifier read
    from each name is that reach's. *)
Theorem raw_json_lst_in_id_order (dir : Dir) :
  (forall name, is_Some (dir !! name) -> glob_aw name = true ->
     exists id, (id < 10 ^ 8)%N /\ name = file_name id) ->
  exists ids,
    raw_json_lst dir = file_name <$> ids /\
    StronglySorted N.lt ids /\
    mapM existing_id (raw_json_lst dir) = inr ids /\
    forall id, id ∈ ids <-> is_Some (dir !! file_name id).
Proof. exact (raw_json_lst_ids dir). Qed.

Lemma raw_json_lst_in_id_order_witness :
  let dir : Dir :=
    <["aw_00001372.json" := PNone]>
      (<["aw_00000012.json" := PNone]> {[ "readme.txt" := PNone ]}) in
  exists ids,
    raw_json_lst dir = file_name <$> ids /\
    StronglySorted N.lt ids /\
    mapM existing_id (raw_json_lst dir) = inr ids /\
    forall id, id ∈ ids <-> is_Some (dir !! file_name id).
Proof.
  intros dir. apply (raw_json_lst_in_id_order dir).
  intros name [v Hv] Hg.
  apply lookup_insert_Some in Hv as [[<- _]|[_ Hv]];
    [exists 1372%N; split; reflexivity|].
  apply lookup_insert_Some in Hv as [[<- _]|[_ Hv]];
    [exists 12%N; split; reflexivity|].
  apply lookup_singleton_Some in Hv as [<- _]. discriminate Hg.
Defined.

(** ** From the download to the listing *)

Lemma StronglySorted_seq (a n : nat) : StronglySorted lt (seq a n).
Proof.
  revert a. induction n as [|n IH]; intros a; cbn [seq]; constructor.
  - apply IH.
  - apply Forall_forall. intros x Hx%elem_of_seq. lia.
Qed.

Lemma StronglySorted_reach_ids : StronglySorted N.lt reach_ids.
Proof.
  unfold reach_ids.
  apply (StronglySorted_fmap _ lt); [intros x y; lia|apply StronglySorted_seq].
Qed.

Lemma StronglySorted_filter {A} (R : relation A) (P : A -> Prop)
    `{forall x, Decision (P x)} (l : list A) :
  StronglySorted R l -> StronglySorted R (filter P l).
Proof.
  induction 1 as [|a l Hs IH Hall]; [constructor|].
  rewrite filter_cons. destruct (decide (P a)); [|assumption].
  constructor; [assumption|].
  apply Forall_forall. intros x [_ Hx]%list_elem_of_filter.
  rewrite Forall_forall in Hall. auto.
Qed.

(** The two notebooks together: after the download cell has run in a
    directory without any reach file, the listing the publishing notebooks
    read is the files of the reaches that were downloaded, in the order of
    the requests, which is the order of the identifiers, and the identifier
    read from each file name is the reach requested. *)
Theorem downloaded_listing (download : N -> option PyVal) (dir : Dir) :
  (forall name, is_Some (dir !! name) -> glob_aw name = false) ->
  exists st fl,
    download_cell download dir = inr (st, fl) /\
    raw_json_lst (files st) =
      file_name <$> filter (fun id => is_Some (download id)) (requests st) /\
    mapM existing_id (raw_json_lst (files st)) =
      inr (filter (fun id => is_Some (download id)) (requests st)).
Proof.
  intros Hnone.
  assert (Hex : existing_reach_id_lst dir = inr []).
  { unfold existing_reach_id_lst.
    replace (List.filter glob_aw (map_to_list dir).*1) with (@nil string);
      [reflexivity|].
    symmetry. apply SchemaFacts.filter_all_false, Forall_forall.
    intros name ([k v] & -> & Hkv%elem_of_map_to_list)%list_elem_of_fmap.
    apply Hnone. now exists v. }
  destruct (download_cell_run download _ _ Hex)
    as (st & fl & Hrun & Hp & _ & Hf & _).
  exists st, fl. split; [exact Hrun|].
  assert (Hfile : forall id, is_Some (files st !! file_name id) <->
                    id ∈ requests st /\ is_Some (download id)).
  { intros id. rewrite Hf. split.
    - intros [v [Hv|(id' & Hid' & Heq & D)]%save_Some].
      + pose proof (glob_aw_file_name id) as Hg.
        rewrite Hnone in Hg by (now exists v). discriminate.
      + apply file_name_inj in Heq as ->. split; [assumption|now exists v].
    - intros [Hid [v D]]. exists v. now apply save_downloaded. }
  destruct (raw_json_lst_ids (files st)) as (ids & Hl & Hs & Hm & Hin).
  { intros name [v Hv] Hg. rewrite Hf in Hv.
    apply save_Some in Hv as [Hv|(id & Hid & -> & _)].
    - rewrite Hnone in Hg by (now exists v). discriminate.
    - exists id. split; [|reflexivity].
      destruct (requested_new _ _ _ _ Hex Hp Hid) as (_ & _ & Hrange).
      unfold max_range in Hrange. lia. }
  assert (Hreq : StronglySorted N.lt (requests st)).
  { destruct Hp as [k Hk].
    pose proof (StronglySorted_filter N.lt (fun id => id ∉ []) _
                  StronglySorted_reach_ids) as Hw.
    fold (wanted [] reach_ids) in Hw. rewrite Hk in Hw.
    now apply StronglySorted_app in Hw as (_ & Hw & _). }
  assert (Heq : ids = filter (fun id => is_Some (download id)) (requests st)).
  { assert (Hirr : forall l : list N, StronglySorted N.lt l -> NoDup l).
    { induction 1 as [|a l _ IH Hall]; constructor; [|assumption].
      intros Ha. rewrite Forall_forall in Hall. specialize (Hall a Ha). lia. }
    apply (StronglySorted_unique_strong N.lt).
    - intros x y _ _ Hxy Hyx. lia.
    - exact Hs.
    - now apply StronglySorted_filter.
    - apply NoDup_Permutation.
      + now apply Hirr.
      + apply Hirr. now apply StronglySorted_filter.
      + intros id. rewrite Hin, Hfile, list_elem_of_filter. tauto. }
  rewrite <- Heq. split; assumption.
Qed.

Lemma downloaded_listing_witness :
  exists st fl,
    download_cell sample_source {[ "readme.txt" := PNone ]} = inr (st, fl) /\
    raw_json_lst (files st) =
      file_name <$> filter (fun id => is_Some (sample_source id)) (requests st) /\
    mapM existing_id (raw_json_lst (files st)) =
      inr (filter (fun id => is_Some (sample_source id)) (requests st)).
Proof.
  apply downloaded_listing.
  intros name [v Hv]. apply lookup_singleton_Some in Hv as [<- _]. reflexivity.
Defined.

End DownloadFacts.

(** ** The field list and the layer definition *)

Module FieldListFacts.
Import Schema SchemaFacts.

(** The exception a field description stops the comprehension with, if any:
    [KeyError] for a description without ["type"], or one of another type
    than the row identifier's without ["name"]; [TypeError] for a name that
    cannot be hashed. *)
Definition field_error (fld : gmap string PyVal) : option exn :=
  match fld !! "type" with
  | None => Some KeyError
  | Some ty =>
      if is_oid_type ty then None
      else match fld !! "name" with
           | None => Some KeyError
           | Some (PList _) | Some (PDict _) => Some TypeError
           | Some _ => None
           end
  end.

(** The length [add_fld_meta] finds for a name. *)
Definition table_length (ld : gmap string Z) (name : PyVal) : option Z :=
  match name with
  | PStr s => ld !! s
  | _ => None
  end.

Lemma add_fld_meta_cases (ld : gmap string Z) (fld : gmap string PyVal)
    (nullable editable : bool) :
  add_fld_meta ld fld nullable editable =
  match fld !! "name" with
  | None => inl KeyError
  | Some (PList _) | Some (PDict _) => inl TypeError
  | Some name =>
      inr (match table_length ld name with
           | Some n => <["length" := PInt n]> fld
           | None => fld
           end)
  end.
Proof.
  unfold add_fld_meta, getitem.
  destruct (fld !! "name") as [[| | | |s| |]|]; cbn; try reflexivity.
  now destruct (ld !! s).
Qed.

Lemma add_fld_meta_again (ld : gmap string Z) (fld fld' : gmap string PyVal)
    (nullable editable : bool) :
  add_fld_meta ld fld nullable editable = inr fld' ->
  add_fld_meta ld fld' nullable editable = inr fld'.
Proof.
  intros H.
  assert (Hname : fld' !! "name" = fld !! "name")
    by (now apply (add_fld_meta_other_keys _ _ _ _ _ _ H)).
  rewrite add_fld_meta_cases in H. rewrite add_fld_meta_cases, Hname.
  destruct (fld !! "name") as [name|]; [|discriminate].
  assert (Hr : inr (match table_length ld name with
                    | Some n => <["length" := PInt n]> fld
                    | None => fld
                    end) = (inr fld' : result _) ->
               inr (match table_length ld name with
                    | Some n => <["length" := PInt n]> fld'
                    | None => fld'
                    end) = (inr fld' : result (gmap string PyVal))).
  { intros [= <-]. destruct (table_length ld name); [|reflexivity].
    now rewrite insert_insert_eq. }
  destruct name; try discriminate; exact (Hr H).
Qed.

Lemma fields_comprehension_cons (ld : gmap string Z) (fld : gmap string PyVal)
    (fs : list (gmap string PyVal)) :
  fields_comprehension ld (fld :: fs) =
  match fld !! "type" with
  | None => inl KeyError
  | Some ty =>
      if is_oid_type ty then fields_comprehension ld fs
      else match add_fld_meta ld fld true true with
           | inl e => inl e
           | inr fld' =>
               match fields_comprehension ld fs with
               | inl e => inl e
               | inr rest => inr (fld' :: rest)
               end
           end
  end.
Proof.
  cbn [fields_comprehension]. unfold getitem.
  destruct (fld !! "type") as [ty|]; cbn; [|reflexivity].
  destruct (is_oid_type ty); [reflexivity|].
  destruct (add_fld_meta ld fld true true); cbn; [reflexivity|].
  now destruct (fields_comprehension ld fs).
Qed.

Lemma survives_type (fld : gmap string PyVal) (ty : PyVal) :
  fld !! "type" = Some ty -> survives fld = negb (is_oid_type ty).
Proof. intros H. unfold survives, has_oid_type. now rewrite H. Qed.

(** The fields kept, against the source fields that survive, in order. *)
Lemma fields_comprehension_pairs (ld : gmap string Z)
    (fs kept : list (gmap string PyVal)) :
  fields_comprehension ld fs = inr kept ->
  Forall2 (fun fld fld' =>
             has_oid_type fld = false /\ is_Some (fld !! "type") /\
             add_fld_meta ld fld true true = inr fld')
          (List.filter survives fs) kept.
Proof.
  revert kept. induction fs as [|fld fs IH]; intros kept.
  - intros [= <-]. constructor.
  - rewrite fields_comprehension_cons. cbn [List.filter].
    destruct (fld !! "type") as [ty|] eqn:Ety; [|discriminate].
    rewrite (survives_type _ _ Ety).
    destruct (is_oid_type ty) eqn:Eoid; cbn [negb]; [apply IH|].
    destruct (add_fld_meta ld fld true true) as [e|fld'] eqn:Eadd; [discriminate|].
    destruct (fields_comprehension ld fs) as [e|rest]; [discriminate|].
    intros [= <-]. constructor; [|now apply IH].
    unfold has_oid_type. rewrite Ety. eauto.
Qed.

Lemma fields_comprehension_app (ld : gmap string Z)
    (l1 l2 kept1 kept2 : list (gmap string PyVal)) :
  fields_comprehension ld l1 = inr kept1 ->
  fields_comprehension ld l2 = inr kept2 ->
  fields_comprehension ld (l1 ++ l2) = inr (kept1 ++ kept2)%list.
Proof.
  intros H1 H2. revert kept1 H1. induction l1 as [|fld l1 IH]; intros kept1.
  - now intros [= <-].
  - cbn [app]. rewrite !fields_comprehension_cons.
    destruct (fld !! "type") as [ty|]; [|discriminate].
    destruct (is_oid_type ty); [apply IH|].
    destruct (add_fld_meta ld fld true true) as [e|fld']; [discriminate|].
    destruct (fields_comprehension ld l1) as [e|rest]; [discriminate|].
    intros [= <-]. now rewrite (IH rest eq_refl).
Qed.

Lemma fields_comprehension_again (ld : gmap string Z)
    (fs kept : list (gmap string PyVal)) :
  fields_comprehension ld fs = inr kept ->
  fields_comprehension ld kept = inr kept.
Proof.
  intros H%fields_comprehension_pairs.
  induction H as [|fld fld' l k (Hoid & [ty Hty] & Hadd) _ IH]; [reflexivity|].
  rewrite fields_comprehension_cons.
  assert (Hty' : fld' !! "type" = Some ty).
  { rewrite <- Hty. now apply (add_fld_meta_other_keys _ _ _ _ _ _ Hadd). }
  rewrite Hty'. unfold has_oid_type in Hoid. rewrite Hty in Hoid. rewrite Hoid.
  now rewrite (add_fld_meta_again _ _ _ _ _ Hadd), IH.
Qed.

Lemma fields_inv (ld : gmap string Z) (fs flds : list (gmap string PyVal)) :
  fields ld fs = inr flds ->
  exists kept, fields_comprehension ld fs = inr kept /\
               flds = (kept ++ [oid_fld])%list.
Proof.
  unfold fields. destruct (fields_comprehension ld fs) as [e|kept]; [discriminate|].
  intros [= <-]. eauto.
Qed.

(** A table and source fields: two string attributes, one of them with a
    length in the table, and the row identifier the package inferred. *)
Definition sample_table : gmap string Z := {[ "section" := 22%Z ]}.

Definition src_river : gmap string PyVal :=
  {[ "name" := PStr "river"; "type" := PStr "esriFieldTypeString";
     "length" := PInt 255 ]}.

Definition sample_fields : list (gmap string PyVal) :=
  [src_oid; src_section; src_river].

Lemma sample_fields_run :
  fields sample_table sample_fields =
  inr [ <["length" := PInt 22]> src_section; src_river; oid_fld ].
Proof. vm_compute. reflexivity. Qed.

(** The field list keeps the order of the source: it is the source fields of
    another type than the row identifier's, one for one and in their order,
    each unchanged but for ["length"], which is the table's length for the
    field's name where the table has one and the source's own otherwise; and
    then [oid_fld]. *)
Theorem fields_in_order (ld : gmap string Z) (fs flds : list (gmap string PyVal)) :
  fields ld fs = inr flds ->
  exists kept,
    flds = (kept ++ [oid_fld])%list /\
    Forall2 (fun fld fld' =>
               has_oid_type fld = false /\
               (forall k, k <> "length" -> fld' !! k = fld !! k) /\
               exists name, fld !! "name" = Some name /\
                 fld' !! "length" =
                 match table_length ld name with
                 | Some n => Some (PInt n)
                 | None => fld !! "length"
                 end)
            (List.filter survives fs) kept.
Proof.
  intros (kept & Hk & ->)%fields_inv. exists kept. split; [reflexivity|].
  apply fields_comprehension_pairs in Hk.
  eapply Forall2_impl; [exact Hk|]. cbn beta.
  intros fld fld' (Hoid & _ & Hadd). split; [assumption|]. split.
  - intros k Hk'. now apply (add_fld_meta_other_keys _ _ _ _ _ _ Hadd).
  - rewrite add_fld_meta_cases in Hadd.
    destruct (fld !! "name") as [name|]; [|discriminate].
    exists name. split; [reflexivity|].
    assert (Hr : inr (match table_length ld name with
                      | Some n => <["length" := PInt n]> fld
                      | None => fld
                      end) = (inr fld' : result _) ->
                 fld' !! "length" =
                 match table_length ld name with
                 | Some n => Some (PInt n)
                 | None => fld !! "length"
                 end).
    { intros [= <-]. destruct (table_length ld name); [|reflexivity].
      apply lookup_insert_eq. }
    destruct name; try discriminate; exact (Hr Hadd).
Qed.

Lemma fields_in_order_witness :
  exists kept,
    [ <["length" := PInt 22]> src_section; src_river; oid_fld ]
      = (kept ++ [oid_fld])%list /\
    Forall2 (fun fld fld' =>
               has_oid_type fld = false /\
               (forall k, k <> "length" -> fld' !! k = fld !! k) /\
               exists name, fld !! "name" = Some name /\
                 fld' !! "length" =
                 match table_length sample_table name with
                 | Some n => Some (PInt n)
                 | None => fld !! "length"
                 end)
            (List.filter survives sample_fields) kept.
Proof. exact (fields_in_order sample_table sample_fields _ sample_fields_run). Defined.

(** The comprehension over the source list after the call has updated its
    descriptions in place. *)
Lemma fields_comprehension_in_place (ld : gmap string Z)
    (fs fs' kept : list (gmap string PyVal)) :
  fields_comprehension ld fs = inr kept ->
  Forall2 (fun fld fld' =>
             if survives fld then add_fld_meta ld fld true true = inr fld'
             else fld' = fld) fs fs' ->
  fields_comprehension ld fs' = inr kept.
Proof.
  intros Hk Hfs. revert kept Hk.
  induction Hfs as [|fld fld' fs fs' Hfld _ IH]; intros kept; [trivial|].
  rewrite !fields_comprehension_cons.
  destruct (fld !! "type") as [ty|] eqn:Ety; [|discriminate].
  rewrite (survives_type _ _ Ety) in Hfld.
  destruct (is_oid_type ty) eqn:Eoid; cbn [negb] in Hfld.
  - subst fld'. rewrite Ety, Eoid. apply IH.
  - assert (Ety' : fld' !! "type" = Some ty).
    { rewrite <- Ety. now apply (add_fld_meta_other_keys _ _ _ _ _ _ Hfld). }
    rewrite Ety', Eoid, Hfld, (add_fld_meta_again _ _ _ _ _ Hfld).
    destruct (fields_comprehension ld fs) as [e|rest]; [discriminate|].
    intros [= <-]. now rewrite (IH rest eq_refl).
Qed.

(** Running the cell again changes nothing: [fields] of the list [fields]
    returned is that list again, the lengths set a second time to the same
    values and [oid_fld] dropped and appended again; and so is [fields] of
    the source list once the first run has updated its descriptions in
    place. *)
Theorem fields_idempotent (ld : gmap string Z) (fs flds : list (gmap string PyVal)) :
  fields ld fs = inr flds ->
  fields ld flds = inr flds /\
  forall fs',
    Forall2 (fun fld fld' =>
               if survives fld then add_fld_meta ld fld true true = inr fld'
               else fld' = fld) fs fs' ->
    fields ld fs' = inr flds.
Proof.
  intros (kept & Hk & ->)%fields_inv. unfold fields. split.
  - rewrite (fields_comprehension_app ld kept [oid_fld] kept []).
    + now rewrite app_nil_r.
    + exact (fields_comprehension_again _ _ _ Hk).
    + reflexivity.
  - intros fs' Hfs'. now rewrite (fields_comprehension_in_place _ _ _ _ Hk Hfs').
Qed.

Lemma fields_idempotent_witness :
  fields sample_table
    [ <["length" := PInt 22]> src_section; src_river; oid_fld ] =
  inr [ <["length" := PInt 22]> src_section; src_river; oid_fld ] /\
  forall fs',
    Forall2 (fun fld fld' =>
               if survives fld
               then add_fld_meta sample_table fld true true = inr fld'
               else fld' = fld) sample_fields fs' ->
    fields sample_table fs' =
    inr [ <["length" := PInt 22]> src_section; src_river; oid_fld ].
Proof. exact (fields_idempotent sample_table sample_fields _ sample_fields_run). Defined.

Lemma fields_comprehension_head (ld : gmap string Z) (fld : gmap string PyVal)
    (fs : list (gmap string PyVal)) :
  match field_error fld with
  | Some e => fields_comprehension ld (fld :: fs) = inl e
  | None =>
      match fields_comprehension ld fs with
      | inl e => fields_comprehension ld (fld :: fs) = inl e
      | inr _ => exists kept, fields_comprehension ld (fld :: fs) = inr kept
      end
  end.
Proof.
  rewrite fields_comprehension_cons, add_fld_meta_cases. unfold field_error.
  destruct (fld !! "type") as [ty|]; [|reflexivity].
  destruct (is_oid_type ty).
  { destruct (fields_comprehension ld fs); eauto. }
  destruct (fld !! "name") as [[| | | | | |]|]; try reflexivity;
    destruct (fields_comprehension ld fs); eauto.
Qed.

Lemma fields_comprehension_error (ld : gmap string Z) (fs : list (gmap string PyVal)) :
  match fields_comprehension ld fs with
  | inr _ => Forall (fun fld => field_error fld = None) fs
  | inl e =>
      exists pre fld post,
        fs = (pre ++ fld :: post)%list /\
        Forall (fun fld => field_error fld = None) pre /\
        field_error fld = Some e
  end.
Proof.
  induction fs as [|fld fs IH]; [constructor|].
  pose proof (fields_comprehension_head ld fld fs) as Hhead.
  destruct (field_error fld) as [e|] eqn:Efld.
  - rewrite Hhead. exists [], fld, fs. split; [reflexivity|]. split; [constructor|assumption].
  - destruct (fields_comprehension ld fs) as [e|rest].
    + rewrite Hhead. destruct IH as (pre & fld' & post & -> & Hpre & He).
      exists (fld :: pre), fld', post. split; [reflexivity|].
      split; [now constructor|assumption].
    + destruct Hhead as [kept ->]. now constructor.
Qed.

(** When the field list is not built: [fields] fails exactly when some source
    field has no ["type"], or is of another type than the row identifier's
    and has no ["name"] or a name that cannot be a dictionary key; the
    exception is the one of the first such field, [KeyError] or [TypeError],
    whatever the table holds. *)
Theorem fields_error_spec (ld : gmap string Z) (fs : list (gmap string PyVal)) :
  match fields ld fs with
  | inr _ => Forall (fun fld => field_error fld = None) fs
  | inl e =>
      (e = KeyError \/ e = TypeError) /\
      exists pre fld post,
        fs = (pre ++ fld :: post)%list /\
        Forall (fun fld => field_error fld = None) pre /\
        field_error fld = Some e
  end.
Proof.
  pose proof (fields_comprehension_error ld fs) as H. unfold fields.
  destruct (fields_comprehension ld fs) as [e|kept]; cbn; [|exact H].
  split; [|exact H]. destruct H as (_ & fld & _ & _ & _ & He).
  unfold field_error in He.
  destruct (fld !! "type") as [ty|]; [|left; congruence].
  destruct (is_oid_type ty); [discriminate|].
  destruct (fld !! "name") as [[| | | | | |]|]; try discriminate;
    injection He as <-; auto.
Qed.

Lemma elem_of_observed (attrs : list (gmap string PyVal)) (r : gmap string PyVal)
    (s v : string) :
  r ∈ attrs -> r !! s = Some (PStr v) -> str_len v ∈ observed s attrs.
Proof.
  intros Hr Hv. unfold observed. apply list_elem_of_omap.
  exists r. split; [assumption|]. now rewrite Hv.
Qed.

(** The two cells together: with the table derived from the attribute
    mappings of the reaches (strings shorter than 2^53 characters), every
    field of the list that is named after an attribute, the appended row
    identifier apart, has a length, and no string value any reach holds for
    that attribute is longer. *)
Theorem schema_fits_strings (attrs : list (gmap string PyVal))
    (fs : list (gmap string PyVal)) :
  Forall (lengths_below (2 ^ 53)) attrs ->
  exists ld, len_dict attrs = inr ld /\
    forall flds fld s r v,
      fields ld fs = inr flds ->
      fld ∈ flds -> has_oid_type fld = false ->
      fld !! "name" = Some (PStr s) ->
      r ∈ attrs -> r !! s = Some (PStr v) ->
      exists n, fld !! "length" = Some (PInt n) /\ (str_len v <= n)%Z.
Proof.
  intros Hlen. destruct (len_dict_returns attrs Hlen) as [Hd Hobs].
  eexists. split; [exact Hd|].
  intros flds fld s r v (kept & Hk & ->)%fields_inv Hfld Hoid Hname Hr Hv.
  apply elem_of_app in Hfld as [Hfld|Hfld%list_elem_of_singleton];
    [|subst fld; discriminate Hoid].
  destruct (DownloadFacts.Forall2_elem_r _ _ _ _ (fields_comprehension_pairs _ _ _ Hk) Hfld)
    as (fld0 & _ & _ & _ & Hadd).
  assert (Hname0 : fld0 !! "name" = Some (PStr s)).
  { rewrite <- Hname. symmetry.
    now apply (add_fld_meta_other_keys _ _ _ _ _ _ Hadd). }
  rewrite (add_fld_meta_named _ _ _ _ _ Hname0) in Hadd.
  pose proof (elem_of_observed _ _ _ _ Hr Hv) as Hin.
  rewrite lookup_fmap, lookup_table in Hadd.
  destruct (foldr _ None (observed s attrs)) as [m|] eqn:Em.
  - apply list_max_is_max in Em. cbn in Hadd. injection Hadd as <-.
    exists (headroom_val m). split; [apply lookup_insert_eq|].
    destruct (Hobs s m Em) as [Hrange Hh]. destruct Em as [_ Hall].
    specialize (Hall _ Hin).
    pose proof (F64Facts.ceil_mul_ge m (headroom_val m) Hrange Hh). lia.
  - apply list_max_nil in Em. rewrite Em in Hin. now apply elem_of_nil in Hin.
Qed.

Lemma schema_fits_strings_witness :
  Forall (lengths_below (2 ^ 53)) [reach_a; reach_b] /\
  exists ld, len_dict [reach_a; reach_b] = inr ld /\
    forall flds fld s r v,
      fields ld sample_fields = inr flds ->
      fld ∈ flds -> has_oid_type fld = false ->
      fld !! "name" = Some (PStr s) ->
      r ∈ [reach_a; reach_b] -> r !! s = Some (PStr v) ->
      exists n, fld !! "length" = Some (PInt n) /\ (str_len v <= n)%Z.
Proof.
  assert (H : Forall (lengths_below (2 ^ 53)) [reach_a; reach_b]).
  { repeat constructor; apply lengths_below_singleton; vm_compute; reflexivity. }
  split; [exact H|]. exact (schema_fits_strings [reach_a; reach_b] sample_fields H).
Defined.

(** The layer definition names its row identifier consistently: whatever the
    source fields, the field list it carries ends with [oid_fld], no other
    field of the list has the row identifier's type, and [objectIdField], the
    name in [uniqueField] and the field of the primary-key index are all the
    name of that field. *)
Theorem lyr_def_identifier (ld : gmap string Z) (fs flds : list (gmap string PyVal))
    (service_name : string) :
  fields ld fs = inr flds ->
  let d := lyr_def service_name flds in
  (forall fld, fld ∈ lyr_fields d -> has_oid_type fld = true -> fld = oid_fld) /\
  last (lyr_fields d) = Some oid_fld /\
  length (List.filter has_oid_type (lyr_fields d)) = 1 /\
  oid_fld !! "name" = Some (PStr (objectIdField d)) /\
  uniqueField d !! "name" = Some (PStr (objectIdField d)) /\
  Forall (fun idx => idx !! "fields" = Some (PStr (objectIdField d))) (indexes d).
Proof.
  intros (kept & Hk & ->)%fields_inv d. cbn [d lyr_def lyr_fields].
  destruct (fields_comprehension_kept ld (fun _ => true) fs kept) as [Hno _];
    [reflexivity|exact Hk|].
  split; [|split; [|split]].
  - intros fld [Hfld|Hfld%list_elem_of_singleton]%elem_of_app Hoid; [|assumption].
    rewrite Forall_forall in Hno. rewrite (Hno _ Hfld) in Hoid. discriminate.
  - apply last_snoc.
  - rewrite filter_app_length, (filter_all_false _ _ Hno). reflexivity.
  - split; [reflexivity|]. split; [reflexivity|]. repeat constructor.
Qed.

Lemma lyr_def_identifier_witness :
  let d := lyr_def "reaches"
             [ <["length" := PInt 22]> src_section; src_river; oid_fld ] in
  (forall fld, fld ∈ lyr_fields d -> has_oid_type fld = true -> fld = oid_fld) /\
  last (lyr_fields d) = Some oid_fld /\
  length (List.filter has_oid_type (lyr_fields d)) = 1 /\
  oid_fld !! "name" = Some (PStr (objectIdField d)) /\
  uniqueField d !! "name" = Some (PStr (objectIdField d)) /\
  Forall (fun idx => idx !! "fields" = Some (PStr (objectIdField d))) (indexes d).
Proof.
  exact (lyr_def_identifier sample_table sample_fields _ "reaches" sample_fields_run).
Defined.

End FieldListFacts.

(** ** Batch sizes that are not positive *)

Module UploadEdgeFacts.
Import Upload.

Section AnySize.
Context {A : Type}.

Lemma upload_chunks_nonpositive (records : list A) (chunk_size : Z) :
  (chunk_size <= 0)%Z ->
  upload_chunks records chunk_size =
  if decide (chunk_size = 0)%Z then inl ValueError else inr [].
Proof.
  intros Hc. unfold upload_chunks, py_range.
  destruct (decide (chunk_size = 0)%Z); [reflexivity|].
  destruct (decide (0 < chunk_size)%Z); [lia|reflexivity].
Qed.

(** The batches for any [chunk_size]: the cell fails exactly for the size 0,
    with the [ValueError] of [range]; for a negative size it returns no batch
    at all, without an error; so what it returns carries the records exactly
    when the size is positive or there is no record. *)
Theorem upload_chunks_any_size (records : list A) (chunk_size : Z) :
  match upload_chunks records chunk_size with
  | inl e => e = ValueError /\ chunk_size = 0%Z
  | inr batches =>
      chunk_size <> 0%Z /\
      ((chunk_size < 0)%Z -> batches = []) /\
      (concat batches = records <-> (0 < chunk_size)%Z \/ records = [])
  end.
Proof.
  destruct (decide (0 < chunk_size)%Z) as [Hpos|Hneg].
  - rewrite (UploadFacts.upload_chunks_eq records chunk_size Hpos).
    split; [lia|]. split; [lia|]. split; [auto|]. intros _.
    rewrite UploadFacts.concat_chunks_of. apply take_ge.
    pose proof (UploadFacts.n_chunks_ceil (length records) chunk_size Hpos). nia.
  - rewrite upload_chunks_nonpositive by lia.
    destruct (decide (chunk_size = 0)%Z) as [->|Hne]; [auto|].
    split; [assumption|]. split; [reflexivity|]. cbn [concat]. split.
    + intros <-. now right.
    + intros [Hpos| ->]; [lia|reflexivity].
Qed.

End AnySize.

End UploadEdgeFacts.

(** ** Rounding to nearest *)

Module RoundingFacts.
Import F64 F64Facts.
Local Open Scope Z_scope.

(** What [k] right shifts keep of [M]: the quotient, whether the remainder
    reaches the half, and whether it is neither zero nor the half. *)
Definition shifted (M k : Z) (mrs : shr_record) : Prop :=
  0 <= shr_m mrs /\
  0 <= M - shr_m mrs * 2 ^ k < 2 ^ k /\
  (shr_r mrs = true <-> 2 ^ k <= 2 * (M - shr_m mrs * 2 ^ k)) /\
  (shr_s mrs = true <->
   M - shr_m mrs * 2 ^ k <> 0 /\ 2 * (M - shr_m mrs * 2 ^ k) <> 2 ^ k).

Lemma shifted_0 (M : Z) :
  0 <= M -> shifted M 0 {| shr_m := M; shr_r := false; shr_s := false |}.
Proof.
  intros HM. unfold shifted. cbn [shr_m shr_r shr_s]. change (2 ^ 0) with 1.
  repeat split; try lia; try discriminate.
Qed.

Lemma shifted_1 (M k : Z) (mrs : shr_record) :
  0 <= k -> shifted M k mrs -> shifted M (k + 1) (shr_1 mrs).
Proof.
  intros Hk. destruct mrs as [m r s]. unfold shifted. cbn [shr_m shr_r shr_s].
  rewrite Z.pow_add_r by lia. change (2 ^ 1) with 2.
  assert (HP : 0 < 2 ^ k) by (apply Z.pow_pos_nonneg; lia).
  set (P := 2 ^ k) in *. intros (Hm & HR & Hr & Hs).
  destruct m as [|[q|q|]|q]; try lia; cbn [shr_1 shr_m shr_r shr_s];
    destruct r, s; cbn [orb];
    repeat split; intros; try discriminate; try reflexivity; try lia;
    try (exfalso; intuition (try discriminate; lia)).
Qed.

Lemma shifted_iter (M : Z) (p : positive) (k : Z) (mrs : shr_record) :
  0 <= k -> shifted M k mrs ->
  shifted M (k + Zpos p) (SpecFloat.iter_pos shr_1 p mrs).
Proof.
  revert k mrs. induction p as [p IH|p IH|]; intros k mrs Hk H;
    cbn [SpecFloat.iter_pos].
  - replace (k + Zpos p~1) with (k + 1 + Zpos p + Zpos p) by lia.
    apply IH; [lia|]. apply IH; [lia|]. now apply shifted_1.
  - replace (k + Zpos p~0) with (k + Zpos p + Zpos p) by lia.
    apply IH; [lia|]. now apply IH.
  - now apply shifted_1.
Qed.

(** Rounding the shifted mantissa to nearest: the result times the weight of
    its last place is within half that weight of [M]. *)
Lemma round_nearest_even_nearest (M k : Z) (mrs : shr_record) :
  0 <= k -> shifted M k mrs ->
  let m1 := round_nearest_even (shr_m mrs) (loc_of_shr_record mrs) in
  shr_m mrs <= m1 <= shr_m mrs + 1 /\
  2 * M - 2 ^ k <= 2 * (m1 * 2 ^ k) <= 2 * M + 2 ^ k.
Proof.
  intros Hk. destruct mrs as [m r s]. unfold shifted. cbn [shr_m shr_r shr_s].
  assert (HP : 0 < 2 ^ k) by (apply Z.pow_pos_nonneg; lia).
  set (P := 2 ^ k) in *. intros (Hm & HR & Hr & Hs).
  destruct r, s; cbn [loc_of_shr_record round_nearest_even].
  - assert (P <= 2 * (M - m * P)) by now apply Hr. lia.
  - assert (P <= 2 * (M - m * P)) by now apply Hr.
    destruct (Z.even m); lia.
  - assert (~ P <= 2 * (M - m * P)) by (intros H; apply Hr in H; discriminate). lia.
  - assert (~ P <= 2 * (M - m * P)) by (intros H; apply Hr in H; discriminate).
    assert (~ (M - m * P <> 0 /\ 2 * (M - m * P) <> P))
      by (intros H'; apply Hs in H'; discriminate).
    lia.
Qed.

(** The product of two 53-bit mantissas, rounded: the double returned is the
    multiple of the last place's weight nearest to the product. *)
Lemma round_product_nearest (m e : Z) :
  2 ^ 104 <= m < 2 ^ 106 -> -104 <= e <= 0 ->
  exists m'' e'' m1,
    binary_round_aux prec emax false m e loc_Exact = S754_finite false m'' e'' /\
    e + (Zdigits2 m - 53) <= e'' /\
    Zpos m'' * 2 ^ (e'' - e) = m1 * 2 ^ (Zdigits2 m - 53) /\
    2 ^ 52 <= m1 <= 2 ^ 53 /\
    2 * m - 2 ^ (Zdigits2 m - 53)
      <= 2 * (m1 * 2 ^ (Zdigits2 m - 53))
      <= 2 * m + 2 ^ (Zdigits2 m - 53).
Proof.
  intros Hm He.
  destruct m as [|q|q]; try lia.
  pose proof (digits2_pos_gt q) as Hgt. pose proof (digits2_pos_le q) as Hle.
  cbn [Zdigits2]. set (D := Zpos (digits2_pos q)) in *.
  assert (HD : 105 <= D <= 106).
  { split.
    - destruct (Z_le_gt_dec 105 D) as [|Hlt]; [assumption|].
      assert (2 ^ D <= 2 ^ 104) by (apply Z.pow_le_mono_r; lia). lia.
    - apply (Zdigits2_bound (Zpos q) 106); lia. }
  rewrite binary_round_aux_finish. unfold shr_fexp. cbn [Zdigits2]. fold D.
  replace (fexp prec emax (D + e) - e) with (D - 53)
    by (unfold fexp, SpecFloat.emin, prec, emax; lia).
  destruct (D - 53) as [|sp|sp] eqn:Es; try lia.
  cbn [shr shr_record_of_loc].
  set (mrs' := SpecFloat.iter_pos shr_1 sp
                 {| shr_m := Zpos q; shr_r := false; shr_s := false |}).
  assert (Hshift : shifted (Zpos q) (Zpos sp) mrs').
  { change (Zpos sp) with (0 + Zpos sp). apply shifted_iter; [lia|].
    apply shifted_0. lia. }
  destruct (round_nearest_even_nearest _ _ _ (Pos2Z.is_nonneg sp) Hshift)
    as [Hm1 Hnear].
  destruct Hshift as (_ & HR & _).
  assert (Hpos : 0 < 2 ^ Zpos sp) by (apply Z.pow_pos_nonneg; lia).
  assert (H52 : 2 ^ Zpos sp * 2 ^ 52 = 2 ^ (D - 1)).
  { rewrite <- Z.pow_add_r by lia. f_equal. lia. }
  assert (H53 : 2 ^ Zpos sp * 2 ^ 53 = 2 ^ D).
  { rewrite <- Z.pow_add_r by lia. f_equal. lia. }
  assert (Hlo : 2 ^ 52 <= shr_m mrs') by nia.
  assert (Hhi : shr_m mrs' < 2 ^ 53) by nia.
  set (m1 := round_nearest_even (shr_m mrs') (loc_of_shr_record mrs')) in *.
  destruct (Z_lt_ge_dec m1 (2 ^ 53)) as [Hlt|Hge53].
  - destruct m1 as [|q1|q1] eqn:Em1; try lia.
    rewrite finish_53 by lia.
    exists q1, (e + Zpos sp), (Zpos q1). split; [reflexivity|]. split; [lia|].
    replace (e + Zpos sp - e) with (Zpos sp) by lia.
    split; [reflexivity|]. split; [lia|]. exact Hnear.
  - assert (Heq : m1 = 2 ^ 53) by lia. rewrite Heq in *.
    rewrite finish_54 by lia.
    exists (2 ^ 52)%positive, (e + Zpos sp + 1), (2 ^ 53).
    split; [reflexivity|]. split; [lia|].
    replace (e + Zpos sp + 1 - e) with (Zpos sp + 1) by lia.
    rewrite Z.pow_add_r by lia. change (2 ^ 1) with 2.
    change (Zpos (2 ^ 52)) with (2 ^ 52).
    split; [lia|]. split; [lia|]. exact Hnear.
Qed.

Lemma Zdigits2_range (x : Z) :
  0 < x -> 0 < Zdigits2 x /\ 2 ^ (Zdigits2 x - 1) <= x < 2 ^ Zdigits2 x.
Proof.
  destruct x as [|p|p]; try lia. intros _. cbn [Zdigits2].
  pose proof (digits2_pos_gt p). pose proof (digits2_pos_le p). lia.
Qed.

Lemma Zdigits2_shift (x k : Z) :
  0 < x -> 0 <= k -> Zdigits2 (x * 2 ^ k) = Zdigits2 x + k.
Proof.
  intros Hx Hk. destruct (Zdigits2_range x Hx) as (Hd & Hlo & Hhi).
  assert (0 < 2 ^ k) by (apply Z.pow_pos_nonneg; lia).
  apply Zdigits2_eq; [lia|].
  replace (Zdigits2 x + k - 1) with (Zdigits2 x - 1 + k) by lia.
  rewrite !Z.pow_add_r by lia. nia.
Qed.

Lemma Zdigits2_mono (a b : Z) : 0 < a <= b -> Zdigits2 a <= Zdigits2 b.
Proof.
  intros Hab.
  destruct (Zdigits2_range a ltac:(lia)) as (Hda & Hlo & _).
  destruct (Zdigits2_range b ltac:(lia)) as (Hdb & _ & Hhi).
  destruct (Z_le_gt_dec (Zdigits2 a) (Zdigits2 b)) as [|Hgt]; [assumption|].
  assert (2 ^ Zdigits2 b <= 2 ^ (Zdigits2 a - 1)) by (apply Z.pow_le_mono_r; lia).
  lia.
Qed.

(** The mantissa of the literal [1.1]. *)
Definition C11 : Z := 4953959590107546.

(** The ceiling of [a / 2^52]. *)
Definition ceil52 (a : Z) : Z := - ((- a) / 2 ^ 52).

Lemma ceil52_spec (a : Z) : 2 ^ 52 * (ceil52 a - 1) < a <= 2 ^ 52 * ceil52 a.
Proof.
  unfold ceil52. change (2 ^ 52) with 4503599627370496.
  pose proof (Z.div_mod (- a) 4503599627370496 ltac:(lia)).
  pose proof (Z.mod_pos_bound (- a) 4503599627370496 ltac:(lia)). lia.
Qed.

Lemma ceil52_mono (a b : Z) : a <= b -> ceil52 a <= ceil52 b.
Proof.
  intros Hab. pose proof (ceil52_spec a). pose proof (ceil52_spec b). lia.
Qed.

Lemma ceil_scaled_ceil52 (m e : Z) :
  -52 <= e -> ceil_scaled m e = ceil52 (m * 2 ^ (e + 52)).
Proof.
  intros He. unfold ceil_scaled, ceil52. destruct e as [|p|p].
  - change (2 ^ (0 + 52)) with (2 ^ 52). change (2 ^ 0) with 1.
    rewrite <- Z.mul_opp_l, Z.div_mul by (apply Z.pow_nonzero; lia). lia.
  - rewrite Z.pow_add_r, Z.mul_assoc, <- Z.mul_opp_l, Z.div_mul
      by (try apply Z.pow_nonzero; lia). lia.
  - assert (Hp : Zpos p <= 52) by lia.
    assert (Hsplit : 2 ^ 52 = 2 ^ Zpos p * 2 ^ (Zneg p + 52)).
    { rewrite <- Z.pow_add_r by lia. f_equal. lia. }
    rewrite Hsplit, <- Z.mul_opp_l, Z.div_mul_cancel_r
      by (apply Z.pow_nonzero; lia).
    reflexivity.
Qed.

(** [math.ceil(n * 1.1)]: the ceiling of the multiple of the last place's
    weight that is nearest to [n * C11], in units of 2^-52. *)
Lemma headroom_nearest (n : Z) :
  0 < n < 2 ^ 53 ->
  exists m1,
    Schema.headroom n = inr (ceil52 (m1 * 2 ^ (Zdigits2 (n * C11) - 53))) /\
    53 <= Zdigits2 (n * C11) /\
    2 ^ 52 <= m1 <= 2 ^ 53 /\
    2 * (n * C11) - 2 ^ (Zdigits2 (n * C11) - 53)
      <= 2 * (m1 * 2 ^ (Zdigits2 (n * C11) - 53))
      <= 2 * (n * C11) + 2 ^ (Zdigits2 (n * C11) - 53).
Proof.
  intros Hn.
  destruct (of_int_exact n Hn) as (mz & ez & Hof & Hmz & Hez & Hrange).
  unfold Schema.headroom, mul, lit_1_1. rewrite Hof. cbn [SFmul xorb].
  assert (HC : 2 ^ 52 <= C11 < 2 ^ 53) by (unfold C11; lia).
  assert (Hx : 0 < n * C11) by (unfold C11; lia).
  destruct (Zdigits2_range _ Hx) as (_ & Hxlo & Hxhi).
  assert (Hdx : 53 <= Zdigits2 (n * C11)).
  { destruct (Z_le_gt_dec 53 (Zdigits2 (n * C11))) as [|Hlt]; [assumption|].
    assert (2 ^ Zdigits2 (n * C11) <= 2 ^ 52) by (apply Z.pow_le_mono_r; lia).
    nia. }
  assert (HQ : 0 < 2 ^ (- ez)) by (apply Z.pow_pos_nonneg; lia).
  assert (HM : Zpos (mz * 4953959590107546) = n * C11 * 2 ^ (- ez)).
  { rewrite Pos2Z.inj_mul, Hmz. unfold C11. ring. }
  destruct (round_product_nearest (Zpos (mz * 4953959590107546)) (ez + -52))
    as (m'' & e'' & m1 & -> & He'' & HW & Hm1 & Hnear);
    [rewrite Pos2Z.inj_mul; lia|lia|].
  rewrite HM, Zdigits2_shift in He'', HW, Hnear by lia.
  set (u := Zdigits2 (n * C11) - 53) in *.
  replace (Zdigits2 (n * C11) + - ez - 53) with (u + - ez) in * by lia.
  assert (HU : 0 < 2 ^ u) by (apply Z.pow_pos_nonneg; lia).
  rewrite Z.pow_add_r in HW, Hnear by lia.
  exists m1. cbn [math_ceil cond_Zopp ret].
  rewrite ceil_scaled_ceil52 by lia.
  replace (e'' - (ez + -52)) with (e'' + 52 + - ez) in HW by lia.
  rewrite Z.pow_add_r in HW by lia.
  assert (HW' : Zpos m'' * 2 ^ (e'' + 52) = m1 * 2 ^ u) by nia.
  rewrite HW'. split; [reflexivity|]. split; [lia|]. split; [lia|]. nia.
Qed.

(** More characters never give less headroom. *)
Lemma headroom_val_mono (n n' : Z) :
  0 <= n <= n' -> n' < 2 ^ 53 ->
  Schema.headroom_val n <= Schema.headroom_val n'.
Proof.
  intros Hn Hn'.
  destruct (Z.eq_dec n n') as [->|Hne]; [lia|].
  destruct (Z.eq_dec n 0) as [->|Hn0].
  { pose proof (SchemaFacts.headroom_total n' ltac:(lia)) as Hh.
    pose proof (ceil_mul_ge n' _ ltac:(lia) Hh).
    change (Schema.headroom_val 0) with 0. lia. }
  destruct (headroom_nearest n ltac:(lia)) as (m1 & Hh & Hd & Hm1 & Hnear).
  destruct (headroom_nearest n' ltac:(lia)) as (m1' & Hh' & Hd' & Hm1' & Hnear').
  unfold Schema.headroom_val. rewrite Hh, Hh'. apply ceil52_mono.
  assert (Hx : 0 < n * C11 < n' * C11) by (unfold C11; lia).
  pose proof (Zdigits2_mono (n * C11) (n' * C11) ltac:(lia)) as Hdd.
  destruct (Zdigits2_range (n' * C11) ltac:(lia)) as (_ & Hlo' & _).
  set (u := Zdigits2 (n * C11) - 53) in *.
  set (u' := Zdigits2 (n' * C11) - 53) in *.
  assert (HU : 0 < 2 ^ u) by (apply Z.pow_pos_nonneg; lia).
  assert (HU' : 0 < 2 ^ u') by (apply Z.pow_pos_nonneg; lia).
  destruct (Z.eq_dec u u') as [Heq|Hlt].
  - rewrite <- Heq in *.
    destruct (Z_le_gt_dec m1 m1') as [Hle|Hgt];
      [apply Z.mul_le_mono_nonneg_r; lia|].
    assert ((m1' + 1) * 2 ^ u <= m1 * 2 ^ u)
      by (apply Z.mul_le_mono_nonneg_r; lia).
    lia.
  - assert (H1 : 2 ^ (u + 53) <= 2 ^ (u' + 52)) by (apply Z.pow_le_mono_r; lia).
    rewrite !Z.pow_add_r in H1 by lia.
    assert (m1 * 2 ^ u <= 2 ^ 53 * 2 ^ u)
      by (apply Z.mul_le_mono_nonneg_r; lia).
    assert (2 ^ 52 * 2 ^ u' <= m1' * 2 ^ u')
      by (apply Z.mul_le_mono_nonneg_r; lia).
    lia.
Qed.

(** The headroom against the ceiling of [11 n / 10] in exact arithmetic: the
    same, or one more. *)
Lemma headroom_val_near_ceiling (n : Z) :
  0 <= n <= 2 ^ 51 ->
  (11 * n + 9) / 10 <= Schema.headroom_val n <= (11 * n + 9) / 10 + 1.
Proof.
  intros Hn. destruct (Z.eq_dec n 0) as [->|Hn0].
  { change (Schema.headroom_val 0) with 0. change ((11 * 0 + 9) / 10) with 0. lia. }
  destruct (headroom_nearest n ltac:(lia)) as (m1 & Hh & Hd & Hm1 & Hnear).
  unfold Schema.headroom_val. rewrite Hh.
  destruct (Zdigits2_range (n * C11) ltac:(unfold C11; lia)) as (_ & Hlo & _).
  set (u := Zdigits2 (n * C11) - 53) in *.
  replace (Zdigits2 (n * C11) - 1) with (u + 52) in Hlo by lia.
  assert (HU : 0 < 2 ^ u) by (apply Z.pow_pos_nonneg; lia).
  rewrite Z.pow_add_r in Hlo by lia.
  pose proof (ceil52_spec (m1 * 2 ^ u)) as Hc.
  set (y := ceil52 (m1 * 2 ^ u)) in *. set (W := m1 * 2 ^ u) in *.
  set (U := 2 ^ u) in *.
  pose proof (Z.div_mod (11 * n + 9) 10 ltac:(lia)) as Hdiv.
  pose proof (Z.mod_pos_bound (11 * n + 9) 10 ltac:(lia)) as Hmod.
  set (c := (11 * n + 9) / 10) in *.
  change (2 ^ 52) with 4503599627370496 in *.
  change (2 ^ 51) with 2251799813685248 in *.
  unfold C11 in *. lia.
Qed.
End RoundingFacts.

(** ** The length table against exact arithmetic, and under more reaches *)

Module LengthTableFacts.
Import Schema SchemaFacts.

Lemma observed_app (fld : string) (a b : list (gmap string PyVal)) :
  observed fld (a ++ b) = (observed fld a ++ observed fld b)%list.
Proof. unfold observed. apply omap_app. Qed.

Lemma lengths_below_mono (b b' : Z) (a : gmap string PyVal) :
  (b <= b')%Z -> lengths_below b a -> lengths_below b' a.
Proof.
  intros Hb H. unfold lengths_below. eapply map_Forall_impl; [exact H|].
  intros k v. cbn beta. destruct (len_or_none v); [lia|trivial].
Qed.

Lemma lookup_len_dict (attrs : list (gmap string PyVal)) (fld : string) (y : Z) :
  (headroom_val <$> dropna (df_max (from_records (dict_lst attrs)))) !! fld = Some y <->
  exists m, is_max m (observed fld attrs) /\ y = headroom_val m.
Proof.
  rewrite lookup_fmap, lookup_table. split.
  - destruct (foldr _ None (observed fld attrs)) as [m|] eqn:Em; [|discriminate].
    intros [= <-]. exists m. split; [now apply list_max_is_max|reflexivity].
  - intros (m & Hm%list_max_is_max & ->). now rewrite Hm.
Qed.

(** Deriving the table from more reaches never takes a field away and never
    shortens one: every length of the table of a collection is at most the
    length the table of the collection with further reaches holds for the
    field.  So a table derived from a part of the reaches can only be too
    short for the rest, never too long. *)
Theorem len_dict_grows (attrs more : list (gmap string PyVal)) :
  Forall (lengths_below (2 ^ 53)) (attrs ++ more) ->
  exists d d',
    len_dict attrs = inr d /\ len_dict (attrs ++ more) = inr d' /\
    forall fld y, d !! fld = Some y ->
      exists y', d' !! fld = Some y' /\ (y <= y')%Z.
Proof.
  intros Hall. pose proof Hall as [Ha _]%Forall_app.
  destruct (len_dict_returns attrs Ha) as [Hd Hobs].
  destruct (len_dict_returns (attrs ++ more) Hall) as [Hd' Hobs'].
  eexists. eexists. split; [exact Hd|]. split; [exact Hd'|].
  intros fld y (m & Hm & ->)%lookup_len_dict.
  assert (Hin : m ∈ observed fld (attrs ++ more)).
  { rewrite observed_app. apply elem_of_app. left. apply Hm. }
  destruct (foldr (fun x acc => nanmax (Some x) acc) None
              (observed fld (attrs ++ more))) as [m'|] eqn:Em'.
  - apply list_max_is_max in Em'. exists (headroom_val m'). split.
    + apply lookup_len_dict. eauto.
    + destruct (Hobs fld m Hm) as [Hr _]. destruct (Hobs' fld m' Em') as [Hr' _].
      apply RoundingFacts.headroom_val_mono; [|lia].
      split; [lia|]. now apply Em'.
  - apply list_max_nil in Em'. rewrite Em' in Hin. now apply elem_of_nil in Hin.
Qed.

Lemma len_dict_grows_witness :
  Forall (lengths_below (2 ^ 53)) ([reach_a] ++ [reach_b]) /\
  exists d d',
    len_dict [reach_a] = inr d /\ len_dict ([reach_a] ++ [reach_b]) = inr d' /\
    forall fld y, d !! fld = Some y ->
      exists y', d' !! fld = Some y' /\ (y <= y')%Z.
Proof.
  assert (H : Forall (lengths_below (2 ^ 53)) ([reach_a] ++ [reach_b])).
  { repeat constructor; apply lengths_below_singleton; vm_compute; reflexivity. }
  split; [exact H|]. exact (len_dict_grows [reach_a] [reach_b] H).
Defined.

(** The table against the formula in exact arithmetic: for strings shorter
    than 2^51 characters, the length the table holds for a field is the
    ceiling of eleven tenths of the longest string of the field, or that
    ceiling plus one (the literal [1.1] is a double just above eleven tenths,
    and the product is rounded). *)
Theorem len_dict_near_ceiling (attrs : list (gmap string PyVal)) :
  Forall (lengths_below (2 ^ 51)) attrs ->
  exists d, len_dict attrs = inr d /\
    forall fld y, d !! fld = Some y ->
      exists m, is_max m (observed fld attrs) /\
        ((11 * m + 9) / 10 <= y <= (11 * m + 9) / 10 + 1)%Z.
Proof.
  intros Hlen.
  assert (Hlen' : Forall (lengths_below (2 ^ 53)) attrs).
  { eapply Forall_impl; [exact Hlen|]. intros a. now apply lengths_below_mono. }
  destruct (len_dict_returns attrs Hlen') as [Hd _].
  eexists. split; [exact Hd|].
  intros fld y (m & Hm & ->)%lookup_len_dict. exists m. split; [exact Hm|].
  apply RoundingFacts.headroom_val_near_ceiling.
  pose proof (observed_range _ fld attrs Hlen m (proj1 Hm)). lia.
Qed.

Lemma len_dict_near_ceiling_witness :
  Forall (lengths_below (2 ^ 51)) [reach_a; reach_b] /\
  exists d, len_dict [reach_a; reach_b] = inr d /\
    forall fld y, d !! fld = Some y ->
      exists m, is_max m (observed fld [reach_a; reach_b]) /\
        ((11 * m + 9) / 10 <= y <= (11 * m + 9) / 10 + 1)%Z.
Proof.
  assert (H : Forall (lengths_below (2 ^ 51)) [reach_a; reach_b]).
  { repeat constructor; apply lengths_below_singleton; vm_compute; reflexivity. }
  split; [exact H|]. exact (len_dict_near_ceiling [reach_a; reach_b] H).
Defined.

End LengthTableFacts.
